(** * Group-chat supervisor scheduling: a shallow embedding

    This development embeds the [aiGroupChat] slice of the chat store
    (the debounced supervisor trigger, the supervisor decision run, the
    agent response executor and the per-agent response task) and proves
    properties of it.

    - The zustand store slice, the stores it reads and the JavaScript
      runtime (pending [setTimeout] callbacks, aborted signals, console)
      are records; synchronous actions are functions on [World].
    - [async] functions are resumptions ([Prog]): a tree whose [Await]
      nodes are the suspension points, with [try]/[catch]/[finally] as
      combinators and [Promise.all] as a [Join] node.
    - Collaborators that live outside the slice answer through a handler;
      helpers imported from other modules are section variables. *)

From stdpp Require Import gmap strings list fin_maps pretty.
From Stdlib Require Import ZArith Ascii String.

Local Open Scope string_scope.
Local Open Scope list_scope.

(** ** JavaScript values used by the slice *)

(** A thrown value: [instanceof Error], its [name] and its [message]. *)
Record JsError := mkJsError {
  isError : bool;
  errName : string;
  errMessage : string }.

(** Settled state of a promise. *)
Inductive Outcome (A : Type) : Type :=
| Fulfilled (a : A)
| Rejected (e : JsError).
Arguments Fulfilled {A} a.
Arguments Rejected {A} e.

(** Truthiness of a string: only the empty string is falsy. *)
Definition truthy_str (s : string) : bool :=
  match s with EmptyString => false | String _ _ => true end.

(** Truthiness of an optional string ([undefined] is falsy). *)
Definition truthy_ostr (o : option string) : bool :=
  match o with Some s => truthy_str s | None => false end.

(** Truthiness of a timer handle (a number): [0] is falsy. *)
Definition truthy_num (n : nat) : bool := negb (Nat.eqb n 0).

(** [a || b] on optional strings. *)
Definition or_str (o : option string) (d : string) : string :=
  match o with Some s => if truthy_str s then s else d | None => d end.

(** Strings hold UTF-8 text.  A character is a byte that is not a
    continuation byte ([10xxxxxx]) together with the continuation bytes
    that follow it; [chars] splits a text into its characters. *)
Definition is_continuation (c : ascii) : bool :=
  let n := nat_of_ascii c in (128 <=? n)%nat && (n <=? 191)%nat.

Fixpoint chars (s : string) : list string :=
  match s with
  | EmptyString => []
  | String c r =>
      match chars r with
      | String c' r' :: chs =>
          if is_continuation c' then String c (String c' r') :: chs
          else String c EmptyString :: String c' r' :: chs
      | chs => String c EmptyString :: chs
      end
  end.

(** The character with the given UTF-8 bytes. *)
Definition utf8 (bytes : list nat) : string :=
  foldr (fun b s => String (ascii_of_nat b) s) EmptyString bytes.

(** The characters removed by [String.prototype.trim]: the WhiteSpace
    and LineTerminator code points of ECMAScript, in UTF-8. *)
Definition whiteSpace : list string :=
  map utf8
    ([ [9]; [10]; [11]; [12]; [13];          (* U+0009 .. U+000D *)
       [32];                                 (* U+0020 *)
       [194; 160];                           (* U+00A0 *)
       [225; 154; 128] ]                     (* U+1680 *)
     ++ map (fun b => [226; 128; b]) (seq 128 11)   (* U+2000 .. U+200A *)
     ++ [ [226; 128; 168]; [226; 128; 169];  (* U+2028, U+2029 *)
          [226; 128; 175];                   (* U+202F *)
          [226; 129; 159];                   (* U+205F *)
          [227; 128; 128];                   (* U+3000 *)
          [239; 187; 191] ]).                (* U+FEFF *)

Definition js_whitespace (ch : string) : bool :=
  existsb (String.eqb ch) whiteSpace.

Fixpoint dropWhile {A : Type} (f : A -> bool) (l : list A) : list A :=
  match l with
  | [] => []
  | x :: r => if f x then dropWhile f r else l
  end.

(** [s.trim()]: the white space at both ends is removed. *)
Definition trim (s : string) : string :=
  let trimmed_start := dropWhile js_whitespace (chars s) in
  let trimmed := rev (dropWhile js_whitespace (rev trimmed_start)) in
  foldr String.append EmptyString trimmed.

(** The text is empty or white space only. *)
Definition all_whitespace (s : string) : bool :=
  forallb js_whitespace (chars s).

(** ** Data model *)

Inductive MessageRole := RoleUser | RoleAssistant | RoleSystem | RoleTool.

Global Instance MessageRole_eq_dec : EqDecision MessageRole.
Proof. solve_decision. Defined.

Record ToolCall := mkToolCall { toolId : string }.

Record ChatMessage := mkChatMessage {
  msgId : string;
  msgRole : MessageRole;
  msgContent : string;
  msgAgentId : option string;
  msgGroupId : option string;
  msgTargetId : option string;
  msgTools : option (list ToolCall) }.

Record CreateMessageParams := mkCreateMessageParams {
  cmRole : MessageRole;
  cmContent : string;
  cmFiles : option (list string);
  cmFromModel : option string;
  cmFromProvider : option string;
  cmAgentId : option string;
  cmGroupId : string;
  cmSessionId : string;
  cmTopicId : option string;
  cmTargetId : option string }.

Record FileItem := mkFileItem { fileId : string }.

Record SendGroupMessageParams := mkSendGroupMessageParams {
  sgGroupId : string;
  sgMessage : string;
  sgFiles : option (list FileItem);
  sgOnlyAddUserMessage : option bool;
  sgTargetMemberId : option string }.

(** A roster entry of the session store. *)
Record Agent := mkAgent {
  agent_id : option string;
  agent_title : option string;
  agent_provider : option string;
  agent_model : option string;
  agent_systemRole : option string }.

Record GroupConfig := mkGroupConfig {
  orchestratorModel : option string;
  orchestratorProvider : option string;
  systemPrompt : option string;
  responseSpeed : option string }.

(** One supervisor decision: [{ id, target }]. *)
Record SupervisorDecision := mkDecision {
  decisionId : string;
  decisionTarget : option string }.

Record GroupMemberInfo := mkGroupMemberInfo {
  memberId : string;
  memberTitle : string }.

Record SupervisorContext := mkSupervisorContext {
  ctxAvailableAgents : option (list Agent);
  ctxGroupId : string;
  ctxMessages : list ChatMessage;
  ctxModel : string;
  ctxProvider : string;
  ctxUserName : string;
  ctxSystemPrompt : option string;
  ctxAbortController : nat }.

Record FetchParams := mkFetchParams {
  fpMessages : list ChatMessage;
  fpMessageId : string;
  fpModel : string;
  fpProvider : string;
  fpTraceId : string;
  fpAgentConfig : Agent }.

(** Awaited collaborators, indexed by the type of the value they resolve to. *)
Inductive Call : Type -> Type :=
| CreateMessage (p : CreateMessageParams) : Call (option string)
| FetchAIChatMessage (p : FetchParams) : Call bool
| RefreshMessages : Call unit
| TriggerToolCalls (messageId : string) : Call unit
| MakeDecision (ctx : SupervisorContext) : Call (list SupervisorDecision).

Inductive Level := LevelLog | LevelError.

(** What the slice does to the outside, in program order.  A console
    call keeps its message and the error passed with it; other values
    passed along for display are left out. *)
Inductive Event :=
| EConsole (lvl : Level) (msg : string) (err : option JsError)
| EAction (name : string)
| ESetTimeout (t : nat) (groupId : string) (delay : Z)
| EClearTimeout (t : nat)
| ENewAbortController (c : nat)
| EAbort (c : nat) (reason : string)
| ERequest {X : Type} (c : Call X)
| EUpdateActiveSessionType (ty : string)
| EToggleMessageInToolsCalling (on : bool) (messageId : string)
| EDispatchUpdateMessage (messageId : string) (content : string)
    (errType : string) (errMsg : string)
| EToggleChatLoading (on : bool) (action : string).

(** The slice of the chat store ([ChatStoreState]) used here. *)
Record ChatStoreState := mkChatStoreState {
  supervisorDebounceTimers : gmap string nat;
  supervisorDecisionAbortControllers : gmap string nat;
  supervisorDecisionLoading : list string;
  isCreatingMessage : bool;
  messagesMap : gmap string (list ChatMessage);
  activeTopicId : option string }.

(** Other stores, read through their selectors. *)
Record External := mkExternal {
  sessionActiveId : string;
  currentGroupAgents : option (list Agent);
  currentGroupConfig : option GroupConfig;
  nickName : option string }.

(** The runtime: pending [setTimeout] callbacks (handle, and the group
    and delay the callback was armed with), the next handle, the
    [AbortController]s created and those aborted, and the trace. *)
Record Runtime := mkRuntime {
  timeouts : list (nat * (string * Z));
  nextTimer : nat;
  abortedSignals : gset nat;
  nextController : nat;
  trace : list Event }.

Record World := mkWorld {
  store : ChatStoreState;
  ext : External;
  rt : Runtime }.

Definition set_timers (f : gmap string nat -> gmap string nat) (w : World) : World :=
  let s := store w in
  mkWorld (mkChatStoreState (f (supervisorDebounceTimers s))
             (supervisorDecisionAbortControllers s) (supervisorDecisionLoading s)
             (isCreatingMessage s) (messagesMap s) (activeTopicId s))
    (ext w) (rt w).

Definition set_controllers (f : gmap string nat -> gmap string nat) (w : World) : World :=
  let s := store w in
  mkWorld (mkChatStoreState (supervisorDebounceTimers s)
             (f (supervisorDecisionAbortControllers s)) (supervisorDecisionLoading s)
             (isCreatingMessage s) (messagesMap s) (activeTopicId s))
    (ext w) (rt w).

Definition set_loading (f : list string -> list string) (w : World) : World :=
  let s := store w in
  mkWorld (mkChatStoreState (supervisorDebounceTimers s)
             (supervisorDecisionAbortControllers s) (f (supervisorDecisionLoading s))
             (isCreatingMessage s) (messagesMap s) (activeTopicId s))
    (ext w) (rt w).

Definition set_isCreatingMessage (b : bool) (w : World) : World :=
  let s := store w in
  mkWorld (mkChatStoreState (supervisorDebounceTimers s)
             (supervisorDecisionAbortControllers s) (supervisorDecisionLoading s)
             b (messagesMap s) (activeTopicId s))
    (ext w) (rt w).

Definition set_timeouts (f : list (nat * (string * Z)) -> list (nat * (string * Z)))
    (w : World) : World :=
  let r := rt w in
  mkWorld (store w) (ext w)
    (mkRuntime (f (timeouts r)) (nextTimer r) (abortedSignals r) (nextController r) (trace r)).

Definition set_nextTimer (n : nat) (w : World) : World :=
  let r := rt w in
  mkWorld (store w) (ext w)
    (mkRuntime (timeouts r) n (abortedSignals r) (nextController r) (trace r)).

Definition set_aborted (f : gset nat -> gset nat) (w : World) : World :=
  let r := rt w in
  mkWorld (store w) (ext w)
    (mkRuntime (timeouts r) (nextTimer r) (f (abortedSignals r)) (nextController r) (trace r)).

Definition set_nextController (n : nat) (w : World) : World :=
  let r := rt w in
  mkWorld (store w) (ext w)
    (mkRuntime (timeouts r) (nextTimer r) (abortedSignals r) n (trace r)).

(** Append one event to the trace. *)
Definition emit (e : Event) (w : World) : World :=
  let r := rt w in
  mkWorld (store w) (ext w)
    (mkRuntime (timeouts r) (nextTimer r) (abortedSignals r) (nextController r)
       (trace r ++ [e])).

Definition console_log (msg : string) (w : World) : World :=
  emit (EConsole LevelLog msg None) w.

Definition console_error (msg : string) (e : option JsError) (w : World) : World :=
  emit (EConsole LevelError msg e) w.

(** ** Runtime primitives *)

(** [setTimeout(cb, delay)]: a fresh handle; the callback is the debounce
    callback of [groupId]. *)
Definition setTimeout (groupId : string) (delay : Z) (w : World) : nat * World :=
  let t := nextTimer (rt w) in
  (t, emit (ESetTimeout t groupId delay)
        (set_nextTimer (S t) (set_timeouts (fun l => l ++ [(t, (groupId, delay))]) w))).

(** [clearTimeout(t)]: the callback with this handle will not run. *)
Definition clearTimeout (t : nat) (w : World) : World :=
  emit (EClearTimeout t)
    (set_timeouts (filter (fun p => fst p <> t)) w).

(** [new AbortController()]. *)
Definition newAbortController (w : World) : nat * World :=
  let c := nextController (rt w) in
  (c, emit (ENewAbortController c) (set_nextController (S c) w)).

(** [controller.abort(reason)]. *)
Definition abort (c : nat) (reason : string) (w : World) : World :=
  emit (EAbort c reason) (set_aborted (fun s => {[c]} ∪ s) w).

(** ** Synchronous actions of the slice *)

Definition getDebounceThreshold (responseSpeed : option string) : Z :=
  match responseSpeed with
  | Some s =>
      if String.eqb s "fast" then 3000%Z
      else if String.eqb s "medium" then 5000%Z
      else if String.eqb s "slow" then 8000%Z
      else 5000%Z
  | None => 5000%Z
  end.

(** Check if a message is a tool calling message that requires a follow-up. *)
Definition isToolCallMessage (message : ChatMessage) : bool :=
  bool_decide (msgRole message = RoleAssistant)
  && match msgTools message with
     | Some tools => Nat.ltb 0 (List.length tools)
     | None => false
     end.

(** Check if we should avoid supervisor decisions based on recent messages. *)
Definition shouldAvoidSupervisorDecision (messages : list ChatMessage) : bool :=
  if Nat.eqb (List.length messages) 0 then true
  else
    match last messages with
    | None => true
    | Some lastMessage =>
        if isToolCallMessage lastMessage then true
        else if bool_decide (msgRole lastMessage = RoleTool) then true
        else false
    end.

(** Modelled from the spec: [toggleBooleanList] of the store utilities is
    not part of the sources; the loading flags are a per-group boolean kept
    as the list of the groups whose flag is set, so switching a flag on adds
    the id when it is absent and switching it off removes it. *)
Definition toggleBooleanList (ids : list string) (id : string) (loading : bool)
    : list string :=
  if loading then (if bool_decide (id ∈ ids) then ids else ids ++ [id])
  else filter (fun x => x <> id) ids.

(** The loading flag of a group. *)
Definition loadingFlag (groupId : string) (w : World) : bool :=
  bool_decide (groupId ∈ supervisorDecisionLoading (store w)).

(** Each [set] of the store leaves its action label in the trace (the
    label is the argument of the namespace function [n]). *)
Definition internal_toggleSupervisorLoading (loading : bool) (groupId : option string)
    (w : World) : World :=
  emit (EAction ("toggleSupervisorLoading/" +:+ (if loading then "start" else "end")))
    (set_loading
       (fun cur =>
          match groupId with
          | Some g =>
              if truthy_str g then toggleBooleanList cur g loading
              else if loading then cur else []
          | None => if loading then cur else []
          end) w).

Definition internal_cancelSupervisorDecision (groupId : string) (w : World) : World :=
  let existingTimer := supervisorDebounceTimers (store w) !! groupId in
  let existingAbortController := supervisorDecisionAbortControllers (store w) !! groupId in
  let w := console_log ("Attempting to cancel supervisor decision for group " +:+ groupId) w in
  (* Cancel pending debounced timer *)
  let w :=
    match existingTimer with
    | Some t =>
        if truthy_num t then
          let w := clearTimeout t w in
          let w := console_log
                     ("Cancelled pending supervisor decision timer for group " +:+ groupId) w in
          emit (EAction ("cancelSupervisorTimer/" +:+ groupId))
            (set_timers (delete groupId) w)
        else w
    | None => w
    end in
  (* Abort ongoing supervisor decision request *)
  let w :=
    match existingAbortController with
    | Some c =>
        let w := abort c "User cancelled supervisor decision" w in
        let w := console_log
                   ("Aborted ongoing supervisor decision request for group " +:+ groupId) w in
        emit (EAction ("cancelSupervisorAbortController/" +:+ groupId))
          (set_controllers (delete groupId) w)
    | None => w
    end in
  (* Stop the loading state *)
  let w := internal_toggleSupervisorLoading false (Some groupId) w in
  console_log ("Stopped supervisor loading state for group " +:+ groupId) w.

(** [`Using debounce threshold: ${debounceThreshold}ms for responseSpeed:
    ${responseSpeed}`] *)
Definition thresholdMessage (debounceThreshold : Z) (responseSpeed : option string)
    : string :=
  "Using debounce threshold: " +:+ pretty debounceThreshold
  +:+ "ms for responseSpeed: " +:+ default "undefined" responseSpeed.

(** The callback passed to [setTimeout] is kept by the runtime under its
    handle as the group it closes over ([timerCallback] below is its body). *)
Definition internal_triggerSupervisorDecisionDebounced (groupId : string) (w : World)
    : World :=
  let w := console_log ("Supervisor decision debounced triggered for group " +:+ groupId) w in
  let w := internal_cancelSupervisorDecision groupId w in
  let groupConfig := currentGroupConfig (ext w) in
  let speed := match groupConfig with Some c => responseSpeed c | None => None end in
  let debounceThreshold := getDebounceThreshold speed in
  let w := console_log (thresholdMessage debounceThreshold speed) w in
  (* Set a new timer with dynamic debounce based on group settings *)
  let '(timerId, w) := setTimeout groupId debounceThreshold w in
  (* Store the timer in state *)
  emit (EAction ("setSupervisorTimer/" +:+ groupId))
    (set_timers (insert groupId timerId) w).

(** [Object.keys(m).forEach] over the timers: the order of the keys only
    orders the [clearTimeout] calls. *)
Definition clearAllTimers (timers : gmap string nat) (w : World) : World :=
  foldr (fun kv w => if truthy_num (snd kv) then clearTimeout (snd kv) w else w)
    w (map_to_list timers).

Definition abortAllControllers (controllers : gmap string nat) (w : World) : World :=
  foldr (fun kv w => abort (snd kv) "Session cleanup" w) w (map_to_list controllers).

Definition internal_cancelAllSupervisorDecisions (w : World) : World :=
  let timers := supervisorDebounceTimers (store w) in
  let controllers := supervisorDecisionAbortControllers (store w) in
  let timerGroupIds := map fst (map_to_list timers) in
  let abortControllerGroupIds := map fst (map_to_list controllers) in
  if Nat.ltb 0 (List.length timerGroupIds) || Nat.ltb 0 (List.length abortControllerGroupIds) then
    let w := console_log
               "Cancelling all pending supervisor decisions for session change/cleanup" w in
    (* Cancel all timers *)
    let w := clearAllTimers timers w in
    (* Abort all ongoing requests *)
    let w := abortAllControllers controllers w in
    (* Clear all timers and abort controllers from state *)
    emit (EAction "cancelAllSupervisorDecisions")
      (set_controllers (fun _ => ∅) (set_timers (fun _ => ∅) w))
  else w.

(** [internal_setActiveGroup] only forwards to an action of another slice. *)
Definition internal_setActiveGroup (groupId : string) (w : World) : World :=
  emit (EUpdateActiveSessionType "group") w.

(** ** Asynchronous functions as resumptions *)

(** The body of an [async] function whose promise resolves to [void]:
    [Ret] returns, [Throw] rejects, [Get]/[Put] read and replace the world,
    [Await] suspends on a collaborator and [Join] suspends on
    [Promise.all] of the calls described by [j].  Every [try] statement of
    the slice is the last statement of its function, so a [Ret] inside a
    [try] body stands both for [return] and for reaching the end. *)
Inductive Prog (J : Type) : Type :=
| Ret : Prog J
| Throw (e : JsError) : Prog J
| Get (k : World -> Prog J) : Prog J
| Put (w : World) (k : Prog J) : Prog J
| Await {X : Type} (c : Call X) (k : Outcome X -> Prog J) : Prog J
| Join (j : J) (k : Outcome unit -> Prog J) : Prog J.
Arguments Ret {J}.
Arguments Throw {J} e.
Arguments Get {J} k.
Arguments Put {J} w k.
Arguments Await {J X} c k.
Arguments Join {J} j k.

(** A synchronous action, then [k]. *)
Definition modify {J} (f : World -> World) (k : Prog J) : Prog J :=
  Get (fun w => Put (f w) k).

(** [const x = await c; k x]: a rejection is thrown at the [await]. *)
Definition await {J X} (c : Call X) (k : X -> Prog J) : Prog J :=
  Await c (fun o => match o with Fulfilled x => k x | Rejected e => Throw e end).

(** [p; q] *)
Fixpoint seq {J} (p q : Prog J) : Prog J :=
  match p with
  | Ret => q
  | Throw e => Throw e
  | Get k => Get (fun w => seq (k w) q)
  | Put w k => Put w (seq k q)
  | Await c k => Await c (fun o => seq (k o) q)
  | Join j k => Join j (fun o => seq (k o) q)
  end.

(** [try { p } catch (error) { handler error }] *)
Fixpoint try_catch {J} (p : Prog J) (handler : JsError -> Prog J) : Prog J :=
  match p with
  | Ret => Ret
  | Throw e => handler e
  | Get k => Get (fun w => try_catch (k w) handler)
  | Put w k => Put w (try_catch k handler)
  | Await c k => Await c (fun o => try_catch (k o) handler)
  | Join j k => Join j (fun o => try_catch (k o) handler)
  end.

(** [try { p } finally { fin }]: [fin] runs on return and on throw, and
    the completion of [p] is kept unless [fin] throws itself. *)
Fixpoint try_finally {J} (p : Prog J) (fin : Prog J) : Prog J :=
  match p with
  | Ret => fin
  | Throw e => seq fin (Throw e)
  | Get k => Get (fun w => try_finally (k w) fin)
  | Put w k => Put w (try_finally k fin)
  | Await c k => Await c (fun o => try_finally (k o) fin)
  | Join j k => Join j (fun o => try_finally (k o) fin)
  end.

(** A suspended call: settled, waiting for a collaborator, or waiting
    for [Promise.all] of the children [js]. *)
Inductive Susp (J JS : Type) : Type :=
| Done (o : Outcome unit)
| Blocked {X : Type} (c : Call X) (k : Outcome X -> Prog J)
| Joined (js : JS) (k : Outcome unit -> Prog J).
Arguments Done {J JS} o.
Arguments Blocked {J JS X} c k.
Arguments Joined {J JS} js k.

Section Advance.
Context {J JS : Type}.
(** [spawn] starts the calls of a [Promise.all]; [settled] tells whether
    the combined promise has settled. *)
Variable spawn : J -> World -> World * JS.
Variable settled : JS -> option (Outcome unit).

(** Run the synchronous code up to the next suspension point.  An
    [await] leaves the request in the trace. *)
Fixpoint advance (p : Prog J) (w : World) : World * Susp J JS :=
  match p with
  | Ret => (w, Done (Fulfilled tt))
  | Throw e => (w, Done (Rejected e))
  | Get k => advance (k w) w
  | Put w' k => advance k w'
  | Await c k => (emit (ERequest c) w, Blocked c k)
  | Join j k =>
      let '(w', js) := spawn j w in
      match settled js with
      | Some o => advance (k o) w'
      | None => (w', Joined js k)
      end
  end.
End Advance.

(** A task has no [Promise.all] inside. *)
Definition Task := Prog Empty_set.
Definition TaskState := Susp Empty_set Empty_set.

Definition advance_task : Task -> World -> World * TaskState :=
  advance (fun j : Empty_set => match j return World -> World * Empty_set with end)
    (fun js : Empty_set => match js return option (Outcome unit) with end).

(** An [async] function that may wait for a batch of tasks. *)
Definition Async := Prog (list Task).
Definition AsyncState := Susp (list Task) (list TaskState).

(** [ts.map(call)]: each call runs up to its first [await], in order. *)
Fixpoint spawn_all (ts : list Task) (w : World) : World * list TaskState :=
  match ts with
  | [] => (w, [])
  | t :: r =>
      let '(w1, s) := advance_task t w in
      let '(w2, ss) := spawn_all r w1 in
      (w2, s :: ss)
  end.

Fixpoint first_rejected (cs : list TaskState) : option JsError :=
  match cs with
  | [] => None
  | Done (Rejected e) :: _ => Some e
  | _ :: r => first_rejected r
  end.

Definition is_fulfilled (s : TaskState) : bool :=
  match s with Done (Fulfilled _) => true | _ => false end.

Definition is_settled (s : TaskState) : bool :=
  match s with Done _ => true | _ => false end.

(** [Promise.all]: rejected as soon as one child is, fulfilled once all
    are, pending otherwise. *)
Definition join_result (cs : list TaskState) : option (Outcome unit) :=
  match first_rejected cs with
  | Some e => Some (Rejected e)
  | None => if forallb is_fulfilled cs then Some (Fulfilled tt) else None
  end.

Definition advance_async : Async -> World -> World * AsyncState :=
  advance spawn_all join_result.

(** The collaborators: the answer to a request, and what the
    collaborator did to the world meanwhile. *)
Definition Handler := forall X : Type, Call X -> World -> World * Outcome X.

(** Resume a suspended task with the collaborator's answer. *)
Definition resume_task (env : Handler) (s : TaskState) (w : World) : World * TaskState :=
  match s with
  | Done o => (w, Done o)
  | Blocked c k => let '(w1, o) := env _ c w in advance_task (k o) w1
  | Joined js _ => match js return World * TaskState with end
  end.

(** One scheduling step of a batch: the pending request of child [i] is
    answered. *)
Definition resume_child (env : Handler) (i : nat) (cs : list TaskState) (w : World)
    : World * list TaskState :=
  match cs !! i with
  | Some t => let '(w1, t') := resume_task env t w in (w1, <[i := t']> cs)
  | None => (w, cs)
  end.

(** One scheduling step of a suspended call: its own pending request is
    answered, or the pending request of child [i] of its batch is; when
    that settles the batch the call goes on.  (After a rejection of the
    batch the remaining children are not followed any further.) *)
Definition resume (env : Handler) (i : nat) (s : AsyncState) (w : World)
    : World * AsyncState :=
  match s with
  | Done o => (w, Done o)
  | Blocked c k => let '(w1, o) := env _ c w in advance_async (k o) w1
  | Joined cs k =>
      let '(w1, cs') := resume_child env i cs w in
      match join_result cs' with
      | Some o => advance_async (k o) w1
      | None => (w1, Joined cs' k)
      end
  end.

(** The children of a batch alone, under a schedule. *)
Fixpoint run_children (env : Handler) (sched : list nat) (cs : list TaskState)
    (w : World) : World * list TaskState :=
  match sched with
  | [] => (w, cs)
  | i :: r => let '(w1, cs1) := resume_child env i cs w in run_children env r cs1 w1
  end.

(** Follow a schedule (the child to resume at each step). *)
Fixpoint run_sched (env : Handler) (sched : list nat) (s : AsyncState) (w : World)
    : World * AsyncState :=
  match sched with
  | [] => (w, s)
  | i :: r => let '(w1, s1) := resume env i s w in run_sched env r s1 w1
  end.

(** Run a task to completion. *)
Fixpoint run_task (env : Handler) (p : Task) (w : World) : World * Outcome unit :=
  match p with
  | Ret => (w, Fulfilled tt)
  | Throw e => (w, Rejected e)
  | Get k => run_task env (k w) w
  | Put w' k => run_task env k w'
  | Await c k =>
      let '(w1, o) := env _ c (emit (ERequest c) w) in run_task env (k o) w1
  | Join j _ => match j return World * Outcome unit with end
  end.

(** ** The asynchronous actions of the slice *)

(** [set(update, false, n(label))] *)
Definition store_set (update : World -> World) (label : string) (w : World) : World :=
  emit (EAction label) (update w).

(** The [TypeError] of reading a property of [undefined]. *)
Definition typeError : JsError :=
  mkJsError true "TypeError" "Cannot read properties of undefined".

Definition authorTag : string := "author_name_do_not_include_in_your_response".

Section Slice.
(** Imported from modules that are not part of the sources: the key of
    a (session, topic) scope in [messagesMap], the two prompt helpers,
    the loading sentinel and the error kind of a failed message. *)
Variable messageMapKey : string -> option string -> string.
Variable filterMessagesForAgent : list ChatMessage -> string -> list ChatMessage.
Variable buildGroupChatSystemPrompt :
  list GroupMemberInfo -> string -> string -> list ChatMessage -> string.
Variable LOADING_FLAT : string.
Variable CreateMessageError : string.

(** [agentData.provider || undefined] *)
Definition or_undefined (o : option string) : option string :=
  if truthy_ostr o then o else None.

(** Add author names to messages for better context. *)
Definition withAuthor (agentTitleMap : list GroupMemberInfo) (realUserName : string)
    (msg : ChatMessage) : ChatMessage :=
  let authorInfo :=
    List.find (fun member =>
      if bool_decide (msgRole msg = RoleUser) then String.eqb (memberId member) "user"
      else bool_decide (Some (memberId member) = msgAgentId msg)) agentTitleMap in
  let fallback := if bool_decide (msgRole msg = RoleUser) then realUserName else "Unknown" in
  let authorName :=
    match authorInfo with
    | Some info => if truthy_str (memberTitle info) then memberTitle info else fallback
    | None => fallback
    end in
  mkChatMessage (msgId msg) (msgRole msg)
    ("<" +:+ authorTag +:+ ">" +:+ authorName +:+ "</" +:+ authorTag +:+ ">"
       +:+ msgContent msg)
    (msgAgentId msg) (msgGroupId msg) (msgTargetId msg) (msgTools msg).

(** [agents?.find((agent) => agent.id === agentId)] on the roster of the
    session store. *)
Definition findAgent (agentId : string) (w : World) : option Agent :=
  match currentGroupAgents (ext w) with
  | Some l => List.find (fun agent => bool_decide (agent_id agent = Some agentId)) l
  | None => None
  end.

(** The placeholder looked for when a task fails. *)
Definition isLoadingPlaceholder (groupId : string) (m : ChatMessage) : bool :=
  bool_decide (msgRole m = RoleAssistant)
  && bool_decide (msgGroupId m = Some groupId)
  && String.eqb (msgContent m) LOADING_FLAT.

Definition errorText (error : JsError) : string :=
  if isError error then errMessage error else "Unknown error".

(** The [catch] block of [internal_processAgentMessage]. *)
Definition processAgentMessage_catch (groupId agentId : string) (error : JsError)
    : Task :=
  modify (console_error ("Failed to process message for agent " +:+ agentId +:+ ":")
            (Some error))
    (Get (fun w =>
       (* Update error state if we have an assistant message *)
       let currentMessages := default [] (messagesMap (store w) !! groupId) in
       let errorMessage := List.find (isLoadingPlaceholder groupId) currentMessages in
       match errorMessage with
       | Some m =>
           modify (emit (EDispatchUpdateMessage (msgId m)
                           ("Error: Failed to generate response. " +:+ errorText error)
                           CreateMessageError (errorText error))) Ret
       | None => Ret
       end)).

(** For group member responding. *)
Definition internal_processAgentMessage (groupId agentId : string)
    (targetId : option string) : Task :=
  Get (fun w0 =>
    let messagesMap0 := messagesMap (store w0) in
    let activeTopic := activeTopicId (store w0) in
    try_finally
      (try_catch
         (let allMessages := default [] (messagesMap0 !! messageMapKey groupId activeTopic) in
          if Nat.eqb (List.length allMessages) 0 then Ret
          else
            (* Filter messages for this specific agent based on DM targeting rules *)
            let messages := filterMessagesForAgent allMessages agentId in
            Get (fun w1 =>
              (* Get group agents and find the specific agent *)
              let agents := currentGroupAgents (ext w1) in
              let agentData := findAgent agentId w1 in
              match agentData with
              | None =>
                  modify (console_error
                            ("Agent " +:+ agentId +:+ " not found in group members") None) Ret
              | Some agentData =>
                  let agentProvider := or_undefined (agent_provider agentData) in
                  let agentModel := or_undefined (agent_model agentData) in
                  modify (console_log "DEBUG: Group chat agent data:")
                    (if negb (truthy_ostr agentProvider) || negb (truthy_ostr agentModel)
                     then
                       modify (console_error
                                 ("No provider or model configured for agent " +:+ agentId)
                                 None) Ret
                     else
                       Get (fun w2 =>
                         (* Get real user name from user store *)
                         let realUserName := or_str (nickName (ext w2)) "User" in
                         let agentTitleMap :=
                           mkGroupMemberInfo "user" realUserName
                           :: map (fun agent =>
                                     mkGroupMemberInfo (or_str (agent_id agent) "")
                                       (or_str (agent_title agent) ""))
                                (default [] agents) in
                         let baseSystemRole := or_str (agent_systemRole agentData) "" in
                         let groupChatSystemPrompt :=
                           buildGroupChatSystemPrompt agentTitleMap baseSystemRole
                             agentId messages in
                         (* Create agent message using real agent config *)
                         let agentMessage :=
                           mkCreateMessageParams RoleAssistant LOADING_FLAT None
                             agentModel agentProvider (Some agentId) groupId
                             (sessionActiveId (ext w2)) activeTopic targetId in
                         await (CreateMessage agentMessage) (fun assistantId =>
                           let systemMessage :=
                             mkChatMessage "group-system" RoleSystem groupChatSystemPrompt
                               None None None None in
                           let userMessage :=
                             mkChatMessage "group-user" RoleUser
                               ("Now it's your turn to respond. Based on supervisor decision, your message will be sent to "
                                  +:+ (if truthy_ostr targetId then or_str targetId ""
                                       else "the group publicly")
                                  +:+ ". Please respond as this agent would, considering the full conversation history provided above. Directly return the message content, no other text. You do not need add author name or anything else.")
                               None None None None in
                           let messagesWithAuthors :=
                             map (withAuthor agentTitleMap realUserName) messages in
                           let messagesForAPI :=
                             [systemMessage] ++ messagesWithAuthors ++ [userMessage] in
                           let normalCompletion : Task :=
                             await RefreshMessages (fun _ => Ret) in
                           if truthy_ostr assistantId then
                             let assistantId := or_str assistantId "" in
                             await (FetchAIChatMessage
                                      (mkFetchParams messagesForAPI assistantId
                                         (or_str agentModel "") (or_str agentProvider "")
                                         ("group-" +:+ groupId +:+ "-agent-" +:+ agentId)
                                         agentData))
                               (fun isFunctionCall =>
                                  (* Handle tool calling in group chat like single chat *)
                                  if isFunctionCall : bool then
                                    modify (emit (EToggleMessageInToolsCalling true assistantId))
                                      (await RefreshMessages (fun _ =>
                                       await (TriggerToolCalls assistantId) (fun _ =>
                                       (* After tool calls complete, trigger supervisor
                                          decision to continue conversation *)
                                       modify
                                         (internal_triggerSupervisorDecisionDebounced groupId)
                                         Ret)))
                                  else normalCompletion)
                           else normalCompletion)))
              end))
         (processAgentMessage_catch groupId agentId))
      (modify (emit (EToggleChatLoading false "processAgentMessage(end)")) Ret)).

Definition internal_executeAgentResponses (groupId : string) (decisions : list SupervisorDecision)
    : Async :=
  let responsePromises :=
    map (fun decision =>
           internal_processAgentMessage groupId (decisionId decision)
             (decisionTarget decision)) decisions in
  try_catch
    (Join responsePromises (fun o =>
       match o with
       | Fulfilled _ =>
           (* Only trigger next supervisor decision after ALL agents have
              completed their responses *)
           if Nat.ltb 0 (List.length decisions) then
             modify (internal_triggerSupervisorDecisionDebounced groupId) Ret
           else Ret
       | Rejected e => Throw e
       end))
    (fun error =>
       modify (console_error "Failed to execute agent responses:" (Some error)) Ret).

(** The [catch] block of [internal_triggerSupervisorDecision]. *)
Definition supervisorDecision_catch (groupId : string) (error : JsError) : Async :=
  if isError error && String.eqb (errName error) "AbortError" then
    modify (console_log ("Supervisor decision was aborted for group: " +:+ groupId)) Ret
  else modify (console_error "Supervisor decision failed:" (Some error)) Ret.

(** The [finally] block of [internal_triggerSupervisorDecision]. *)
Definition supervisorDecision_finally (groupId : string) (w : World) : World :=
  (* Clean up AbortController from state *)
  store_set (set_controllers (delete groupId))
    ("cleanupSupervisorAbortController/" +:+ groupId)
    (internal_toggleSupervisorLoading false (Some groupId) w).

Definition internal_triggerSupervisorDecision (groupId : string) : Async :=
  Get (fun w0 =>
    let messages :=
      default [] (messagesMap (store w0) !! messageMapKey groupId (activeTopicId (store w0))) in
    let agents := currentGroupAgents (ext w0) in
    if Nat.eqb (List.length messages) 0 then Ret
    else if shouldAvoidSupervisorDecision messages then
      (* Skip supervisor decision if we're in the middle of tool calling sequence *)
      modify (console_log
                "Skipping supervisor decision - waiting for tool calling sequence to complete")
        Ret
    else
      Get (fun w =>
        (* Create AbortController for this supervisor decision *)
        let '(abortController, w) := newAbortController w in
        (* Store the AbortController in state *)
        Put (store_set (set_controllers (insert groupId abortController))
               ("setSupervisorAbortController/" +:+ groupId) w)
          (modify (internal_toggleSupervisorLoading true (Some groupId))
             (Get (fun w1 =>
                let groupConfig := currentGroupConfig (ext w1) in
                (* Get real user name from user store *)
                let realUserName := or_str (nickName (ext w1)) "User" in
                try_finally
                  (try_catch
                     (match groupConfig with
                      | None => Throw typeError
                      | Some cfg =>
                          let context :=
                            mkSupervisorContext agents groupId messages
                              (or_str (orchestratorModel cfg) "gemini-2.5-flash")
                              (or_str (orchestratorProvider cfg) "google")
                              realUserName (systemPrompt cfg) abortController in
                          await (MakeDecision context) (fun decisions =>
                            modify (console_log "Supervisor decisions:")
                              (if Nat.ltb 0 (List.length decisions) then
                                 internal_executeAgentResponses groupId decisions
                               else Ret))
                      end)
                     (supervisorDecision_catch groupId))
                  (modify (supervisorDecision_finally groupId) Ret)))))).

(** The callback armed by [internal_triggerSupervisorDecisionDebounced]. *)
Definition timerCallback (groupId : string) : Async :=
  modify (console_log ("Debounced supervisor decision triggered for group " +:+ groupId))
    (* Clean up the timer from state before executing *)
    (modify (store_set (set_timers (delete groupId)) ("cleanupSupervisorTimer/" +:+ groupId))
       (try_catch (internal_triggerSupervisorDecision groupId)
          (fun error =>
             modify (console_error
                       ("Failed to execute supervisor decision for group " +:+ groupId +:+ ":")
                       (Some error)) Ret))).

Definition sendGroupMessage {J : Type} (params : SendGroupMessageParams) : Prog J :=
  let groupId := sgGroupId params in
  let message := sgMessage params in
  let files := sgFiles params in
  Get (fun w0 =>
    let activeTopic := activeTopicId (store w0) in
    if negb (truthy_str (trim message))
       && match files with
          | None => true
          | Some fs => Nat.eqb (List.length fs) 0
          end
    then Ret
    else
      modify (internal_setActiveGroup groupId)
        (modify (store_set (set_isCreatingMessage true) "creatingGroupMessage/start")
           (try_finally
              (try_catch
                 (Get (fun w1 =>
                    let userMessage :=
                      mkCreateMessageParams RoleUser message
                        (option_map (map fileId) files) None None None groupId
                        (sessionActiveId (ext w1)) activeTopic (sgTargetMemberId params) in
                    await (CreateMessage userMessage) (fun messageId =>
                      (* if only add user message, then stop *)
                      if bool_decide (sgOnlyAddUserMessage params = Some true) then
                        modify (store_set (set_isCreatingMessage false)
                                  "creatingGroupMessage/onlyUser") Ret
                      else if truthy_ostr messageId then
                        modify (internal_triggerSupervisorDecisionDebounced groupId) Ret
                      else Ret)))
                 (fun error =>
                    modify (console_error "Failed to send group message:" (Some error)) Ret))
              (modify (store_set (set_isCreatingMessage false) "creatingGroupMessage/end")
                 Ret)))).

End Slice.

(** ** Observations used in the statements *)

Arguments internal_cancelSupervisorDecision : simpl never.
Arguments internal_triggerSupervisorDecisionDebounced : simpl never.
Arguments internal_cancelAllSupervisorDecisions : simpl never.
Arguments internal_toggleSupervisorLoading : simpl never.

(** [groupConfig?.responseSpeed] *)
Definition configuredSpeed (w : World) : option string :=
  match currentGroupConfig (ext w) with Some c => responseSpeed c | None => None end.

(** The pending debounce callbacks of a group. *)
Definition pendingTimers (groupId : string) (w : World) : list (nat * (string * Z)) :=
  filter (fun p => fst (snd p) = groupId) (timeouts (rt w)).

(** The in-flight cancellation tokens of a group: the registered
    controller, unless its signal is aborted. *)
Definition liveTokens (groupId : string) (w : World) : list nat :=
  match supervisorDecisionAbortControllers (store w) !! groupId with
  | Some c => if bool_decide (c ∈ abortedSignals (rt w)) then [] else [c]
  | None => []
  end.

(** A group is tracked by the registry when it has a timer or a token. *)
Definition tracked (groupId : string) (w : World) : Prop :=
  is_Some (supervisorDebounceTimers (store w) !! groupId)
  \/ is_Some (supervisorDecisionAbortControllers (store w) !! groupId).

(** The message history of a group in the active topic. *)
Definition history (messageMapKey : string -> option string -> string)
    (groupId : string) (w : World) : list ChatMessage :=
  default [] (messagesMap (store w) !! messageMapKey groupId (activeTopicId (store w))).

(** The registry invariant: every pending debounce callback is the one
    registered for its group under a truthy handle that the runtime has
    already handed out, a group has at most one of them, and handles
    start from 1. *)
Definition registry_ok (w : World) : Prop :=
  (forall g, List.length (pendingTimers g w) <= 1)
  /\ (forall t g d, (t, (g, d)) ∈ timeouts (rt w) ->
        supervisorDebounceTimers (store w) !! g = Some t /\ t <> 0
        /\ t < nextTimer (rt w))
  /\ 0 < nextTimer (rt w).

(** [clearAll]-free runtime step: the runtime drops a handle when its
    callback runs. *)
Definition fireTimeout (t : nat) (w : World) : World :=
  set_timeouts (filter (fun p => fst p <> t)) w.

(** ** A program logic for resumptions

    [wp I okJ Q w p]: started in world [w], the call [p] keeps [I] at
    every suspension point and settles in a world and with an outcome
    that satisfy [Q], provided [I] holds whenever it is resumed.  [okJ]
    is what is asked of the batch of a [Promise.all]. *)
Section Wp.
Context {J : Type}.
Variable I : World -> Prop.
Variable okJ : J -> Prop.

Inductive wp (Q : World -> Outcome unit -> Prop) : World -> Prog J -> Prop :=
| wp_Ret w : Q w (Fulfilled tt) -> wp Q w Ret
| wp_Throw w e : Q w (Rejected e) -> wp Q w (Throw e)
| wp_Get w k : wp Q w (k w) -> wp Q w (Get k)
| wp_Put w w' k : wp Q w' k -> wp Q w (Put w' k)
| wp_Await w X (c : Call X) k :
    I (emit (ERequest c) w) ->
    (forall o w', I w' -> wp Q w' (k o)) ->
    wp Q w (Await c k)
| wp_Join w j k :
    I w -> okJ j ->
    (forall o w', I w' -> wp Q w' (k o)) ->
    wp Q w (Join j k).
End Wp.

(** The settled outcome is a fulfilment. *)
Definition fulfilled (o : Outcome unit) : Prop := o = Fulfilled tt.

(** A task of a batch keeps [I] throughout and settles with an outcome
    in [R]. *)
Definition task_wp (I : World -> Prop) (R : Outcome unit -> Prop) (w : World) (t : Task)
    : Prop :=
  wp I (fun _ : Empty_set => True) (fun w o => I w /\ R o) w t.

Definition okTasks (I : World -> Prop) (R : Outcome unit -> Prop) (ts : list Task) : Prop :=
  Forall (fun t => forall w, I w -> task_wp I R w t) ts.

Definition async_wp (I : World -> Prop) (R : Outcome unit -> Prop)
    (Q : World -> Outcome unit -> Prop) (w : World) (p : Async) : Prop :=
  wp I (okTasks I R) Q w p.

Definition task_state_ok (I : World -> Prop) (R : Outcome unit -> Prop) (s : TaskState)
    : Prop :=
  match s with
  | Done o => R o
  | Blocked c k => forall o w', I w' -> task_wp I R w' (k o)
  | Joined _ _ => False
  end.

Definition async_state_ok (I : World -> Prop) (R : Outcome unit -> Prop)
    (Q : World -> Outcome unit -> Prop) (s : AsyncState) : Prop :=
  match s with
  | Done _ => True
  | Blocked c k => forall o w', I w' -> async_wp I R Q w' (k o)
  | Joined cs k =>
      Forall (task_state_ok I R) cs /\ forall o w', I w' -> async_wp I R Q w' (k o)
  end.

(** What holds of the world next to a suspended or settled call. *)
Definition post (I : World -> Prop) (Q : World -> Outcome unit -> Prop)
    (w : World) (s : AsyncState) : Prop :=
  match s with
  | Done o => Q w o
  | _ => I w
  end.

(** The collaborators keep [I]. *)
Definition env_keeps (I : World -> Prop) (env : Handler) : Prop :=
  forall X (c : Call X) w, I w -> I (fst (env X c w)).

(** ** The slice as a system

    A configuration is the world and the calls in flight.  A step is a
    call of one of the actions from outside, the firing of a pending
    debounce callback, the answer of a collaborator to a pending request,
    or a change made elsewhere that leaves the timer registry alone. *)
Record Config := mkConfig {
  world : World;
  threads : list AsyncState }.

(** Nothing of the timer registry differs between the two worlds. *)
Definition same_registry (w w' : World) : Prop :=
  supervisorDebounceTimers (store w') = supervisorDebounceTimers (store w)
  /\ timeouts (rt w') = timeouts (rt w)
  /\ nextTimer (rt w') = nextTimer (rt w).

Definition keeps_registry (env : Handler) : Prop :=
  forall X (c : Call X) w, same_registry w (fst (env X c w)).

Definition initial (c : Config) : Prop :=
  threads c = [] /\ timeouts (rt (world c)) = [] /\ 0 < nextTimer (rt (world c)).

Definition spawn_thread (p : Async) (c : Config) : Config :=
  let r := advance_async p (world c) in
  mkConfig (fst r) (threads c ++ [snd r]).

Section System.
Variable messageMapKey : string -> option string -> string.
Variable filterMessagesForAgent : list ChatMessage -> string -> list ChatMessage.
Variable buildGroupChatSystemPrompt :
  list GroupMemberInfo -> string -> string -> list ChatMessage -> string.
Variable LOADING_FLAT : string.
Variable CreateMessageError : string.

Inductive step : Config -> Config -> Prop :=
| step_send params c :
    step c (spawn_thread (sendGroupMessage params) c)
| step_trigger g c :
    step c (mkConfig (internal_triggerSupervisorDecisionDebounced g (world c)) (threads c))
| step_cancel g c :
    step c (mkConfig (internal_cancelSupervisorDecision g (world c)) (threads c))
| step_cancelAll c :
    step c (mkConfig (internal_cancelAllSupervisorDecisions (world c)) (threads c))
| step_decide g c :
    step c (spawn_thread
              (internal_triggerSupervisorDecision messageMapKey filterMessagesForAgent
                 buildGroupChatSystemPrompt LOADING_FLAT CreateMessageError g) c)
| step_execute g ds c :
    step c (spawn_thread
              (internal_executeAgentResponses messageMapKey filterMessagesForAgent
                 buildGroupChatSystemPrompt LOADING_FLAT CreateMessageError g ds) c)
| step_fire t g d c :
    (t, (g, d)) ∈ timeouts (rt (world c)) ->
    step c (spawn_thread
              (timerCallback messageMapKey filterMessagesForAgent
                 buildGroupChatSystemPrompt LOADING_FLAT CreateMessageError g)
              (mkConfig (fireTimeout t (world c)) (threads c)))
| step_resume env i j s c :
    keeps_registry env ->
    threads c !! i = Some s ->
    step c (mkConfig (fst (resume env j s (world c)))
              (<[i := snd (resume env j s (world c))]> (threads c)))
| step_elsewhere w' c :
    same_registry (world c) w' ->
    step c (mkConfig w' (threads c)).

Inductive reachable : Config -> Prop :=
| reachable_init c : initial c -> reachable c
| reachable_step c c' : reachable c -> step c c' -> reachable c'.
End System.

(** ** Views used in the statements *)

(** The registry invariant over a configuration: it holds of the world
    and every call in flight keeps it. *)
Definition config_ok (c : Config) : Prop :=
  registry_ok (world c)
  /\ Forall (async_state_ok registry_ok (fun _ => True) (fun w _ => registry_ok w)) (threads c).

(** The request by which [sendGroupMessage] creates the user message. *)
Definition userMessageOf (params : SendGroupMessageParams) (w : World)
    : CreateMessageParams :=
  mkCreateMessageParams RoleUser (sgMessage params)
    (option_map (map fileId) (sgFiles params)) None None None (sgGroupId params)
    (sessionActiveId (ext w)) (activeTopicId (store w)) (sgTargetMemberId params).

(** The loading flag of the group is cleared and its token is gone. *)
Definition cleanedUp (g : string) (w : World) : Prop :=
  loadingFlag g w = false
  /\ supervisorDecisionAbortControllers (store w) !! g = None.

(** What the executor does once the batch is fulfilled. *)
Definition rearm (g : string) (ds : list SupervisorDecision) (w : World) : World :=
  if Nat.ltb 0 (List.length ds) then internal_triggerSupervisorDecisionDebounced g w
  else w.

Section Tasks.
Variable messageMapKey : string -> option string -> string.
Variable filterMessagesForAgent : list ChatMessage -> string -> list ChatMessage.
Variable buildGroupChatSystemPrompt :
  list GroupMemberInfo -> string -> string -> list ChatMessage -> string.
Variable LOADING_FLAT : string.
Variable CreateMessageError : string.

(** One task per decision. *)
Definition responseTasks (g : string) (ds : list SupervisorDecision) : list Task :=
  map (fun decision =>
         internal_processAgentMessage messageMapKey filterMessagesForAgent
           buildGroupChatSystemPrompt LOADING_FLAT CreateMessageError
           g (decisionId decision) (decisionTarget decision)) ds.
End Tasks.

(** ** Sample inputs *)

(** Modelled from the spec: [messageMapKey] is not part of the sources;
    the message history is addressable by (group id, topic id), here by
    the two ids joined with an underscore. *)
Definition scopedKey (groupId : string) (topicId : option string) : string :=
  groupId +:+ "_" +:+ default "null" topicId.

Definition sampleExternal : External :=
  mkExternal "session-1"
    (Some [mkAgent (Some "A") (Some "Alice") (Some "openai") (Some "gpt-4o") None;
           mkAgent (Some "B") (Some "Bob") (Some "openai") (Some "gpt-4o") None])
    (Some (mkGroupConfig None None None (Some "fast")))
    None.

Definition userMessage1 : ChatMessage :=
  mkChatMessage "m1" RoleUser "hello" None (Some "g") None None.

(** A fresh session: one user message in group [g], nothing scheduled. *)
Definition idleWorld : World :=
  mkWorld
    (mkChatStoreState ∅ ∅ [] false {[ scopedKey "g" None := [userMessage1] ]} None)
    sampleExternal
    (mkRuntime [] 1 ∅ 1 []).

(** Group [g] has a pending timer, a token in flight and its loading
    flag set. *)
Definition busyWorld : World :=
  mkWorld
    (mkChatStoreState {[ "g" := 1 ]} {[ "g" := 1 ]} ["g"] false
       {[ scopedKey "g" None := [userMessage1] ]} None)
    sampleExternal
    (mkRuntime [(1, ("g", 3000%Z))] 2 ∅ 2 []).

(** The sentinel content of a placeholder message. *)
Definition loadingSentinel : string := "...".

Definition placeholderOf (agent messageId : string) : ChatMessage :=
  mkChatMessage messageId RoleAssistant loadingSentinel (Some agent) (Some "g") None None.

Definition networkDown : JsError := mkJsError true "Error" "network down".

(** Sample collaborators: the message store creates the message under
    the key [key] computes for its scope and names it after its agent;
    the completion call settles as [completion]; the supervisor answers
    [decisions]. *)
Definition sampleCollaborators (key : string -> option string -> string)
    (completion : Outcome bool) (decisions : list SupervisorDecision) : Handler :=
  fun X c w =>
    match c in Call X return World * Outcome X with
    | CreateMessage p =>
        let messageId := "p-" +:+ default "user" (cmAgentId p) in
        let m := mkChatMessage messageId (cmRole p) (cmContent p) (cmAgentId p)
                   (Some (cmGroupId p)) (cmTargetId p) None in
        let k := key (cmGroupId p) (cmTopicId p) in
        let s := store w in
        (mkWorld
           (mkChatStoreState (supervisorDebounceTimers s)
              (supervisorDecisionAbortControllers s) (supervisorDecisionLoading s)
              (isCreatingMessage s)
              (<[k := default [] (messagesMap s !! k) ++ [m]]> (messagesMap s))
              (activeTopicId s))
           (ext w) (rt w),
         Fulfilled (Some messageId))
    | FetchAIChatMessage _ => (w, completion)
    | RefreshMessages => (w, Fulfilled tt)
    | TriggerToolCalls _ => (w, Fulfilled tt)
    | MakeDecision _ => (w, Fulfilled decisions)
    end.

(** The completion call fails. *)
Definition failingCompletion (key : string -> option string -> string) : Handler :=
  sampleCollaborators key (Rejected networkDown) [].

(** The [updateMessage] dispatches of a trace: message id and new content. *)
Definition dispatchedUpdates (w : World) : list (string * string) :=
  omap (fun e => match e with
                 | EDispatchUpdateMessage i c _ _ => Some (i, c)
                 | _ => None
                 end) (trace (rt w)).

(** A session whose history is kept under the group id alone, with the
    placeholder of agent [A] still loading. *)
Definition bareKeyWorld : World :=
  mkWorld
    (mkChatStoreState ∅ ∅ [] false {[ "g" := [userMessage1; placeholderOf "A" "p-A"] ]} None)
    sampleExternal
    (mkRuntime [] 1 ∅ 1 []).

(** A task that suspends at most [n] times. *)
Inductive bounded : nat -> Task -> Prop :=
| bounded_Ret n : bounded n Ret
| bounded_Throw n e : bounded n (Throw e)
| bounded_Get n k : (forall w, bounded n (k w)) -> bounded n (Get k)
| bounded_Put n w k : bounded n k -> bounded n (Put w k)
| bounded_Await n X (c : Call X) k :
    (forall o, bounded n (k o)) -> bounded (S n) (Await c k).

Definition state_bounded (n : nat) (s : TaskState) : Prop :=
  match s with
  | Done _ => True
  | Blocked c k => exists m, n = S m /\ forall o, bounded m (k o)
  | Joined _ _ => False
  end.

(** A batch next to the call that waits for it: settled batches let the
    call go on. *)
Definition batch_view (k : Outcome unit -> Async) (cs : list TaskState) (w : World)
    : World * AsyncState :=
  match join_result cs with
  | Some o => advance_async (k o) w
  | None => (w, Joined cs k)
  end.

(** The last message of group [g] is an assistant message that calls a
    tool. *)
Definition midToolCallWorld : World :=
  mkWorld
    (mkChatStoreState ∅ ∅ [] false
       {[ scopedKey "g" None :=
            [userMessage1;
             mkChatMessage "m2" RoleAssistant "" (Some "A") (Some "g") None
               (Some [mkToolCall "search"])] ]} None)
    sampleExternal
    (mkRuntime [] 1 ∅ 1 []).

(** ** Decision calls in flight

    The invariants of the cancellation tokens.  [no_token_while_pending]:
    a group with a pending debounce callback has no registered token.
    [guar ex w0 w]: from [w0] to [w] the world invariant is kept, aborted
    signals stay aborted and a token registered for a group other than
    [ex] is still registered or has been aborted. *)
Definition no_token_while_pending (w : World) : Prop :=
  forall g, pendingTimers g w <> [] ->
            supervisorDecisionAbortControllers (store w) !! g = None.

Definition world_ok (w : World) : Prop :=
  registry_ok w /\ no_token_while_pending w.

Definition tokens_kept (ex : option string) (w0 w : World) : Prop :=
  abortedSignals (rt w0) ⊆ abortedSignals (rt w)
  /\ forall g c, ex <> Some g ->
       supervisorDecisionAbortControllers (store w0) !! g = Some c ->
       supervisorDecisionAbortControllers (store w) !! g = Some c
       \/ c ∈ abortedSignals (rt w).

Definition guar (ex : option string) (w0 w : World) : Prop :=
  (world_ok w0 -> world_ok w) /\ tokens_kept ex w0 w.

(** Nothing of the timer and token registry differs between the worlds. *)
Definition same_tokens (w w' : World) : Prop :=
  same_registry w w'
  /\ supervisorDecisionAbortControllers (store w')
     = supervisorDecisionAbortControllers (store w)
  /\ abortedSignals (rt w') = abortedSignals (rt w).

Definition keeps_tokens (env : Handler) : Prop :=
  forall X (c : Call X) w, same_tokens w (fst (env X c w)).

(** The request is not the decision call. *)
Definition notDecision {X} (c : Call X) : Prop :=
  match c with MakeDecision _ => False | _ => True end.

(** The call is suspended in the decision function for group [g]. *)
Definition decidingFor (g : string) (s : AsyncState) : Prop :=
  match s with
  | Blocked c _ =>
      match c with MakeDecision ctx => ctxGroupId ctx = g | _ => False end
  | _ => False
  end.

Global Instance decidingFor_dec g s : Decision (decidingFor g s).
Proof.
  destruct s as [o|X c k|cs k]; cbn; try (right; tauto).
  clear k. destruct c; cbn; try (right; tauto). apply _.
Defined.

(** The token of a call suspended in the decision function. *)
Definition decisionToken (s : AsyncState) : option nat :=
  match s with
  | Blocked c _ =>
      match c with MakeDecision ctx => Some (ctxAbortController ctx) | _ => None end
  | _ => None
  end.

(** A segment logic: [seg G w0 w p] says that the synchronous code of [p],
    run from [w] in a segment that started in [w0], reaches its next
    suspension or its end in a world related to [w0] by [G], never
    suspends in the decision call, and that the same holds of every later
    segment.  Tasks settle fulfilled. *)
Section Seg.
Context {J : Type}.
Variable G : World -> World -> Prop.
Variable R : Outcome unit -> Prop.
Variable okJ : J -> Prop.

Inductive seg : World -> World -> Prog J -> Prop :=
| seg_Ret w0 w : G w0 w -> R (Fulfilled tt) -> seg w0 w Ret
| seg_Throw w0 w e : G w0 w -> R (Rejected e) -> seg w0 w (Throw e)
| seg_Get w0 w k : seg w0 w (k w) -> seg w0 w (Get k)
| seg_Put w0 w w' k : seg w0 w' k -> seg w0 w (Put w' k)
| seg_Await w0 w X (c : Call X) k :
  G w0 (emit (ERequest c) w) -> notDecision c ->
  (forall o w1, seg w1 w1 (k o)) ->
  seg w0 w (Await c k)
| seg_Join w0 w j k :
  G w0 w -> okJ j ->
  (forall o w1 w', G w1 w' -> o = Fulfilled tt -> seg w1 w' (k o)) ->
  seg w0 w (Join j k).
End Seg.

Definition seg_task (G : World -> World -> Prop) : World -> World -> Task -> Prop :=
  seg G fulfilled (fun _ : Empty_set => True).

Definition segTasks (G : World -> World -> Prop) (ts : list Task) : Prop :=
  Forall (fun t => forall w0 w, G w0 w -> seg_task G w0 w t) ts.

Definition seg_async (G : World -> World -> Prop) : World -> World -> Async -> Prop :=
  seg G (fun _ => True) (segTasks G).

Definition child_inv (G : World -> World -> Prop) (s : TaskState) : Prop :=
  match s with
  | Done o => fulfilled o
  | Blocked c k => notDecision c /\ forall o w1, seg_task G w1 w1 (k o)
  | Joined _ _ => False
  end.

(** The decision calls in flight for a group: the calls suspended in the
    decision function for it. *)
Definition inFlightDecisions (g : string) (c : Config) : list AsyncState :=
  filter (decidingFor g) (threads c).

(** ** The scheduled system

    The system of the slice with the contract of the decision function
    built in: a debounce callback of a group runs only when no decision
    call of that group whose token has been aborted is still pending (the
    decision function honours its token), decision runs are started by
    debounce callbacks only, and the collaborators and the other slices
    leave the timers and the tokens alone. *)
Section Scheduled.
Variable messageMapKey : string -> option string -> string.
Variable filterMessagesForAgent : list ChatMessage -> string -> list ChatMessage.
Variable buildGroupChatSystemPrompt :
list GroupMemberInfo -> string -> string -> list ChatMessage -> string.
Variable LOADING_FLAT : string.
Variable CreateMessageError : string.

(** No call is suspended in the decision function for [g] with an
  aborted token. *)
Definition no_aborted_decision (g : string) (c : Config) : Prop :=
forall s tok, s ∈ threads c -> decidingFor g s -> decisionToken s = Some tok ->
              tok ∉ abortedSignals (rt (world c)).

Inductive sched_step : Config -> Config -> Prop :=
| sched_send params c :
  sched_step c (spawn_thread (sendGroupMessage params) c)
| sched_trigger g c :
  sched_step c
    (mkConfig (internal_triggerSupervisorDecisionDebounced g (world c)) (threads c))
| sched_cancel g c :
  sched_step c (mkConfig (internal_cancelSupervisorDecision g (world c)) (threads c))
| sched_cancelAll c :
  sched_step c (mkConfig (internal_cancelAllSupervisorDecisions (world c)) (threads c))
| sched_fire t g d c :
  (t, (g, d)) ∈ timeouts (rt (world c)) ->
  no_aborted_decision g c ->
  sched_step c
    (spawn_thread
       (timerCallback messageMapKey filterMessagesForAgent
          buildGroupChatSystemPrompt LOADING_FLAT CreateMessageError g)
       (mkConfig (fireTimeout t (world c)) (threads c)))
| sched_resume env i j s c :
  keeps_tokens env ->
  threads c !! i = Some s ->
  sched_step c (mkConfig (fst (resume env j s (world c)))
                  (<[i := snd (resume env j s (world c))]> (threads c)))
| sched_elsewhere w' c :
  same_tokens (world c) w' ->
  sched_step c (mkConfig w' (threads c)).

Definition sched_initial (c : Config) : Prop :=
initial c /\ supervisorDecisionAbortControllers (store (world c)) = ∅.

Inductive sched_reachable : Config -> Prop :=
| sched_reachable_init c : sched_initial c -> sched_reachable c
| sched_reachable_step c c' : sched_reachable c -> sched_step c c' -> sched_reachable c'.

(** The continuation of the decision run after the decision call, and
  that of the debounce callback around it. *)
Definition decisionOutcome (groupId : string) (o : Outcome (list SupervisorDecision))
  : Async :=
try_finally
  (try_catch
     (match o with
      | Fulfilled decisions =>
          modify (console_log "Supervisor decisions:")
            (if Nat.ltb 0 (List.length decisions) then
               internal_executeAgentResponses messageMapKey filterMessagesForAgent
                 buildGroupChatSystemPrompt LOADING_FLAT CreateMessageError
                 groupId decisions
             else Ret)
      | Rejected e => Throw e
      end)
     (supervisorDecision_catch groupId))
  (modify (supervisorDecision_finally groupId) Ret).

Definition callbackOutcome (groupId : string) (o : Outcome (list SupervisorDecision))
  : Async :=
try_catch (decisionOutcome groupId o)
  (fun error =>
     modify (console_error
               ("Failed to execute supervisor decision for group " +:+ groupId +:+ ":")
               (Some error)) Ret).

(** What is known of a call in flight: a decision call waits with the
  continuation of the debounce callback; any other call keeps [guar]
  in each of its segments and never suspends in the decision call. *)
Inductive thread_inv : AsyncState -> Prop :=
| thread_done o : thread_inv (Done o)
| thread_deciding ctx :
  thread_inv (Blocked (MakeDecision ctx) (callbackOutcome (ctxGroupId ctx)))
| thread_blocked X (c : Call X) k :
  notDecision c ->
  (forall o w1, seg_async (guar None) w1 w1 (k o)) ->
  thread_inv (Blocked c k)
| thread_joined cs k :
  Forall (child_inv (guar None)) cs ->
  (forall o w1 w', guar None w1 w' -> o = Fulfilled tt ->
                   seg_async (guar None) w1 w' (k o)) ->
  thread_inv (Joined cs k).

(** At most one call is suspended in the decision call of a group, and
  the token of such a call is the registered one of its group unless
  it has been aborted. *)
Definition one_decision (c : Config) : Prop :=
forall g i j s s',
  threads c !! i = Some s -> threads c !! j = Some s' ->
  decidingFor g s -> decidingFor g s' -> i = j.

Definition tokens_tracked (c : Config) : Prop :=
forall g i s tok,
  threads c !! i = Some s -> decidingFor g s -> decisionToken s = Some tok ->
  supervisorDecisionAbortControllers (store (world c)) !! g = Some tok
  \/ tok ∈ abortedSignals (rt (world c)).

(** The invariant of the scheduled system. *)
Definition sched_inv (c : Config) : Prop :=
world_ok (world c) /\ Forall thread_inv (threads c)
/\ one_decision c /\ tokens_tracked c.
End Scheduled.

(** The steps of the system on group [g] of the sample session: a
    trigger, the firing of timer [t], and the answer "no decision" to
    the call in flight [i]. *)
Definition sampleCallback : Async :=
  timerCallback scopedKey (fun l _ => l) (fun _ _ _ _ => "prompt") loadingSentinel
    "CreateMessageError" "g".

Definition quietCollaborators : Handler :=
  sampleCollaborators scopedKey (Fulfilled false) [].

Definition triggered (c : Config) : Config :=
  mkConfig (internal_triggerSupervisorDecisionDebounced "g" (world c)) (threads c).

Definition fired (t : nat) (c : Config) : Config :=
  spawn_thread sampleCallback (mkConfig (fireTimeout t (world c)) (threads c)).

Definition answered (i : nat) (s : AsyncState) (c : Config) : Config :=
  mkConfig (resume quietCollaborators 0 s (world c)).1
    (<[i := (resume quietCollaborators 0 s (world c)).2]> (threads c)).

(** Group [g] of the fresh session after a trigger whose callback has
    fired: the decision call is in flight. *)
Definition decidingConfig : Config :=
  fired 1 (triggered (mkConfig idleWorld [])).

(** The call in flight of [decidingConfig]. *)
Definition firstDecision : AsyncState :=
  (advance_async sampleCallback
     (fireTimeout 1 (internal_triggerSupervisorDecisionDebounced "g" idleWorld))).2.

(** The decision call of [decidingConfig] does not heed its token: it is
    superseded by a trigger, is still pending when the next callback
    fires, and answers only then; a third call is then triggered. *)
Definition unheededConfig : Config :=
  fired 3 (triggered (answered 0 firstDecision (fired 2 (triggered decidingConfig)))).

(** A message of white space only: a space, a no-break space (U+00A0),
    an ideographic space (U+3000), a line separator (U+2028) and a tab. *)
Definition blankMessage : string :=
  " " +:+ utf8 [194; 160] +:+ utf8 [227; 128; 128] +:+ utf8 [226; 128; 168]
  +:+ utf8 [9].

(** The fresh session while another send is creating its message. *)
Definition creatingWorld : World := set_isCreatingMessage true idleWorld.

(** Where a call in flight stands: settled, suspended in the decision
    function for a group, suspended in another collaborator, or awaiting
    a batch of [pending] tasks. *)
Inductive Stage :=
| Settled
| InDecision (groupId : string)
| InCall
| InBatch (pending : nat).

Definition stage (s : AsyncState) : Stage :=
  match s with
  | Done _ => Settled
  | Blocked c _ =>
      match c with MakeDecision ctx => InDecision (ctxGroupId ctx) | _ => InCall end
  | Joined children _ => InBatch (List.length children)
  end.

(** The call in flight [i] is answered by the collaborators [env]. *)
Definition answeredBy (env : Handler) (i : nat) (s : AsyncState) (c : Config) : Config :=
  mkConfig (resume env 0 s (world c)).1
    (<[i := (resume env 0 s (world c)).2]> (threads c)).

(** The decision function honours its token: it rejects with an
    [AbortError]. *)
Definition abortError : JsError := mkJsError true "AbortError" "The operation was aborted".

Definition abortingSupervisor : Handler :=
  fun X c w =>
    match c in Call X return World * Outcome X with
    | MakeDecision _ => (w, Rejected abortError)
    | c' => quietCollaborators _ c' w
    end.

(** The decision call of [decidingConfig] is superseded by a trigger and
    rejects with its [AbortError] only after the next callback has fired;
    a third call is then triggered. *)
Definition lateAbortConfig : Config :=
  fired 3 (triggered
             (answeredBy abortingSupervisor 0 firstDecision
                (fired 2 (triggered decidingConfig)))).

(** The supervisor lets agent [A] speak. *)
Definition speakingCollaborators : Handler :=
  sampleCollaborators scopedKey (Fulfilled false) [mkDecision "A" None].

(** The decision run of [decidingConfig] has its decision and awaits its
    agent when the group is triggered again and the callback fires. *)
Definition awaitingAgentsConfig : Config :=
  fired 2 (triggered (answeredBy speakingCollaborators 0 firstDecision decidingConfig)).

(** ** Further views of the task and of the registry *)

(** [agentTitleMap]: the user under the id [user] with the display name
    of the profile (or [User]), then the roster, a missing id or title
    read as the empty string. *)
Definition agentTitleMapOf (nick : option string) (agents : option (list Agent))
    : list GroupMemberInfo :=
  mkGroupMemberInfo "user" (or_str nick "User")
  :: map (fun agent =>
            mkGroupMemberInfo (or_str (agent_id agent) "") (or_str (agent_title agent) ""))
       (default [] agents).

(** The tag put in front of the content of a message of the history. *)
Definition authorPrefix (authorName : string) : string :=
  "<" +:+ authorTag +:+ ">" +:+ authorName +:+ "</" +:+ authorTag +:+ ">".

(** The message that closes the request to the model. *)
Definition turnPrompt (targetId : option string) : ChatMessage :=
  mkChatMessage "group-user" RoleUser
    ("Now it's your turn to respond. Based on supervisor decision, your message will be sent to "
       +:+ (if truthy_ostr targetId then or_str targetId "" else "the group publicly")
       +:+ ". Please respond as this agent would, considering the full conversation history provided above. Directly return the message content, no other text. You do not need add author name or anything else.")
    None None None None.

(** The registry and the runtime agree: besides [registry_ok], every
    registered handle is that of a pending callback of its group, and no
    two pending callbacks share a handle. *)
Definition registry_exact (w : World) : Prop :=
  registry_ok w
  /\ (forall g t, supervisorDebounceTimers (store w) !! g = Some t ->
        exists d, (t, (g, d)) ∈ timeouts (rt w))
  /\ NoDup (map fst (timeouts (rt w))).

(** [registry_exact] over a configuration. *)
Definition config_exact (c : Config) : Prop :=
  registry_exact (world c)
  /\ Forall (async_state_ok registry_exact (fun _ => True) (fun w _ => registry_exact w))
       (threads c).

(** A session that starts: nothing is in flight, nothing is pending and
    both registries are empty. *)
Definition fresh (c : Config) : Prop :=
  initial c
  /\ supervisorDebounceTimers (store (world c)) = ∅
  /\ supervisorDecisionAbortControllers (store (world c)) = ∅.

Section Runs.
Variable messageMapKey : string -> option string -> string.
Variable filterMessagesForAgent : list ChatMessage -> string -> list ChatMessage.
Variable buildGroupChatSystemPrompt :
  list GroupMemberInfo -> string -> string -> list ChatMessage -> string.
Variable LOADING_FLAT : string.
Variable CreateMessageError : string.

(** The configurations reached from [c0] by the steps of the system. *)
Inductive run_from (c0 : Config) : Config -> Prop :=
| run_here : run_from c0 c0
| run_step c c' :
    run_from c0 c ->
    step messageMapKey filterMessagesForAgent buildGroupChatSystemPrompt LOADING_FLAT
      CreateMessageError c c' ->
    run_from c0 c'.
End Runs.

(** The reading of [cancelAll] as the per-group cancel applied to each of
    the given groups in turn, to compare with the bulk reset of the code. *)
Definition cancelEach (groupIds : list string) (w : World) : World :=
  foldr internal_cancelSupervisorDecision w groupIds.

(** * Properties *)

(** ** Frame lemmas of the synchronous actions *)


Lemma cancel_ext g w : ext (internal_cancelSupervisorDecision g w) = ext w.
Proof.
  unfold internal_cancelSupervisorDecision.
  destruct (supervisorDebounceTimers (store w) !! g) as [t|];
    [destruct (truthy_num t)|];
    destruct (supervisorDecisionAbortControllers (store w) !! g); reflexivity.
Qed.

Lemma cancel_nextTimer g w :
  nextTimer (rt (internal_cancelSupervisorDecision g w)) = nextTimer (rt w).
Proof.
  unfold internal_cancelSupervisorDecision.
  destruct (supervisorDebounceTimers (store w) !! g) as [t|];
    [destruct (truthy_num t)|];
    destruct (supervisorDecisionAbortControllers (store w) !! g); reflexivity.
Qed.

Lemma trigger_timeouts g w :
  timeouts (rt (internal_triggerSupervisorDecisionDebounced g w)) =
  timeouts (rt (internal_cancelSupervisorDecision g
                  (console_log ("Supervisor decision debounced triggered for group " +:+ g) w)))
  ++ [(nextTimer (rt w), (g, getDebounceThreshold (configuredSpeed w)))].
Proof.
  unfold internal_triggerSupervisorDecisionDebounced, setTimeout, configuredSpeed.
  cbn. rewrite cancel_ext, cancel_nextTimer. reflexivity.
Qed.

(** C8: the debounce delay is 3000 ms for 'fast', 5000 ms for 'medium',
    8000 ms for 'slow' and 5000 ms for any other or unset value, and this
    is the delay of the timer the scheduler arms. *)
Theorem getDebounceThreshold_table :
  getDebounceThreshold (Some "fast") = 3000%Z
  /\ getDebounceThreshold (Some "medium") = 5000%Z
  /\ getDebounceThreshold (Some "slow") = 8000%Z
  /\ getDebounceThreshold None = 5000%Z
  /\ (forall s : string,
        getDebounceThreshold (Some s) =
        if decide (s = "fast") then 3000%Z
        else if decide (s = "slow") then 8000%Z
        else 5000%Z)
  /\ (forall g w,
        last (timeouts (rt (internal_triggerSupervisorDecisionDebounced g w))) =
        Some (nextTimer (rt w), (g, getDebounceThreshold (configuredSpeed w)))).
Proof.
  repeat split; try reflexivity.
  - intros s. unfold getDebounceThreshold.
    destruct (decide (s = "fast")) as [->|Hf]; [reflexivity|].
    destruct (decide (s = "slow")) as [->|Hs]; [reflexivity|].
    destruct (String.eqb_spec s "fast"); [contradiction|].
    destruct (String.eqb_spec s "medium"); [reflexivity|].
    destruct (String.eqb_spec s "slow"); [contradiction|reflexivity].
  - intros g w. rewrite trigger_timeouts. apply last_snoc.
Qed.

Ltac cancel_cases g w :=
  unfold internal_cancelSupervisorDecision;
  destruct (supervisorDebounceTimers (store w) !! g) as [?t|];
    [destruct (truthy_num _)|];
    destruct (supervisorDecisionAbortControllers (store w) !! g) as [?c|].

Lemma cancel_timeouts g w :
  timeouts (rt (internal_cancelSupervisorDecision g w)) =
  match supervisorDebounceTimers (store w) !! g with
  | Some t => if truthy_num t then filter (fun p => fst p <> t) (timeouts (rt w))
              else timeouts (rt w)
  | None => timeouts (rt w)
  end.
Proof. cancel_cases g w; reflexivity. Qed.

Lemma cancel_timers g w :
  supervisorDebounceTimers (store (internal_cancelSupervisorDecision g w)) =
  match supervisorDebounceTimers (store w) !! g with
  | Some t => if truthy_num t then delete g (supervisorDebounceTimers (store w))
              else supervisorDebounceTimers (store w)
  | None => supervisorDebounceTimers (store w)
  end.
Proof. cancel_cases g w; reflexivity. Qed.

Lemma cancel_controllers g w :
  supervisorDecisionAbortControllers (store (internal_cancelSupervisorDecision g w)) =
  delete g (supervisorDecisionAbortControllers (store w)).
Proof.
  unfold internal_cancelSupervisorDecision.
  destruct (supervisorDebounceTimers (store w) !! g) as [t|];
    [destruct (truthy_num _)|];
    destruct (supervisorDecisionAbortControllers (store w) !! g) as [c|] eqn:Hc;
    cbn; try reflexivity; symmetry; apply delete_id; exact Hc.
Qed.

Lemma cancel_aborted g w :
  abortedSignals (rt (internal_cancelSupervisorDecision g w)) =
  match supervisorDecisionAbortControllers (store w) !! g with
  | Some c => {[c]} ∪ abortedSignals (rt w)
  | None => abortedSignals (rt w)
  end.
Proof. cancel_cases g w; reflexivity. Qed.

Lemma cancel_loading g w :
  supervisorDecisionLoading (store (internal_cancelSupervisorDecision g w)) =
  if truthy_str g then toggleBooleanList (supervisorDecisionLoading (store w)) g false
  else [].
Proof. cancel_cases g w; reflexivity. Qed.

Lemma toggleBooleanList_off ids g : g ∉ toggleBooleanList ids g false.
Proof.
  unfold toggleBooleanList. cbn. rewrite list_elem_of_filter. tauto.
Qed.

Lemma toggle_off_flag g w :
  loadingFlag g (internal_toggleSupervisorLoading false (Some g) w) = false.
Proof.
  unfold loadingFlag, internal_toggleSupervisorLoading. cbn.
  apply bool_decide_eq_false.
  destruct (truthy_str g); [apply toggleBooleanList_off | apply not_elem_of_nil].
Qed.

Lemma cancel_loadingFlag g w :
  loadingFlag g (internal_cancelSupervisorDecision g w) = false.
Proof.
  unfold loadingFlag. rewrite cancel_loading. apply bool_decide_eq_false.
  destruct (truthy_str g); [apply toggleBooleanList_off | apply not_elem_of_nil].
Qed.

Lemma truthy_num_true t : truthy_num t = true <-> t <> 0.
Proof.
  unfold truthy_num. destruct (Nat.eqb_spec t 0); cbn; split; intros; congruence.
Qed.

Lemma pendingTimers_filter g (Q : nat * (string * Z) -> Prop) `{!forall x, Decision (Q x)} w :
  pendingTimers g (set_timeouts (filter Q) w) = filter Q (pendingTimers g w).
Proof.
  unfold pendingTimers. cbn. rewrite !list_filter_filter.
  apply list_filter_iff. intros x. tauto.
Qed.

(** After the per-group cancel nothing is pending for the group. *)
Lemma cancel_pendingTimers g w :
  registry_ok w -> pendingTimers g (internal_cancelSupervisorDecision g w) = [].
Proof.
  intros (_ & Hreg & _). apply elem_of_nil_inv. intros [t [g' d]] Hin.
  unfold pendingTimers in Hin. rewrite cancel_timeouts in Hin.
  apply list_elem_of_filter in Hin as [Hg Hin]. cbn in Hg. subst g'.
  destruct (supervisorDebounceTimers (store w) !! g) as [t0|] eqn:Ht.
  - destruct (truthy_num t0) eqn:Htr.
    + apply list_elem_of_filter in Hin as [Hne Hin]. cbn in Hne.
      destruct (Hreg _ _ _ Hin) as [Heq _]. congruence.
    + destruct (Hreg _ _ _ Hin) as (Heq & Hnz & _). rewrite Ht in Heq.
      injection Heq as ->. apply truthy_num_true in Hnz. congruence.
  - destruct (Hreg _ _ _ Hin) as [Heq _]. congruence.
Qed.

Lemma cancel_pendingTimers_other g g' w :
  g <> g' ->
  forall p, p ∈ pendingTimers g' (internal_cancelSupervisorDecision g w) ->
            p ∈ pendingTimers g' w.
Proof.
  intros Hne p. unfold pendingTimers. rewrite cancel_timeouts.
  rewrite !list_elem_of_filter. intros [Hg Hin]. split; [exact Hg|].
  destruct (supervisorDebounceTimers (store w) !! g) as [t0|]; [|exact Hin].
  destruct (truthy_num t0); [|exact Hin].
  apply list_elem_of_filter in Hin. tauto.
Qed.

Lemma filter_comm {A} (P Q : A -> Prop) `{!forall x, Decision (P x)}
    `{!forall x, Decision (Q x)} (l : list A) :
  filter P (filter Q l) = filter Q (filter P l).
Proof.
  rewrite !list_filter_filter. apply list_filter_iff. intros x. tauto.
Qed.

Lemma cancel_pendingTimers_length g g' w :
  List.length (pendingTimers g' (internal_cancelSupervisorDecision g w))
  <= List.length (pendingTimers g' w).
Proof.
  unfold pendingTimers. rewrite cancel_timeouts.
  destruct (supervisorDebounceTimers (store w) !! g) as [t0|]; [|lia].
  destruct (truthy_num t0); [|lia].
  rewrite filter_comm. apply length_filter.
Qed.

Lemma cancel_timeouts_subset g w p :
  p ∈ timeouts (rt (internal_cancelSupervisorDecision g w)) -> p ∈ timeouts (rt w).
Proof.
  rewrite cancel_timeouts.
  destruct (supervisorDebounceTimers (store w) !! g) as [t0|]; [|tauto].
  destruct (truthy_num t0); [|tauto].
  rewrite list_elem_of_filter. tauto.
Qed.

(** The per-group cancel keeps the registry invariant. *)
Lemma cancel_registry_ok g w :
  registry_ok w -> registry_ok (internal_cancelSupervisorDecision g w).
Proof.
  intros Hok. pose proof Hok as (Hlen & Hreg & Hnext). split; [|split].
  - intros g'. etransitivity; [apply cancel_pendingTimers_length|apply Hlen].
  - intros t g' d Hin.
    destruct (decide (g' = g)) as [->|Hne].
    + exfalso. pose proof (cancel_pendingTimers g w Hok) as Hnil.
      assert (Hx : (t, (g, d)) ∈ pendingTimers g (internal_cancelSupervisorDecision g w)).
      { unfold pendingTimers. apply list_elem_of_filter. split; [reflexivity|exact Hin]. }
      rewrite Hnil in Hx. exact (not_elem_of_nil _ Hx).
    + apply cancel_timeouts_subset in Hin. destruct (Hreg _ _ _ Hin) as (Ht & Hnz & Hlt).
      rewrite cancel_nextTimer. split; [|split; [exact Hnz|exact Hlt]].
      rewrite cancel_timers.
      destruct (supervisorDebounceTimers (store w) !! g) as [t0|]; [|exact Ht].
      destruct (truthy_num t0); [|exact Ht].
      rewrite lookup_delete_ne by congruence. exact Ht.
  - rewrite cancel_nextTimer. exact Hnext.
Qed.

Lemma trigger_timers g w :
  supervisorDebounceTimers (store (internal_triggerSupervisorDecisionDebounced g w)) =
  <[g := nextTimer (rt w)]>
    (supervisorDebounceTimers (store (internal_cancelSupervisorDecision g
       (console_log ("Supervisor decision debounced triggered for group " +:+ g) w)))).
Proof.
  unfold internal_triggerSupervisorDecisionDebounced, setTimeout.
  cbn. rewrite cancel_nextTimer. reflexivity.
Qed.

Lemma trigger_controllers g w :
  supervisorDecisionAbortControllers (store (internal_triggerSupervisorDecisionDebounced g w)) =
  delete g (supervisorDecisionAbortControllers (store w)).
Proof.
  unfold internal_triggerSupervisorDecisionDebounced, setTimeout.
  cbn. rewrite cancel_controllers. reflexivity.
Qed.

Lemma trigger_aborted g w :
  abortedSignals (rt (internal_triggerSupervisorDecisionDebounced g w)) =
  match supervisorDecisionAbortControllers (store w) !! g with
  | Some c => {[c]} ∪ abortedSignals (rt w)
  | None => abortedSignals (rt w)
  end.
Proof.
  unfold internal_triggerSupervisorDecisionDebounced, setTimeout.
  cbn. rewrite cancel_aborted. reflexivity.
Qed.

Lemma trigger_nextTimer g w :
  nextTimer (rt (internal_triggerSupervisorDecisionDebounced g w)) = S (nextTimer (rt w)).
Proof.
  unfold internal_triggerSupervisorDecisionDebounced, setTimeout.
  cbn. rewrite cancel_nextTimer. reflexivity.
Qed.

Lemma trigger_ext g w :
  ext (internal_triggerSupervisorDecisionDebounced g w) = ext w.
Proof.
  unfold internal_triggerSupervisorDecisionDebounced, setTimeout.
  cbn. rewrite cancel_ext. reflexivity.
Qed.

Lemma registry_ok_trace e w : registry_ok (emit e w) <-> registry_ok w.
Proof. reflexivity. Qed.

(** After arming, exactly the new callback is pending for the group. *)
Lemma trigger_pendingTimers g w :
  registry_ok w ->
  pendingTimers g (internal_triggerSupervisorDecisionDebounced g w) =
  [(nextTimer (rt w), (g, getDebounceThreshold (configuredSpeed w)))].
Proof.
  intros Hok. unfold pendingTimers. rewrite trigger_timeouts, filter_app.
  fold (pendingTimers g (internal_cancelSupervisorDecision g
     (console_log ("Supervisor decision debounced triggered for group " +:+ g) w))).
  rewrite cancel_pendingTimers by exact Hok.
  rewrite filter_cons_True by reflexivity. reflexivity.
Qed.

(** Arming keeps the registry invariant. *)
Lemma trigger_registry_ok g w :
  registry_ok w -> registry_ok (internal_triggerSupervisorDecisionDebounced g w).
Proof.
  intros Hok.
  set (w' := console_log ("Supervisor decision debounced triggered for group " +:+ g) w).
  assert (Hok' : registry_ok (internal_cancelSupervisorDecision g w'))
    by (apply cancel_registry_ok; exact Hok).
  destruct Hok' as (Hlen & Hreg & Hnext).
  pose proof Hok as (_ & _ & Hnext0).
  split; [|split].
  - intros g'. destruct (decide (g' = g)) as [->|Hne].
    + rewrite trigger_pendingTimers by exact Hok. cbn. lia.
    + unfold pendingTimers. rewrite trigger_timeouts, filter_app.
      rewrite filter_cons_False by (cbn; congruence).
      rewrite filter_nil, app_nil_r. apply Hlen.
  - intros t g' d Hin. rewrite trigger_timeouts in Hin.
    apply elem_of_app in Hin as [Hin|Hin].
    + destruct (decide (g' = g)) as [->|Hne].
      * exfalso.
        assert (Hx : (t, (g, d)) ∈ pendingTimers g (internal_cancelSupervisorDecision g w')).
        { unfold pendingTimers. apply list_elem_of_filter. split; [reflexivity|exact Hin]. }
        rewrite cancel_pendingTimers in Hx by exact Hok. exact (not_elem_of_nil _ Hx).
      * destruct (Hreg _ _ _ Hin) as (Ht & Hnz & Hlt).
        rewrite cancel_nextTimer in Hlt. cbn in Hlt.
        rewrite trigger_nextTimer. split; [|split; [exact Hnz|lia]].
        rewrite trigger_timers. rewrite lookup_insert_ne by congruence. exact Ht.
    + apply list_elem_of_singleton in Hin. injection Hin as -> -> ->.
      rewrite trigger_nextTimer. split; [|lia].
      rewrite trigger_timers. apply lookup_insert_eq.
  - rewrite trigger_nextTimer. lia.
Qed.

(** *** [internal_cancelAllSupervisorDecisions] *)

Lemma clearAllTimers_frame m w :
  store (clearAllTimers m w) = store w
  /\ ext (clearAllTimers m w) = ext w
  /\ nextTimer (rt (clearAllTimers m w)) = nextTimer (rt w)
  /\ abortedSignals (rt (clearAllTimers m w)) = abortedSignals (rt w)
  /\ nextController (rt (clearAllTimers m w)) = nextController (rt w).
Proof.
  unfold clearAllTimers. induction (map_to_list m) as [|kv l IH]; cbn; [tauto|].
  destruct (truthy_num kv.2); [|exact IH]. cbn. exact IH.
Qed.

Lemma clearAllTimers_timeouts m w p :
  p ∈ timeouts (rt (clearAllTimers m w)) <->
  p ∈ timeouts (rt w)
  /\ forall g t, m !! g = Some t -> truthy_num t = true -> fst p <> t.
Proof.
  unfold clearAllTimers.
  assert (Hl : forall l,
    p ∈ timeouts (rt (foldr (fun (kv : string * nat) w =>
                               if truthy_num kv.2 then clearTimeout kv.2 w else w)
                        w l)) <->
    p ∈ timeouts (rt w) /\ forall kv, kv ∈ l -> truthy_num kv.2 = true -> fst p <> kv.2).
  { induction l as [|kv l IH]; cbn.
    - split; [intros H; split; [exact H|]|tauto].
      intros kv Hkv. exfalso. exact (not_elem_of_nil _ Hkv).
    - destruct (truthy_num kv.2) eqn:Htr; cbn.
      + rewrite list_elem_of_filter, IH. split.
        * intros (Hne & Hin & Hall). split; [exact Hin|].
          intros kv' Hkv'. apply elem_of_cons in Hkv' as [->|Hkv']; [tauto|].
          apply Hall, Hkv'.
        * intros (Hin & Hall). split; [|split; [exact Hin|]].
          -- apply Hall; [apply elem_of_cons; tauto|exact Htr].
          -- intros kv' Hkv'. apply Hall. apply elem_of_cons. tauto.
      + rewrite IH. split.
        * intros (Hin & Hall). split; [exact Hin|].
          intros kv' Hkv'. apply elem_of_cons in Hkv' as [->|Hkv']; [congruence|].
          apply Hall, Hkv'.
        * intros (Hin & Hall). split; [exact Hin|].
          intros kv' Hkv'. apply Hall. apply elem_of_cons. tauto. }
  rewrite Hl. split; intros [Hin Hall]; (split; [exact Hin|]).
  - intros g t Hm. apply (Hall (g, t)). apply elem_of_map_to_list. exact Hm.
  - intros [g t] Hkv. apply elem_of_map_to_list in Hkv. exact (Hall g t Hkv).
Qed.

Lemma abortAllControllers_frame m w :
  store (abortAllControllers m w) = store w
  /\ ext (abortAllControllers m w) = ext w
  /\ timeouts (rt (abortAllControllers m w)) = timeouts (rt w)
  /\ nextTimer (rt (abortAllControllers m w)) = nextTimer (rt w)
  /\ nextController (rt (abortAllControllers m w)) = nextController (rt w).
Proof.
  unfold abortAllControllers. induction (map_to_list m) as [|kv l IH]; cbn; tauto.
Qed.

Lemma abortAllControllers_aborted m w c :
  c ∈ abortedSignals (rt (abortAllControllers m w)) <->
  c ∈ abortedSignals (rt w) \/ exists g, m !! g = Some c.
Proof.
  unfold abortAllControllers.
  assert (Hl : forall l,
    c ∈ abortedSignals (rt (foldr (fun (kv : string * nat) w => abort kv.2 "Session cleanup" w) w l)) <->
    c ∈ abortedSignals (rt w) \/ exists kv, kv ∈ l /\ kv.2 = c).
  { induction l as [|kv l IH]; cbn.
    - split; [tauto|]. intros [H|(kv & Hkv & _)]; [exact H|].
      exfalso. exact (not_elem_of_nil _ Hkv).
    - rewrite elem_of_union, elem_of_singleton, IH. split.
      + intros [->|[H|(kv' & Hkv' & Heq)]].
        * right. exists kv. split; [apply elem_of_cons; tauto|reflexivity].
        * tauto.
        * right. exists kv'. split; [apply elem_of_cons; tauto|exact Heq].
      + intros [H|(kv' & Hkv' & Heq)]; [tauto|].
        apply elem_of_cons in Hkv' as [->|Hkv']; [left; congruence|].
        right. right. exists kv'. tauto. }
  rewrite Hl. split; (intros [H|H]; [left; exact H|right]).
  - destruct H as ([g c'] & Hkv & Heq). cbn in Heq. subst c'.
    exists g. apply elem_of_map_to_list. exact Hkv.
  - destruct H as (g & Hg). exists (g, c). split; [|reflexivity].
    apply elem_of_map_to_list. exact Hg.
Qed.

Lemma cancelAll_guard (m1 m2 : gmap string nat) :
  Nat.ltb 0 (List.length (map fst (map_to_list m1)))
  || Nat.ltb 0 (List.length (map fst (map_to_list m2))) = false ->
  m1 = ∅ /\ m2 = ∅.
Proof.
  intros H. apply orb_false_elim in H as [H1 H2].
  apply Nat.ltb_ge in H1, H2. rewrite length_map in H1, H2.
  split; apply map_to_list_empty_iff.
  - destruct (map_to_list m1); [reflexivity|cbn in H1; lia].
  - destruct (map_to_list m2); [reflexivity|cbn in H2; lia].
Qed.

Lemma cancelAll_timers w :
  supervisorDebounceTimers (store (internal_cancelAllSupervisorDecisions w)) = ∅.
Proof.
  unfold internal_cancelAllSupervisorDecisions.
  destruct (_ || _) eqn:Hg; [reflexivity|].
  apply cancelAll_guard in Hg. tauto.
Qed.

Lemma cancelAll_controllers w :
  supervisorDecisionAbortControllers (store (internal_cancelAllSupervisorDecisions w)) = ∅.
Proof.
  unfold internal_cancelAllSupervisorDecisions.
  destruct (_ || _) eqn:Hg; [reflexivity|].
  apply cancelAll_guard in Hg. tauto.
Qed.

Lemma cancelAll_loading w :
  supervisorDecisionLoading (store (internal_cancelAllSupervisorDecisions w)) =
  supervisorDecisionLoading (store w).
Proof.
  unfold internal_cancelAllSupervisorDecisions.
  destruct (_ || _); [|reflexivity]. cbn.
  destruct (abortAllControllers_frame (supervisorDecisionAbortControllers (store w))
              (clearAllTimers (supervisorDebounceTimers (store w))
                 (console_log
                    "Cancelling all pending supervisor decisions for session change/cleanup" w)))
    as (-> & _).
  destruct (clearAllTimers_frame (supervisorDebounceTimers (store w))
              (console_log
                 "Cancelling all pending supervisor decisions for session change/cleanup" w))
    as (-> & _).
  reflexivity.
Qed.

Lemma cancelAll_timeouts w p :
  p ∈ timeouts (rt (internal_cancelAllSupervisorDecisions w)) ->
  p ∈ timeouts (rt w)
  /\ forall g t, supervisorDebounceTimers (store w) !! g = Some t ->
                 truthy_num t = true -> fst p <> t.
Proof.
  unfold internal_cancelAllSupervisorDecisions.
  destruct (_ || _) eqn:Hg.
  - cbn.
    destruct (abortAllControllers_frame (supervisorDecisionAbortControllers (store w))
                (clearAllTimers (supervisorDebounceTimers (store w))
                   (console_log
                      "Cancelling all pending supervisor decisions for session change/cleanup" w)))
      as (_ & _ & -> & _).
    rewrite clearAllTimers_timeouts. tauto.
  - apply cancelAll_guard in Hg as [Hm _]. intros Hin. split; [exact Hin|].
    intros g t Ht. rewrite Hm, lookup_empty in Ht. discriminate.
Qed.

Lemma cancelAll_aborted w g c :
  supervisorDecisionAbortControllers (store w) !! g = Some c ->
  c ∈ abortedSignals (rt (internal_cancelAllSupervisorDecisions w)).
Proof.
  intros Hc. unfold internal_cancelAllSupervisorDecisions.
  destruct (_ || _) eqn:Hg.
  - cbn. apply abortAllControllers_aborted. right. exists g. exact Hc.
  - apply cancelAll_guard in Hg as [_ Hm]. rewrite Hm, lookup_empty in Hc. discriminate.
Qed.

Lemma cancelAll_nextTimer w :
  nextTimer (rt (internal_cancelAllSupervisorDecisions w)) = nextTimer (rt w).
Proof.
  unfold internal_cancelAllSupervisorDecisions.
  destruct (_ || _); [|reflexivity]. cbn.
  destruct (abortAllControllers_frame (supervisorDecisionAbortControllers (store w))
              (clearAllTimers (supervisorDebounceTimers (store w))
                 (console_log
                    "Cancelling all pending supervisor decisions for session change/cleanup" w)))
    as (_ & _ & _ & -> & _).
  destruct (clearAllTimers_frame (supervisorDebounceTimers (store w))
              (console_log
                 "Cancelling all pending supervisor decisions for session change/cleanup" w))
    as (_ & _ & -> & _).
  reflexivity.
Qed.

(** On a registry that satisfies the invariant nothing stays pending. *)
Lemma cancelAll_no_timeouts w :
  registry_ok w -> timeouts (rt (internal_cancelAllSupervisorDecisions w)) = [].
Proof.
  intros (_ & Hreg & _). apply elem_of_nil_inv. intros [t [g d]] Hin.
  apply cancelAll_timeouts in Hin as [Hin Hall].
  destruct (Hreg _ _ _ Hin) as (Ht & Hnz & _).
  apply (Hall g t Ht); [apply truthy_num_true; exact Hnz|reflexivity].
Qed.

Lemma cancelAll_registry_ok w :
  registry_ok w -> registry_ok (internal_cancelAllSupervisorDecisions w).
Proof.
  intros Hok. pose proof (cancelAll_no_timeouts w Hok) as Hnil.
  destruct Hok as (_ & _ & Hnext). split; [|split].
  - intros g. unfold pendingTimers. rewrite Hnil. cbn. lia.
  - intros t g d Hin. rewrite Hnil in Hin. exfalso. exact (not_elem_of_nil _ Hin).
  - rewrite cancelAll_nextTimer. exact Hnext.
Qed.

(** ** Soundness of the program logic *)

Section WpSound.
Variable I : World -> Prop.
Variable R : Outcome unit -> Prop.

Lemma advance_task_sound p w :
  task_wp I R w p ->
  I (advance_task p w).1 /\ task_state_ok I R (advance_task p w).2.
Proof.
  unfold task_wp. induction 1 as [w HQ|w e HQ|w k _ IH|w w' k _ IH|w X c k HI Hk _|w j k];
    cbn; try tauto.
Qed.

Lemma spawn_all_sound ts w :
  I w -> okTasks I R ts ->
  I (spawn_all ts w).1 /\ Forall (task_state_ok I R) (spawn_all ts w).2.
Proof.
  intros HI Hts. revert w HI. induction Hts as [|t ts Ht _ IH]; intros w HI; cbn.
  - split; [exact HI|constructor].
  - pose proof (advance_task_sound t w (Ht w HI)) as [HI1 Hs].
    destruct (advance_task t w) as [w1 s]. cbn in *.
    specialize (IH w1 HI1). destruct (spawn_all ts w1) as [w2 ss]. cbn in *.
    split; [tauto|]. constructor; tauto.
Qed.

Lemma resume_task_sound env s w :
  env_keeps I env -> I w -> task_state_ok I R s ->
  I (resume_task env s w).1 /\ task_state_ok I R (resume_task env s w).2.
Proof.
  intros Henv HI Hs. destruct s as [o|X c k|[]]; cbn; [tauto|].
  specialize (Henv X c w HI). destruct (env X c w) as [w1 o]. cbn in *.
  apply advance_task_sound. apply Hs. exact Henv.
Qed.

Lemma resume_child_sound env i cs w :
  env_keeps I env -> I w -> Forall (task_state_ok I R) cs ->
  I (resume_child env i cs w).1
  /\ Forall (task_state_ok I R) (resume_child env i cs w).2.
Proof.
  intros Henv HI Hcs. unfold resume_child.
  destruct (cs !! i) as [t|] eqn:Hi; cbn; [|tauto].
  assert (Ht : task_state_ok I R t).
  { rewrite Forall_forall in Hcs. apply Hcs. eapply list_elem_of_lookup_2. exact Hi. }
  pose proof (resume_task_sound env t w Henv HI Ht) as [HI1 Ht'].
  destruct (resume_task env t w) as [w1 t']. cbn in *.
  split; [exact HI1|]. apply Forall_insert; assumption.
Qed.

Variable Q : World -> Outcome unit -> Prop.

Lemma advance_async_sound p w :
  async_wp I R Q w p ->
  async_state_ok I R Q (advance_async p w).2
  /\ post I Q (advance_async p w).1 (advance_async p w).2.
Proof.
  unfold async_wp.
  induction 1 as [w HQ|w e HQ|w k _ IH|w w' k _ IH|w X c k HI Hk _|w j k HI Hj Hk IH];
    cbn; try tauto.
  pose proof (spawn_all_sound j w HI Hj) as [HI1 Hcs].
    destruct (spawn_all j w) as [w1 cs]. cbn in *.
  destruct (join_result cs) as [o|].
  - apply IH. exact HI1.
  - cbn. tauto.
Qed.

Lemma resume_sound env i s w :
  env_keeps I env -> async_state_ok I R Q s -> post I Q w s ->
  async_state_ok I R Q (resume env i s w).2
  /\ post I Q (resume env i s w).1 (resume env i s w).2.
Proof.
  intros Henv Hs Hp. destruct s as [o|X c k|cs k]; cbn in *.
  - tauto.
  - specialize (Henv X c w Hp). destruct (env X c w) as [w1 o]. cbn in *.
    apply advance_async_sound. apply Hs. exact Henv.
  - destruct Hs as [Hcs Hk].
    pose proof (resume_child_sound env i cs w Henv Hp Hcs) as [HI1 Hcs'].
    destruct (resume_child env i cs w) as [w1 cs']. cbn in *.
    destruct (join_result cs') as [o|].
    + apply advance_async_sound. apply Hk. exact HI1.
    + cbn. tauto.
Qed.

Lemma run_sched_sound env sched s w :
  env_keeps I env -> async_state_ok I R Q s -> post I Q w s ->
  async_state_ok I R Q (run_sched env sched s w).2
  /\ post I Q (run_sched env sched s w).1 (run_sched env sched s w).2.
Proof.
  intros Henv. revert s w. induction sched as [|i r IH]; intros s w Hs Hp; cbn.
  - tauto.
  - pose proof (resume_sound env i s w Henv Hs Hp) as [Hs1 Hp1].
    destruct (resume env i s w) as [w1 s1]. cbn in *. apply IH; assumption.
Qed.
End WpSound.

(** ** Rules for the combinators *)

Section WpRules.
Context {J : Type}.
Variable I : World -> Prop.
Variable okJ : J -> Prop.
Variable Q : World -> Outcome unit -> Prop.

Lemma wp_modify (f : World -> World) (k : Prog J) w :
  wp I okJ Q (f w) k -> wp I okJ Q w (modify f k).
Proof. intros H. unfold modify. apply wp_Get, wp_Put, H. Qed.

Lemma wp_await {X} (c : Call X) (k : X -> Prog J) w :
  I (emit (ERequest c) w) ->
  (forall x w', I w' -> wp I okJ Q w' (k x)) ->
  (forall e w', I w' -> Q w' (Rejected e)) ->
  wp I okJ Q w (await c k).
Proof.
  intros HI Hk He. unfold await. apply wp_Await; [exact HI|].
  intros [x|e] w' HI'; [apply Hk, HI'|apply wp_Throw, He, HI'].
Qed.

Lemma wp_weaken (Q' : World -> Outcome unit -> Prop) w p :
  (forall w o, Q' w o -> Q w o) -> wp I okJ Q' w p -> wp I okJ Q w p.
Proof.
  intros HQ. induction 1; try (constructor; auto; fail).
Qed.

Lemma wp_seq p q w :
  wp I okJ (fun w o => match o with
                       | Fulfilled _ => wp I okJ Q w q
                       | Rejected e => Q w (Rejected e)
                       end) w p ->
  wp I okJ Q w (seq p q).
Proof.
  induction 1; cbn; try (constructor; auto; fail); auto.
Qed.

Lemma wp_try_catch p handler w :
  wp I okJ (fun w o => match o with
                       | Fulfilled _ => Q w (Fulfilled tt)
                       | Rejected e => wp I okJ Q w (handler e)
                       end) w p ->
  wp I okJ Q w (try_catch p handler).
Proof.
  induction 1; cbn; try (constructor; auto; fail); auto.
Qed.

Lemma wp_try_finally p fin w :
  wp I okJ (fun w o => match o with
                       | Fulfilled _ => wp I okJ Q w fin
                       | Rejected e => wp I okJ Q w (seq fin (Throw e))
                       end) w p ->
  wp I okJ Q w (try_finally p fin).
Proof.
  induction 1; cbn; try (constructor; auto; fail); auto.
Qed.
End WpRules.

(** ** The registry invariant is kept by every action of the slice *)

Lemma registry_ok_set_loading f w : registry_ok (set_loading f w) <-> registry_ok w.
Proof. reflexivity. Qed.

Lemma registry_ok_toggle b g w :
  registry_ok w -> registry_ok (internal_toggleSupervisorLoading b g w).
Proof. intros H. exact H. Qed.

Lemma registry_ok_set_controllers f w : registry_ok w -> registry_ok (set_controllers f w).
Proof. intros H. exact H. Qed.

Lemma registry_ok_set_isCreatingMessage b w :
  registry_ok w -> registry_ok (set_isCreatingMessage b w).
Proof. intros H. exact H. Qed.

Lemma registry_ok_emit e w : registry_ok w -> registry_ok (emit e w).
Proof. intros H. exact H. Qed.

Lemma registry_ok_newAbortController w :
  registry_ok w -> registry_ok (newAbortController w).2.
Proof. intros H. exact H. Qed.

Lemma registry_ok_delete_timer g w :
  pendingTimers g w = [] -> registry_ok w -> registry_ok (set_timers (delete g) w).
Proof.
  intros Hnil (Hlen & Hreg & Hnext). split; [|split]; [exact Hlen| |exact Hnext].
  intros t g' d Hin. destruct (Hreg _ _ _ Hin) as (Ht & Hnz & Hlt).
  split; [|split; [exact Hnz|exact Hlt]].
  cbn. destruct (decide (g' = g)) as [->|Hne].
  - exfalso. assert (Hx : (t, (g, d)) ∈ pendingTimers g w).
    { unfold pendingTimers. apply list_elem_of_filter. split; [reflexivity|exact Hin]. }
    rewrite Hnil in Hx. exact (not_elem_of_nil _ Hx).
  - rewrite lookup_delete_ne by congruence. exact Ht.
Qed.

Lemma registry_ok_console_log m w : registry_ok w -> registry_ok (console_log m w).
Proof. intros H. exact H. Qed.

Lemma registry_ok_console_error m e w :
  registry_ok w -> registry_ok (console_error m e w).
Proof. intros H. exact H. Qed.

Lemma registry_ok_setActiveGroup g w :
  registry_ok w -> registry_ok (internal_setActiveGroup g w).
Proof. intros H. exact H. Qed.

Lemma registry_ok_set_nextController n w :
  registry_ok w -> registry_ok (set_nextController n w).
Proof. intros H. exact H. Qed.

Lemma registry_ok_store_set f l w :
  registry_ok (f w) -> registry_ok (store_set f l w).
Proof. intros H. exact H. Qed.

(** Discharge [registry_ok] of a world built by the actions of the slice. *)
Ltac reg_solve :=
  lazymatch goal with
  | |- registry_ok (internal_triggerSupervisorDecisionDebounced _ _) =>
      apply trigger_registry_ok; reg_solve
  | |- registry_ok (internal_cancelSupervisorDecision _ _) =>
      apply cancel_registry_ok; reg_solve
  | |- registry_ok (internal_cancelAllSupervisorDecisions _) =>
      apply cancelAll_registry_ok; reg_solve
  | |- registry_ok (emit _ _) => apply registry_ok_emit; reg_solve
  | |- registry_ok (console_log _ _) => apply registry_ok_console_log; reg_solve
  | |- registry_ok (console_error _ _ _) => apply registry_ok_console_error; reg_solve
  | |- registry_ok (internal_toggleSupervisorLoading _ _ _) =>
      apply registry_ok_toggle; reg_solve
  | |- registry_ok (internal_setActiveGroup _ _) =>
      apply registry_ok_setActiveGroup; reg_solve
  | |- registry_ok (store_set _ _ _) => apply registry_ok_store_set; reg_solve
  | |- registry_ok (set_controllers _ _) => apply registry_ok_set_controllers; reg_solve
  | |- registry_ok (set_isCreatingMessage _ _) =>
      apply registry_ok_set_isCreatingMessage; reg_solve
  | |- registry_ok (set_nextController _ _) =>
      apply registry_ok_set_nextController; reg_solve
  | |- registry_ok ?w =>
      match goal with H : registry_ok w |- _ => exact H end
  | |- _ /\ True => split; [reg_solve|exact Logic.I]
  | |- _ => idtac
  end.

(** The scrutinee that blocks the reduction of a program. *)
Ltac blocker p :=
  lazymatch p with
  | try_finally ?q _ => blocker q
  | try_catch ?q _ => blocker q
  | seq ?q _ => blocker q
  | if ?b then _ else _ => b
  | match ?x with _ => _ end => x
  end.

(** One step of symbolic execution of a [wp] goal. *)
Ltac wp_step :=
  lazymatch goal with
  | |- wp _ _ _ _ Ret => apply wp_Ret
  | |- wp _ _ _ _ (Throw _) => apply wp_Throw
  | |- wp _ _ _ _ (Get _) => apply wp_Get
  | |- wp _ _ _ _ (Put _ _) => apply wp_Put
  | |- wp _ _ _ _ (modify _ _) => apply wp_modify
  | |- wp _ _ _ _ (Await _ _) => apply wp_Await; [ | intros ? ? ? ]
  | |- wp _ _ _ _ (await _ _) => unfold await at 1
  | |- wp _ _ _ _ (Join _ _) => apply wp_Join; [ | | intros ? ? ? ]
  | |- wp _ _ _ _ ?p => let b := blocker p in destruct b
  end;
  cbn [try_catch try_finally seq modify await].

Ltac wp_start :=
  unfold newAbortController; cbv beta zeta iota;
  cbn [try_catch try_finally seq modify await].

Section SliceInvariant.
Variable messageMapKey : string -> option string -> string.
Variable filterMessagesForAgent : list ChatMessage -> string -> list ChatMessage.
Variable buildGroupChatSystemPrompt :
  list GroupMemberInfo -> string -> string -> list ChatMessage -> string.
Variable LOADING_FLAT : string.
Variable CreateMessageError : string.

Abbreviation processAgentMessage :=
  (internal_processAgentMessage messageMapKey filterMessagesForAgent
     buildGroupChatSystemPrompt LOADING_FLAT CreateMessageError).
Abbreviation executeAgentResponses :=
  (internal_executeAgentResponses messageMapKey filterMessagesForAgent
     buildGroupChatSystemPrompt LOADING_FLAT CreateMessageError).
Abbreviation triggerSupervisorDecision :=
  (internal_triggerSupervisorDecision messageMapKey filterMessagesForAgent
     buildGroupChatSystemPrompt LOADING_FLAT CreateMessageError).
Abbreviation debounceCallback :=
  (timerCallback messageMapKey filterMessagesForAgent
     buildGroupChatSystemPrompt LOADING_FLAT CreateMessageError).

Lemma processAgentMessage_registry g a t w :
  registry_ok w -> task_wp registry_ok (fun _ => True) w (processAgentMessage g a t).
Proof.
  intros Hok. unfold task_wp, internal_processAgentMessage, processAgentMessage_catch.
  wp_start; repeat wp_step; reg_solve.
Qed.

Lemma processAgentMessage_tasks_registry g (ds : list SupervisorDecision) :
  okTasks registry_ok (fun _ => True)
    (map (fun decision => processAgentMessage g (decisionId decision)
                            (decisionTarget decision)) ds).
Proof.
  unfold okTasks. apply Forall_forall. intros t Ht.
  apply list_elem_of_fmap in Ht as (d & -> & _).
  intros w Hok. apply processAgentMessage_registry, Hok.
Qed.

Lemma executeAgentResponses_registry g ds w :
  registry_ok w ->
  async_wp registry_ok (fun _ => True) (fun w _ => registry_ok w) w (executeAgentResponses g ds).
Proof.
  intros Hok. unfold async_wp, internal_executeAgentResponses.
  wp_start; repeat wp_step; reg_solve; apply processAgentMessage_tasks_registry.
Qed.

Lemma triggerSupervisorDecision_registry g w :
  registry_ok w ->
  async_wp registry_ok (fun _ => True) (fun w _ => registry_ok w) w (triggerSupervisorDecision g).
Proof.
  intros Hok. unfold async_wp, internal_triggerSupervisorDecision,
    supervisorDecision_catch, supervisorDecision_finally,
    internal_executeAgentResponses.
  wp_start; repeat wp_step; reg_solve; apply processAgentMessage_tasks_registry.
Qed.

Lemma debounceCallback_registry g w :
  registry_ok w -> pendingTimers g w = [] ->
  async_wp registry_ok (fun _ => True) (fun w _ => registry_ok w) w (debounceCallback g).
Proof.
  intros Hok Hnil. unfold async_wp, timerCallback.
  assert (Hok1 : registry_ok
            (set_timers (delete g)
               (console_log ("Debounced supervisor decision triggered for group " +:+ g) w)))
    by (apply (registry_ok_delete_timer g
                 (console_log ("Debounced supervisor decision triggered for group " +:+ g) w));
        assumption).
  unfold internal_triggerSupervisorDecision,
    supervisorDecision_catch, supervisorDecision_finally,
    internal_executeAgentResponses.
  wp_start; repeat wp_step; reg_solve; apply processAgentMessage_tasks_registry.
Qed.

Lemma sendGroupMessage_registry params w :
  registry_ok w ->
  async_wp registry_ok (fun _ => True) (fun w _ => registry_ok w) w (sendGroupMessage params).
Proof.
  intros Hok. unfold async_wp, sendGroupMessage.
  wp_start; repeat wp_step; reg_solve.
Qed.
End SliceInvariant.

(** ** The invariant holds in every reachable configuration *)

Lemma same_registry_ok w w' : same_registry w w' -> registry_ok w -> registry_ok w'.
Proof.
  intros (Ht & Hq & Hn) (Hlen & Hreg & Hnext). unfold registry_ok, pendingTimers.
  rewrite Ht, Hq, Hn. tauto.
Qed.

Lemma keeps_registry_ok env : keeps_registry env -> env_keeps registry_ok env.
Proof. intros H X c w Hok. eapply same_registry_ok; [apply H|exact Hok]. Qed.

Lemma fire_registry_ok t w : registry_ok w -> registry_ok (fireTimeout t w).
Proof.
  intros (Hlen & Hreg & Hnext). split; [|split]; [| |exact Hnext].
  - intros g. unfold fireTimeout. rewrite (pendingTimers_filter g (fun p => p.1 <> t)).
    etransitivity; [apply length_filter|apply Hlen].
  - intros t' g d Hin. cbn in Hin. apply list_elem_of_filter in Hin as [_ Hin].
    exact (Hreg _ _ _ Hin).
Qed.

Lemma fire_pendingTimers t g d w :
  registry_ok w -> (t, (g, d)) ∈ timeouts (rt w) -> pendingTimers g (fireTimeout t w) = [].
Proof.
  intros (Hlen & Hreg & _) Hin. apply elem_of_nil_inv. intros [t' [g' d']] Hx.
  unfold fireTimeout in Hx.
  rewrite (pendingTimers_filter g (fun p => p.1 <> t)) in Hx.
  apply list_elem_of_filter in Hx as [Hne Hx]. cbn in Hne.
  unfold pendingTimers in Hx. apply list_elem_of_filter in Hx as [Hg Hx].
  cbn in Hg. subst g'.
  destruct (Hreg _ _ _ Hin) as [H1 _]. destruct (Hreg _ _ _ Hx) as [H2 _].
  congruence.
Qed.

Section SystemInvariant.
Variable messageMapKey : string -> option string -> string.
Variable filterMessagesForAgent : list ChatMessage -> string -> list ChatMessage.
Variable buildGroupChatSystemPrompt :
  list GroupMemberInfo -> string -> string -> list ChatMessage -> string.
Variable LOADING_FLAT : string.
Variable CreateMessageError : string.

Abbreviation reachable_cfg :=
  (reachable messageMapKey filterMessagesForAgent buildGroupChatSystemPrompt
     LOADING_FLAT CreateMessageError).

Lemma spawn_thread_ok p c :
  config_ok c ->
  async_wp registry_ok (fun _ => True) (fun w _ => registry_ok w) (world c) p ->
  config_ok (spawn_thread p c).
Proof.
  intros [Hw Hths] Hp. unfold spawn_thread, config_ok. cbn.
  pose proof (advance_async_sound registry_ok (fun _ => True) (fun w _ => registry_ok w) p (world c) Hp)
    as [Hs Hpost].
  split.
  - destruct (advance_async p (world c)).2; exact Hpost.
  - apply Forall_app. split; [exact Hths|]. constructor; [exact Hs|constructor].
Qed.

Lemma step_config_ok c c' :
  step messageMapKey filterMessagesForAgent buildGroupChatSystemPrompt
    LOADING_FLAT CreateMessageError c c' ->
  config_ok c -> config_ok c'.
Proof.
  intros Hstep Hc. pose proof Hc as [Hw Hths].
  destruct Hstep as [params c|g c|g c|c|g c|g ds c|t g d c Hin|env i j s c Henv Hi|w' c Hsame].
  - apply spawn_thread_ok; [exact Hc|]. apply sendGroupMessage_registry, Hw.
  - split; [apply trigger_registry_ok, Hw|exact Hths].
  - split; [apply cancel_registry_ok, Hw|exact Hths].
  - split; [apply cancelAll_registry_ok, Hw|exact Hths].
  - apply spawn_thread_ok; [exact Hc|]. apply triggerSupervisorDecision_registry, Hw.
  - apply spawn_thread_ok; [exact Hc|]. apply executeAgentResponses_registry, Hw.
  - apply spawn_thread_ok.
    + split; [apply fire_registry_ok, Hw|exact Hths].
    + apply debounceCallback_registry; cbn.
      * apply fire_registry_ok, Hw.
      * eapply fire_pendingTimers; eassumption.
  - assert (Hs : async_state_ok registry_ok (fun _ => True) (fun w _ => registry_ok w) s).
    { rewrite Forall_forall in Hths. apply Hths.
      eapply list_elem_of_lookup_2. exact Hi. }
    assert (Hp : post registry_ok (fun w _ => registry_ok w) (world c) s)
      by (destruct s; exact Hw).
    pose proof (resume_sound registry_ok (fun _ => True) (fun w _ => registry_ok w) env j s (world c)
                  (keeps_registry_ok env Henv) Hs Hp) as [Hs' Hp'].
    split; cbn.
    + destruct (resume env j s (world c)).2; exact Hp'.
    + apply Forall_insert; assumption.
  - split; [eapply same_registry_ok; eassumption|exact Hths].
Qed.

Lemma reachable_config_ok c : reachable_cfg c -> config_ok c.
Proof.
  induction 1 as [c (Hths & Hq & Hn)|c c' _ IH Hstep].
  - split.
    + split; [|split]; [| |exact Hn].
      * intros g. unfold pendingTimers. rewrite Hq. cbn. lia.
      * intros t g d Hin. rewrite Hq in Hin. exfalso. exact (not_elem_of_nil _ Hin).
    + rewrite Hths. constructor.
  - eapply step_config_ok; eassumption.
Qed.

Lemma liveTokens_length g w : List.length (liveTokens g w) <= 1.
Proof.
  unfold liveTokens.
  destruct (supervisorDecisionAbortControllers (store w) !! g) as [c|]; [|cbn; lia].
  destruct (bool_decide _); cbn; lia.
Qed.

Lemma trigger_liveTokens g w :
  liveTokens g (internal_triggerSupervisorDecisionDebounced g w) = [].
Proof.
  unfold liveTokens. rewrite trigger_controllers, lookup_delete_eq. reflexivity.
Qed.

Lemma trigger_trace g w :
  trace (rt (internal_triggerSupervisorDecisionDebounced g w)) =
  trace (rt (internal_cancelSupervisorDecision g
               (console_log ("Supervisor decision debounced triggered for group " +:+ g) w)))
  ++ [EConsole LevelLog
        (thresholdMessage (getDebounceThreshold (configuredSpeed w)) (configuredSpeed w))
        None;
      ESetTimeout (nextTimer (rt w)) g (getDebounceThreshold (configuredSpeed w));
      EAction ("setSupervisorTimer/" +:+ g)].
Proof.
  unfold internal_triggerSupervisorDecisionDebounced, setTimeout, configuredSpeed.
  cbn. rewrite cancel_ext, cancel_nextTimer. cbn. rewrite <- !app_assoc. reflexivity.
Qed.

Lemma trigger_configuredSpeed g w :
  configuredSpeed (internal_triggerSupervisorDecisionDebounced g w) = configuredSpeed w.
Proof. unfold configuredSpeed. rewrite trigger_ext. reflexivity. Qed.
End SystemInvariant.

(** ** Tokens: what the actions guarantee *)

Lemma guar_refl ex w : guar ex w w.
Proof.
  split; [tauto|]. split; [reflexivity|]. intros g c _ Hc. left. exact Hc.
Qed.

Lemma guar_trans ex w0 w w' : guar ex w0 w -> guar ex w w' -> guar ex w0 w'.
Proof.
  intros [Hok1 [Hab1 Hk1]] [Hok2 [Hab2 Hk2]]. split; [tauto|]. split.
  - etransitivity; eassumption.
  - intros g c Hex Hc. destruct (Hk1 g c Hex Hc) as [Hreg|Hab].
    + exact (Hk2 g c Hex Hreg).
    + right. apply Hab2, Hab.
Qed.

Lemma guar_weaken ex w0 w : guar None w0 w -> guar ex w0 w.
Proof.
  intros [Hok [Hab Hk]]. split; [exact Hok|]. split; [exact Hab|].
  intros g c _ Hc. apply Hk; [discriminate|exact Hc].
Qed.

Lemma same_tokens_guar w w' : same_tokens w w' -> guar None w w'.
Proof.
  intros [Hreg [Hc Ha]]. split; [|split].
  - intros [Hok Hk]. split; [eapply same_registry_ok; eassumption|].
    intros g Hp. rewrite Hc. apply Hk.
    destruct Hreg as (_ & Hq & _). unfold pendingTimers in *. rewrite <- Hq. exact Hp.
  - rewrite Ha. reflexivity.
  - intros g c _ Hg. left. rewrite Hc. exact Hg.
Qed.

Lemma guar_emit e w : guar None w (emit e w).
Proof. apply same_tokens_guar. repeat split. Qed.

Lemma guar_console_log m w : guar None w (console_log m w).
Proof. apply same_tokens_guar. repeat split. Qed.

Lemma guar_console_error m e w : guar None w (console_error m e w).
Proof. apply same_tokens_guar. repeat split. Qed.

Lemma guar_toggle b g w : guar None w (internal_toggleSupervisorLoading b g w).
Proof. apply same_tokens_guar. repeat split. Qed.

Lemma guar_setActiveGroup g w : guar None w (internal_setActiveGroup g w).
Proof. apply same_tokens_guar. repeat split. Qed.

Lemma guar_set_isCreatingMessage b l w :
  guar None w (store_set (set_isCreatingMessage b) l w).
Proof. apply same_tokens_guar. repeat split. Qed.

Lemma pendingTimers_trigger_other g g' w :
  g' <> g ->
  pendingTimers g' (internal_triggerSupervisorDecisionDebounced g w) <> [] ->
  pendingTimers g' w <> [].
Proof.
  intros Hne Hp Hnil. apply Hp. apply elem_of_nil_inv. intros p Hin.
  unfold pendingTimers in Hin. rewrite trigger_timeouts, filter_app in Hin.
  rewrite filter_cons_False in Hin by (cbn; congruence).
  rewrite filter_nil, app_nil_r in Hin.
  apply (cancel_pendingTimers_other g g') in Hin; [|congruence].
  change (p ∈ pendingTimers g' w) in Hin. rewrite Hnil in Hin.
  exact (not_elem_of_nil _ Hin).
Qed.

Lemma guar_trigger g w : guar None w (internal_triggerSupervisorDecisionDebounced g w).
Proof.
  split; [|split].
  - intros [Hok Hk]. split; [apply trigger_registry_ok, Hok|].
    intros g' Hp. rewrite trigger_controllers.
    destruct (decide (g' = g)) as [->|Hne]; [apply lookup_delete_eq|].
    rewrite lookup_delete_ne by congruence. apply Hk.
    eapply pendingTimers_trigger_other; eassumption.
  - rewrite trigger_aborted.
    destruct (supervisorDecisionAbortControllers (store w) !! g);
      [apply union_subseteq_r|reflexivity].
  - intros g' c _ Hc. rewrite trigger_controllers, trigger_aborted.
    destruct (decide (g' = g)) as [->|Hne].
    + right. rewrite Hc. apply elem_of_union_l, elem_of_singleton. reflexivity.
    + left. rewrite lookup_delete_ne by congruence. exact Hc.
Qed.

Lemma pendingTimers_cancel_subset g g' w :
  pendingTimers g' (internal_cancelSupervisorDecision g w) <> [] ->
  pendingTimers g' w <> [].
Proof.
  intros Hp Hnil. apply Hp.
  pose proof (cancel_pendingTimers_length g g' w) as Hlen.
  rewrite Hnil in Hlen. cbn in Hlen.
  destruct (pendingTimers g' (internal_cancelSupervisorDecision g w));
    [reflexivity|cbn in Hlen; lia].
Qed.

Lemma guar_cancel g w : guar None w (internal_cancelSupervisorDecision g w).
Proof.
  split; [|split].
  - intros [Hok Hk]. split; [apply cancel_registry_ok, Hok|].
    intros g' Hp. rewrite cancel_controllers.
    destruct (decide (g' = g)) as [->|Hne]; [apply lookup_delete_eq|].
    rewrite lookup_delete_ne by congruence. apply Hk.
    eapply pendingTimers_cancel_subset; eassumption.
  - rewrite cancel_aborted.
    destruct (supervisorDecisionAbortControllers (store w) !! g);
      [apply union_subseteq_r|reflexivity].
  - intros g' c _ Hc. rewrite cancel_controllers, cancel_aborted.
    destruct (decide (g' = g)) as [->|Hne].
    + right. rewrite Hc. apply elem_of_union_l, elem_of_singleton. reflexivity.
    + left. rewrite lookup_delete_ne by congruence. exact Hc.
Qed.

Lemma cancelAll_aborted_mono w :
  abortedSignals (rt w) ⊆ abortedSignals (rt (internal_cancelAllSupervisorDecisions w)).
Proof.
  unfold internal_cancelAllSupervisorDecisions.
  destruct (_ || _); [|reflexivity]. cbn.
  intros c Hc. apply abortAllControllers_aborted. left.
  destruct (clearAllTimers_frame (supervisorDebounceTimers (store w))
              (console_log
                 "Cancelling all pending supervisor decisions for session change/cleanup" w))
    as (_ & _ & _ & -> & _).
  exact Hc.
Qed.

Lemma guar_cancelAll w : guar None w (internal_cancelAllSupervisorDecisions w).
Proof.
  split; [|split].
  - intros [Hok Hk]. split; [apply cancelAll_registry_ok, Hok|].
    intros g _. rewrite cancelAll_controllers. apply lookup_empty.
  - apply cancelAll_aborted_mono.
  - intros g c _ Hc. right. eapply cancelAll_aborted. exact Hc.
Qed.

(** The [finally] block of the decision run, for a group whose token is
    already gone, and for the group of the run itself. *)
Lemma guar_finally_gone g w :
  supervisorDecisionAbortControllers (store w) !! g = None ->
  guar None w (supervisorDecision_finally g w).
Proof.
  intros Hg. apply same_tokens_guar. split; [repeat split|]. split; [|reflexivity].
  cbn. apply delete_id. exact Hg.
Qed.

Lemma guar_finally_own g w : guar (Some g) w (supervisorDecision_finally g w).
Proof.
  split; [|split].
  - intros [Hok Hk]. split; [exact Hok|].
    intros g' Hp. cbn. apply lookup_delete_None. right. apply Hk. exact Hp.
  - reflexivity.
  - intros g' c Hex Hc. left. cbn. rewrite lookup_delete_ne by congruence. exact Hc.
Qed.

(** Discharge a [guar] goal about a world built by the actions. *)
Ltac guar_solve :=
  lazymatch goal with
  | H : guar ?ex ?w0 ?w |- guar ?ex ?w0 ?w => exact H
  | |- guar _ ?w ?w => apply guar_refl
  | |- guar ?ex ?w0 (emit ?e ?w) =>
      apply (guar_trans ex w0 w); [guar_solve|apply guar_weaken, guar_emit]
  | |- guar ?ex ?w0 (console_log ?m ?w) =>
      apply (guar_trans ex w0 w); [guar_solve|apply guar_weaken, guar_console_log]
  | |- guar ?ex ?w0 (console_error ?m ?e ?w) =>
      apply (guar_trans ex w0 w); [guar_solve|apply guar_weaken, guar_console_error]
  | |- guar ?ex ?w0 (internal_toggleSupervisorLoading ?b ?g ?w) =>
      apply (guar_trans ex w0 w); [guar_solve|apply guar_weaken, guar_toggle]
  | |- guar ?ex ?w0 (internal_setActiveGroup ?g ?w) =>
      apply (guar_trans ex w0 w); [guar_solve|apply guar_weaken, guar_setActiveGroup]
  | |- guar ?ex ?w0 (store_set (set_isCreatingMessage ?b) ?l ?w) =>
      apply (guar_trans ex w0 w);
        [guar_solve|apply guar_weaken, guar_set_isCreatingMessage]
  | |- guar ?ex ?w0 (internal_triggerSupervisorDecisionDebounced ?g ?w) =>
      apply (guar_trans ex w0 w); [guar_solve|apply guar_weaken, guar_trigger]
  | |- guar (Some ?g) ?w0 (supervisorDecision_finally ?g ?w) =>
      apply (guar_trans (Some g) w0 w); [guar_solve|apply guar_finally_own]
  | |- guar None ?w0
         (supervisorDecision_finally ?g (internal_triggerSupervisorDecisionDebounced ?g ?w)) =>
      apply (guar_trans None w0 (internal_triggerSupervisorDecisionDebounced g w));
        [guar_solve
        |apply guar_finally_gone; rewrite trigger_controllers; apply lookup_delete_eq]
  | |- _ => idtac
  end.

(** ** Soundness of the segment logic *)

Section SegSound.
Variable G : World -> World -> Prop.

Lemma seg_task_sound w0 w p :
  seg_task G w0 w p ->
  G w0 (advance_task p w).1 /\ child_inv G (advance_task p w).2.
Proof.
  unfold seg_task.
  induction 1 as [w0 w HG HR|w0 w e HG HR|w0 w k _ IH|w0 w w' k _ IH
                 |w0 w X c k HG Hc Hk _|w0 w [] k]; cbn; tauto.
Qed.

Lemma seg_spawn_sound ts w0 w :
  G w0 w -> segTasks G ts ->
  G w0 (spawn_all ts w).1 /\ Forall (child_inv G) (spawn_all ts w).2.
Proof.
  intros HG Hts. revert w HG. induction Hts as [|t ts Ht _ IH]; intros w HG; cbn.
  - split; [exact HG|constructor].
  - pose proof (seg_task_sound w0 w t (Ht w0 w HG)) as [HG1 Hs].
    destruct (advance_task t w) as [w1 s]. cbn in *.
    specialize (IH w1 HG1). destruct (spawn_all ts w1) as [w2 ss]. cbn in *.
    split; [tauto|]. constructor; tauto.
Qed.

Lemma child_inv_first_rejected cs :
  Forall (child_inv G) cs -> first_rejected cs = None.
Proof.
  induction 1 as [|s cs Hs _ IH]; cbn; [reflexivity|].
  destruct s as [[u|e]|X c k|[]]; try exact IH.
  cbn in Hs. discriminate Hs.
Qed.

Lemma child_inv_join cs o :
  Forall (child_inv G) cs -> join_result cs = Some o -> o = Fulfilled tt.
Proof.
  intros Hcs. unfold join_result. rewrite (child_inv_first_rejected cs Hcs).
  destruct (forallb is_fulfilled cs); congruence.
Qed.
End SegSound.

(** One step of symbolic execution of a [seg] goal. *)
Ltac seg_step :=
  lazymatch goal with
  | |- seg _ _ _ _ _ Ret => apply seg_Ret
  | |- seg _ _ _ _ _ (Throw _) => apply seg_Throw
  | |- seg _ _ _ _ _ (Get _) => apply seg_Get
  | |- seg _ _ _ _ _ (Put _ _) => apply seg_Put
  | |- seg _ _ _ _ _ (modify _ _) => unfold modify at 1
  | |- seg _ _ _ _ _ (Await _ _) => apply seg_Await; [ | exact Logic.I | intros ? ? ]
  | |- seg _ _ _ _ _ (await _ _) => unfold await at 1
  | |- seg _ _ _ _ _ (Join _ _) =>
      apply seg_Join; [ | | let Ho := fresh "Ho" in intros ? ? ? ? Ho; rewrite Ho ]
  | |- seg _ _ _ _ _ ?p => let b := blocker p in destruct b
  end;
  cbn [try_catch try_finally seq modify await].

Lemma notDecision_not_deciding {X} (c : Call X) k g :
  notDecision c -> ~ decidingFor g (Blocked c k).
Proof. destruct c; cbn; tauto. Qed.

Section ScheduledInvariant.
Variable messageMapKey : string -> option string -> string.
Variable filterMessagesForAgent : list ChatMessage -> string -> list ChatMessage.
Variable buildGroupChatSystemPrompt :
  list GroupMemberInfo -> string -> string -> list ChatMessage -> string.
Variable LOADING_FLAT : string.
Variable CreateMessageError : string.

Abbreviation agentTask0 :=
  (internal_processAgentMessage messageMapKey filterMessagesForAgent
     buildGroupChatSystemPrompt LOADING_FLAT CreateMessageError).
Abbreviation threadInv :=
  (thread_inv messageMapKey filterMessagesForAgent buildGroupChatSystemPrompt
     LOADING_FLAT CreateMessageError).
Abbreviation schedInv :=
  (sched_inv messageMapKey filterMessagesForAgent buildGroupChatSystemPrompt
     LOADING_FLAT CreateMessageError).
Abbreviation callbackOutcome0 :=
  (callbackOutcome messageMapKey filterMessagesForAgent buildGroupChatSystemPrompt
     LOADING_FLAT CreateMessageError).
Abbreviation debounceCallback0 :=
  (timerCallback messageMapKey filterMessagesForAgent buildGroupChatSystemPrompt
     LOADING_FLAT CreateMessageError).

Lemma seg_async_sound w0 w p :
  seg_async (guar None) w0 w p ->
  guar None w0 (advance_async p w).1
  /\ threadInv (advance_async p w).2
  /\ forall g, ~ decidingFor g (advance_async p w).2.
Proof.
  unfold seg_async.
  induction 1 as [w0 w HG HR|w0 w e HG HR|w0 w k _ IH|w0 w w' k _ IH
                 |w0 w X c k HG Hc Hk _|w0 w j k HG Hj Hk IH]; cbn.
  - split; [exact HG|]. split; [constructor|tauto].
  - split; [exact HG|]. split; [constructor|tauto].
  - exact IH.
  - exact IH.
  - split; [exact HG|]. split; [constructor; assumption|].
    intros g. apply (notDecision_not_deciding c k g Hc).
  - pose proof (seg_spawn_sound (guar None) j w0 w HG Hj) as [HG1 Hcs].
    destruct (spawn_all j w) as [w1 cs]. cbn in *.
    destruct (join_result cs) as [o|] eqn:Hjoin.
    + apply (IH o w0 w1 HG1). eapply child_inv_join; eassumption.
    + cbn. split; [exact HG1|]. split; [constructor; assumption|tauto].
Qed.

Lemma processAgentMessage_seg g a t w0 w :
  guar None w0 w -> seg_task (guar None) w0 w (agentTask0 g a t).
Proof.
  intros HG. unfold seg_task, internal_processAgentMessage, processAgentMessage_catch.
  wp_start; repeat seg_step; try reflexivity; guar_solve.
Qed.

Lemma processAgentMessage_segTasks g (ds : list SupervisorDecision) :
  segTasks (guar None)
    (map (fun decision => agentTask0 g (decisionId decision) (decisionTarget decision)) ds).
Proof.
  apply Forall_forall. intros t Ht. apply list_elem_of_fmap in Ht as (d & -> & _).
  intros w0 w HG. apply processAgentMessage_seg, HG.
Qed.

Lemma sendGroupMessage_seg params w :
  seg_async (guar None) w w (sendGroupMessage params).
Proof.
  unfold seg_async, sendGroupMessage.
  wp_start; repeat seg_step; try exact Logic.I; guar_solve.
Qed.

(** The decision run once the decision call has answered: its segment
    is exempt for its own group, and it is no longer a decision call. *)
Lemma callbackOutcome_sound g o w1 :
  guar (Some g) w1 (advance_async (callbackOutcome0 g o) w1).1
  /\ threadInv (advance_async (callbackOutcome0 g o) w1).2
  /\ forall g', ~ decidingFor g' (advance_async (callbackOutcome0 g o) w1).2.
Proof.
  destruct o as [ds|e].
  - destruct (Nat.ltb 0 (List.length ds)) eqn:Hlen.
    + assert (Hseg : seg_async (guar None) w1 w1 (callbackOutcome0 g (Fulfilled ds))).
      { unfold seg_async, callbackOutcome, decisionOutcome, internal_executeAgentResponses.
        rewrite Hlen.
        wp_start; repeat seg_step; try exact Logic.I; guar_solve.
        apply processAgentMessage_segTasks. }
      destruct (seg_async_sound w1 w1 _ Hseg) as (HG & Hinv & Hnd).
      split; [apply guar_weaken, HG|]. split; assumption.
    + unfold callbackOutcome, decisionOutcome, advance_async. rewrite Hlen. cbn.
      split; [guar_solve|]. split; [constructor|tauto].
  - unfold callbackOutcome, decisionOutcome, advance_async, supervisorDecision_catch.
    cbn [try_catch try_finally].
    destruct (isError e && String.eqb (errName e) "AbortError"); cbn;
      (split; [guar_solve|]; split; [constructor|tauto]).
Qed.

(** *** The start of a debounce callback *)

Lemma guar_fire t w : guar None w (fireTimeout t w).
Proof.
  split; [|split].
  - intros [Hok Hk]. split; [apply fire_registry_ok, Hok|].
    intros g Hp. apply Hk. intros Hnil. apply Hp.
    unfold fireTimeout. rewrite (pendingTimers_filter g (fun p => p.1 <> t)).
    rewrite Hnil. reflexivity.
  - reflexivity.
  - intros g c _ Hc. left. exact Hc.
Qed.

Lemma guar_delete_timer g l w :
  pendingTimers g w = [] -> guar None w (store_set (set_timers (delete g)) l w).
Proof.
  intros Hnil. split; [|split].
  - intros [Hok Hk]. split.
    + apply registry_ok_emit, registry_ok_delete_timer; assumption.
    + exact Hk.
  - reflexivity.
  - intros g' c _ Hc. left. exact Hc.
Qed.

Lemma guar_register g c l w :
  pendingTimers g w = [] ->
  guar (Some g) w (store_set (set_controllers (insert g c)) l w).
Proof.
  intros Hnil. split; [|split].
  - intros [Hok Hk]. split; [exact Hok|].
    intros g' Hp. cbn. destruct (decide (g' = g)) as [->|Hne].
    + exfalso. apply Hp. exact Hnil.
    + rewrite lookup_insert_ne by congruence. apply Hk, Hp.
  - reflexivity.
  - intros g' c' Hex Hc'. left. cbn. rewrite lookup_insert_ne by congruence. exact Hc'.
Qed.

Lemma guar_newAbortController w : guar None w (newAbortController w).2.
Proof. apply same_tokens_guar. repeat split. Qed.

Lemma callback_start g t d w :
  world_ok w -> (t, (g, d)) ∈ timeouts (rt w) ->
  let r := advance_async (debounceCallback0 g) (fireTimeout t w) in
  guar (Some g) w r.1
  /\ ((exists o, r.2 = Done o)
      \/ (exists ctx,
            r.2 = Blocked (MakeDecision ctx) (callbackOutcome0 g)
            /\ ctxGroupId ctx = g
            /\ supervisorDecisionAbortControllers (store r.1) !! g
               = Some (ctxAbortController ctx))).
Proof.
  intros [Hok Hk] Hin. cbv zeta.
  pose proof (fire_pendingTimers t g d w Hok Hin) as Hnil.
  set (wf := fireTimeout t w) in *.
  assert (Hf : guar (Some g) w wf) by apply guar_weaken, guar_fire.
  set (wa := store_set (set_timers (delete g)) ("cleanupSupervisorTimer/" +:+ g)
               (console_log ("Debounced supervisor decision triggered for group " +:+ g) wf)).
  assert (Ha : guar (Some g) w wa).
  { eapply guar_trans; [|apply guar_weaken, guar_delete_timer; exact Hnil].
    eapply guar_trans; [exact Hf|apply guar_weaken, guar_console_log]. }
  assert (Hnila : pendingTimers g wa = []) by exact Hnil.
  unfold timerCallback, internal_triggerSupervisorDecision, advance_async.
  cbn [advance modify try_catch try_finally]. fold wa.
  change (messagesMap (store wa)) with (messagesMap (store w)).
  change (activeTopicId (store wa)) with (activeTopicId (store w)).
  destruct (Nat.eqb _ 0).
  { cbn. split; [exact Ha|]. left. eexists. reflexivity. }
  destruct (shouldAvoidSupervisorDecision _).
  { cbn. split; [|left; eexists; reflexivity].
    eapply guar_trans; [exact Ha|apply guar_weaken, guar_console_log]. }
  cbn [advance modify try_catch try_finally newAbortController].
  set (c := nextController (rt wa)).
  set (wb := internal_toggleSupervisorLoading true (Some g)
               (store_set (set_controllers (insert g c))
                  ("setSupervisorAbortController/" +:+ g)
                  (emit (ENewAbortController c) (set_nextController (S c) wa)))).
  assert (Hb : guar (Some g) w wb).
  { eapply guar_trans; [|apply guar_weaken, guar_toggle].
    eapply guar_trans; [|apply guar_register; exact Hnila].
    eapply guar_trans; [exact Ha|]. apply guar_weaken, (guar_newAbortController wa). }
  change (currentGroupConfig (ext wb)) with (currentGroupConfig (ext w)).
  destruct (currentGroupConfig (ext w)) as [cfg|].
  - cbn. split.
    + eapply guar_trans; [exact Hb|apply guar_weaken, guar_emit].
    + right. eexists. split; [reflexivity|]. split; [reflexivity|].
      cbn. apply lookup_insert_eq.
  - cbn. split; [|left; eexists; reflexivity].
    eapply guar_trans; [|apply guar_finally_own].
    eapply guar_trans; [exact Hb|apply guar_weaken, guar_console_error].
Qed.

(** *** One scheduling step of a call in flight *)

Lemma keeps_tokens_guar env X (c : Call X) w :
  keeps_tokens env -> guar None w (env X c w).1.
Proof. intros Henv. apply same_tokens_guar, Henv. Qed.

Lemma resume_child_seg env i (cs : list TaskState) w :
  keeps_tokens env -> Forall (child_inv (guar None)) cs ->
  guar None w (resume_child env i cs w).1
  /\ Forall (child_inv (guar None)) (resume_child env i cs w).2.
Proof.
  intros Henv Hcs. unfold resume_child.
  destruct (cs !! i) as [t|] eqn:Hi; [|split; [apply guar_refl|exact Hcs]].
  assert (Ht : child_inv (guar None) t).
  { eapply Forall_forall; [exact Hcs|]. eapply list_elem_of_lookup_2, Hi. }
  destruct t as [o|X c k|[] k]; cbn.
  - split; [apply guar_refl|]. apply Forall_insert; assumption.
  - destruct Ht as [_ Hk].
    pose proof (keeps_tokens_guar env X c w Henv) as Hw.
    destruct (env X c w) as [w1 o]. cbn in Hw.
    pose proof (seg_task_sound (guar None) w1 w1 (k o) (Hk o w1)) as [HG Hs].
    destruct (advance_task (k o) w1) as [w2 s2]. cbn in *.
    split; [eapply guar_trans; eassumption|]. apply Forall_insert; assumption.
Qed.

(** A resumed call is no longer suspended in the decision call; its
    step keeps the tokens of every group, its own excepted when it was
    the decision run of that group. *)
Lemma resume_thread_sound env j s w :
  keeps_tokens env -> threadInv s ->
  exists ex,
    guar ex w (resume env j s w).1
    /\ threadInv (resume env j s w).2
    /\ (forall g, ~ decidingFor g (resume env j s w).2)
    /\ (forall g, ex = Some g -> decidingFor g s).
Proof.
  intros Henv Hs. destruct Hs as [o|ctx|X c k Hc Hk|cs k Hcs Hk].
  - exists None. cbn. split; [apply guar_refl|]. split; [constructor|].
    split; [tauto|discriminate].
  - exists (Some (ctxGroupId ctx)). cbn.
    pose proof (keeps_tokens_guar env _ (MakeDecision ctx) w Henv) as Hw.
    destruct (env _ (MakeDecision ctx) w) as [w1 o]. cbn in Hw.
    destruct (callbackOutcome_sound (ctxGroupId ctx) o w1) as (HG & Hinv & Hnd).
    split; [eapply guar_trans; [apply guar_weaken, Hw|exact HG]|].
    split; [exact Hinv|]. split; [exact Hnd|]. intros g [= <-]. reflexivity.
  - exists None. cbn.
    pose proof (keeps_tokens_guar env X c w Henv) as Hw.
    destruct (env X c w) as [w1 o]. cbn in Hw.
    destruct (seg_async_sound w1 w1 (k o) (Hk o w1)) as (HG & Hinv & Hnd).
    split; [eapply guar_trans; eassumption|].
    split; [exact Hinv|]. split; [exact Hnd|discriminate].
  - exists None. cbn.
    pose proof (resume_child_seg env j cs w Henv Hcs) as [HG Hcs'].
    destruct (resume_child env j cs w) as [w1 cs']. cbn in HG, Hcs'.
    destruct (join_result cs') as [o|] eqn:Hjoin.
    + pose proof (child_inv_join _ _ _ Hcs' Hjoin) as Ho.
      destruct (seg_async_sound w w1 (k o) (Hk o w w1 HG Ho)) as (HG' & Hinv & Hnd).
      split; [exact HG'|]. split; [exact Hinv|]. split; [exact Hnd|discriminate].
    + cbn. split; [exact HG|]. split; [constructor; assumption|].
      split; [tauto|discriminate].
Qed.

(** *** The invariant of the scheduled system *)

Lemma tokens_kept_tracked ex w w' g tok :
  tokens_kept ex w w' -> ex <> Some g ->
  supervisorDecisionAbortControllers (store w) !! g = Some tok
  \/ tok ∈ abortedSignals (rt w) ->
  supervisorDecisionAbortControllers (store w') !! g = Some tok
  \/ tok ∈ abortedSignals (rt w').
Proof.
  intros [Hmono Hkept] Hex [Hreg|Hab].
  - apply (Hkept g tok Hex Hreg).
  - right. apply Hmono, Hab.
Qed.

Lemma sched_inv_world c w' :
  schedInv c -> guar None (world c) w' -> schedInv (mkConfig w' (threads c)).
Proof.
  intros (Hw & Hths & Hone & Htr) [Hok Hkept].
  split; [apply Hok, Hw|]. split; [exact Hths|]. split; [exact Hone|].
  intros g i s tok Hi Hd Htok. cbn in *.
  eapply tokens_kept_tracked; [exact Hkept|discriminate|]. eapply Htr; eassumption.
Qed.

Lemma sched_inv_spawn c w' s ex :
  schedInv c -> guar ex (world c) w' -> threadInv s ->
  (forall g s0, ex = Some g -> s0 ∈ threads c -> ~ decidingFor g s0) ->
  (forall g, decidingFor g s ->
     ex = Some g
     /\ exists tok, decisionToken s = Some tok
          /\ supervisorDecisionAbortControllers (store w') !! g = Some tok) ->
  schedInv (mkConfig w' (threads c ++ [s])).
Proof.
  intros (Hw & Hths & Hone & Htr) [Hok Hkept] Hs Hfree Hnew.
  assert (Hlook : forall i s0, (threads c ++ [s]) !! i = Some s0 ->
            threads c !! i = Some s0 \/ (i = List.length (threads c) /\ s0 = s)).
  { intros i s0 Hi. apply lookup_app_Some in Hi as [Hi|[Hge Hi]]; [left; exact Hi|].
    right. apply list_lookup_singleton_Some in Hi as [Hi ->]. split; [lia|reflexivity]. }
  assert (Hclash : forall g i s0, threads c !! i = Some s0 -> decidingFor g s0 ->
            decidingFor g s -> False).
  { intros g i s0 Hi Hd Hds. destruct (Hnew g Hds) as [Hex _].
    eapply Hfree; [exact Hex| |exact Hd]. eapply list_elem_of_lookup_2, Hi. }
  split; [apply Hok, Hw|]. split; [|split]; cbn.
  - apply Forall_app. split; [exact Hths|]. constructor; [exact Hs|constructor].
  - intros g i j s1 s2 Hi Hj Hd1 Hd2. cbn in Hi, Hj.
    apply Hlook in Hi as [Hi|[-> ->]]; apply Hlook in Hj as [Hj|[-> ->]].
    + eapply Hone; eassumption.
    + exfalso. eapply Hclash; eassumption.
    + exfalso. eapply Hclash; eassumption.
    + reflexivity.
  - intros g i s0 tok Hi Hd Htok. cbn in *.
    apply Hlook in Hi as [Hi|[-> ->]].
    + eapply tokens_kept_tracked; [exact Hkept| |eapply Htr; eassumption].
      intros Hex. eapply Hfree; [exact Hex| |exact Hd].
      eapply list_elem_of_lookup_2, Hi.
    + destruct (Hnew g Hd) as (_ & tok' & Htok' & Hreg).
      left. congruence.
Qed.

Lemma sched_inv_resume c i s w' s' ex :
  schedInv c -> threads c !! i = Some s -> guar ex (world c) w' ->
  threadInv s' -> (forall g, ~ decidingFor g s') ->
  (forall g, ex = Some g -> decidingFor g s) ->
  schedInv (mkConfig w' (<[i := s']> (threads c))).
Proof.
  intros (Hw & Hths & Hone & Htr) Hi [Hok Hkept] Hs' Hnd Hex.
  assert (Hlook : forall j s0 g, (<[i := s']> (threads c)) !! j = Some s0 ->
            decidingFor g s0 -> j <> i /\ threads c !! j = Some s0).
  { intros j s0 g Hj Hd. destruct (decide (j = i)) as [->|Hne].
    - exfalso. apply list_lookup_insert_Some in Hj as [(_ & <- & _)|[Hne _]];
        [exact (Hnd g Hd)|congruence].
    - split; [exact Hne|]. rewrite list_lookup_insert_ne in Hj by congruence. exact Hj. }
  split; [apply Hok, Hw|]. split; [|split]; cbn.
  - apply Forall_insert; assumption.
  - intros g j1 j2 s1 s2 H1 H2 Hd1 Hd2. cbn in H1, H2.
    destruct (Hlook _ _ _ H1 Hd1) as [_ H1'].
    destruct (Hlook _ _ _ H2 Hd2) as [_ H2'].
    eapply Hone; eassumption.
  - intros g j s0 tok Hj Hd Htok. cbn in *.
    destruct (Hlook _ _ _ Hj Hd) as [Hne Hj'].
    eapply tokens_kept_tracked; [exact Hkept| |eapply Htr; eassumption].
    intros Hg. apply Hne. symmetry. eapply (Hone g i j); eauto.
Qed.

Lemma sched_initial_inv c : sched_initial c -> schedInv c.
Proof.
  intros [(Hths & Htm & Hnext) Hctl]. split; [split|].
  - split; [|split].
    + intros g. unfold pendingTimers. rewrite Htm. cbn. lia.
    + intros t g d Hin. rewrite Htm in Hin. apply elem_of_nil in Hin. contradiction.
    + exact Hnext.
  - intros g Hp. rewrite Hctl. apply lookup_empty.
  - unfold one_decision, tokens_tracked. rewrite Hths.
    split; [constructor|]. split.
    + intros g i j s s' Hi. rewrite lookup_nil in Hi. discriminate.
    + intros g i s tok Hi. rewrite lookup_nil in Hi. discriminate.
Qed.

Abbreviation schedStep :=
  (sched_step messageMapKey filterMessagesForAgent buildGroupChatSystemPrompt
     LOADING_FLAT CreateMessageError).
Abbreviation schedReachable :=
  (sched_reachable messageMapKey filterMessagesForAgent buildGroupChatSystemPrompt
     LOADING_FLAT CreateMessageError).

Lemma sched_step_inv c c' : schedInv c -> schedStep c c' -> schedInv c'.
Proof.
  intros Hinv Hstep.
  destruct Hstep as [params c|g c|g c|c|t g d c Hin Hna|env i j s c Henv Hi|w' c Hsame].
  - unfold spawn_thread.
    destruct (seg_async_sound (world c) (world c) _ (sendGroupMessage_seg params (world c)))
      as (HG & Hs & Hnd).
    eapply sched_inv_spawn; [exact Hinv|exact HG|exact Hs|discriminate|].
    intros g Hd. exfalso. exact (Hnd g Hd).
  - apply sched_inv_world; [exact Hinv|apply guar_trigger].
  - apply sched_inv_world; [exact Hinv|apply guar_cancel].
  - apply sched_inv_world; [exact Hinv|apply guar_cancelAll].
  - unfold spawn_thread. cbn [world threads].
    pose proof Hinv as (Hw & Hths & Hone & Htr).
    destruct (callback_start g t d (world c) Hw Hin) as [HG Hstate].
    assert (Hfree : forall s0, s0 ∈ threads c -> ~ decidingFor g s0).
    { intros s0 Hs0 Hd.
      apply list_elem_of_lookup_1 in Hs0 as Hs0'. destruct Hs0' as [i Hi].
      destruct s0 as [o|X c0 k|cs k]; try contradiction.
      destruct c0; try contradiction. cbn in Hd.
      destruct (Htr g i _ (ctxAbortController ctx) Hi Hd eq_refl) as [Hreg|Hab].
      - destruct Hw as [_ Hk]. rewrite Hk in Hreg; [discriminate|].
        intros Hnil.
        assert (Hp : (t, (g, d)) ∈ pendingTimers g (world c)).
        { unfold pendingTimers. apply list_elem_of_filter. split; [reflexivity|exact Hin]. }
        rewrite Hnil in Hp. apply elem_of_nil in Hp. contradiction.
      - eapply Hna; [exact Hs0|exact Hd|reflexivity|exact Hab]. }
    eapply (sched_inv_spawn c _ _ (Some g)); [exact Hinv|exact HG| | |].
    + destruct Hstate as [[o ->]|(ctx & -> & <- & _)]; constructor.
    + intros g' s0 [= <-]. apply Hfree.
    + intros g' Hd. destruct Hstate as [[o Ho]|(ctx & Hctx & Hg & Hreg)].
      * rewrite Ho in Hd. contradiction.
      * rewrite Hctx in Hd |- *. cbn in Hd. subst g'. rewrite Hg.
        split; [reflexivity|]. exists (ctxAbortController ctx). split; [reflexivity|exact Hreg].
  - pose proof Hinv as (_ & Hths & _ & _).
    assert (Hs : threadInv s).
    { eapply Forall_forall; [exact Hths|]. eapply list_elem_of_lookup_2, Hi. }
    destruct (resume_thread_sound env j s (world c) Henv Hs) as (ex & HG & Hs' & Hnd & Hex).
    eapply sched_inv_resume; eassumption.
  - apply sched_inv_world; [exact Hinv|apply same_tokens_guar, Hsame].
Qed.

Lemma sched_reachable_inv c : schedReachable c -> schedInv c.
Proof.
  induction 1 as [c Hinit|c c' _ IH Hstep].
  - apply sched_initial_inv, Hinit.
  - eapply sched_step_inv; eassumption.
Qed.

Lemma sched_reachable_reachable c :
  schedReachable c ->
  reachable messageMapKey filterMessagesForAgent buildGroupChatSystemPrompt
    LOADING_FLAT CreateMessageError c.
Proof.
  induction 1 as [c [Hinit _]|c c' _ IH Hstep].
  - apply reachable_init, Hinit.
  - eapply reachable_step; [exact IH|].
    destruct Hstep as [params c|g c|g c|c|t g d c Hin Hna|env i j s c Henv Hi|w' c Hsame].
    + apply step_send.
    + apply step_trigger.
    + apply step_cancel.
    + apply step_cancelAll.
    + eapply step_fire, Hin.
    + apply step_resume; [|exact Hi]. intros X c0 w. apply Henv.
    + apply step_elsewhere, Hsame.
Qed.

Lemma one_decision_length c g :
  one_decision c -> List.length (inFlightDecisions g c) <= 1.
Proof.
  unfold one_decision, inFlightDecisions. generalize (threads c) as l.
  induction l as [|s l IH]; intros Hone; [cbn; lia|].
  destruct (decide (decidingFor g s)) as [Hd|Hd].
  - rewrite filter_cons_True by exact Hd.
    assert (Hnil : filter (decidingFor g) l = []).
    { destruct (filter (decidingFor g) l) as [|s' r] eqn:Hf; [reflexivity|].
      assert (Hs' : s' ∈ filter (decidingFor g) l) by (rewrite Hf; left).
      apply list_elem_of_filter in Hs' as [Hd' Hs'].
      apply list_elem_of_lookup_1 in Hs' as [j Hj].
      specialize (Hone g 0 (S j) s s' eq_refl Hj Hd Hd'). discriminate. }
    rewrite Hnil. cbn. lia.
  - rewrite filter_cons_False by exact Hd. apply IH.
    intros g' i j s1 s2 Hi Hj Hd1 Hd2.
    specialize (Hone g' (S i) (S j) s1 s2 Hi Hj Hd1 Hd2). lia.
Qed.

Abbreviation reachableCfg :=
  (reachable messageMapKey filterMessagesForAgent buildGroupChatSystemPrompt
     LOADING_FLAT CreateMessageError).

(** C1: in every reachable configuration a group has at most one pending
    debounce timer, and it is the one registered for the group; at most
    one call is suspended in the decision function for the group when
    no debounce callback of a group runs while an aborted decision call
    of that group is still pending; arming a trigger first runs the
    whole per-group cancel (the registered timer is cleared and
    unregistered, the registered token aborted and unregistered) and
    only then schedules, so that after one call exactly the new timer
    is pending for the group, and after two calls in a row exactly the
    timer of the second call is. *)
Theorem trigger_single_slot c g :
  reachableCfg c ->
  let w := world c in
  let w1 := internal_triggerSupervisorDecisionDebounced g w in
  let w2 := internal_triggerSupervisorDecisionDebounced g w1 in
  let delay := getDebounceThreshold (configuredSpeed w) in
  List.length (pendingTimers g w) <= 1
  /\ (forall t d, (t, (g, d)) ∈ timeouts (rt w) ->
                  supervisorDebounceTimers (store w) !! g = Some t)
  /\ (schedReachable c -> List.length (inFlightDecisions g c) <= 1)
  /\ trace (rt w1) =
     trace (rt (internal_cancelSupervisorDecision g
                  (console_log
                     ("Supervisor decision debounced triggered for group " +:+ g) w)))
     ++ [EConsole LevelLog (thresholdMessage delay (configuredSpeed w)) None;
         ESetTimeout (nextTimer (rt w)) g delay;
         EAction ("setSupervisorTimer/" +:+ g)]
  /\ (forall p, p ∈ pendingTimers g w -> p ∉ timeouts (rt w1))
  /\ (forall c0, supervisorDecisionAbortControllers (store w) !! g = Some c0 ->
                 c0 ∈ abortedSignals (rt w1))
  /\ supervisorDecisionAbortControllers (store w1) !! g = None
  /\ liveTokens g w1 = []
  /\ supervisorDebounceTimers (store w1) !! g = Some (nextTimer (rt w))
  /\ pendingTimers g w1 = [(nextTimer (rt w), (g, delay))]
  /\ supervisorDebounceTimers (store w2) !! g = Some (S (nextTimer (rt w)))
  /\ pendingTimers g w2 = [(S (nextTimer (rt w)), (g, delay))].
Proof.
  intros Hreach w w1 w2 delay.
  destruct (reachable_config_ok _ _ _ _ _ c Hreach) as [Hok _]. fold w in Hok.
  assert (Hok1 : registry_ok w1) by (apply trigger_registry_ok, Hok).
  pose proof Hok as (Hlen & Hreg & Hnext).
  repeat split.
  - apply Hlen.
  - intros t d Hin. destruct (Hreg _ _ _ Hin) as (Ht & _). exact Ht.
  - intros Hs. apply one_decision_length.
    destruct (sched_reachable_inv c Hs) as (_ & _ & Hone & _). exact Hone.
  - apply trigger_trace.
  - intros [t [g' d]] Hp Hin.
    pose proof Hp as Hp'. unfold pendingTimers in Hp'.
    apply list_elem_of_filter in Hp' as [Hg Hp']. cbn in Hg. subst g'.
    destruct (Hreg _ _ _ Hp') as (_ & _ & Hlt).
    assert (Hx : (t, (g, d)) ∈ pendingTimers g w1).
    { unfold pendingTimers. apply list_elem_of_filter. split; [reflexivity|exact Hin]. }
    unfold w1 in Hx. rewrite trigger_pendingTimers in Hx by exact Hok.
    apply list_elem_of_singleton in Hx. injection Hx as Ht _.
    fold w in Hlt. lia.
  - intros c0 Hc0. unfold w1. rewrite trigger_aborted, Hc0.
    apply elem_of_union_l, elem_of_singleton. reflexivity.
  - unfold w1. rewrite trigger_controllers. apply lookup_delete_eq.
  - apply trigger_liveTokens.
  - unfold w1. rewrite trigger_timers. apply lookup_insert_eq.
  - apply trigger_pendingTimers, Hok.
  - unfold w2, w1. rewrite trigger_timers, trigger_nextTimer. apply lookup_insert_eq.
  - unfold w2. rewrite trigger_pendingTimers by exact Hok1.
    unfold w1, delay. rewrite trigger_nextTimer, trigger_configuredSpeed. reflexivity.
Qed.
End ScheduledInvariant.

(** *** The contract of the decision function is needed

    When a superseded decision call is still pending while the next
    callback of its group fires, its [finally] block unregisters the token
    of its successor, the next trigger finds no token to abort, and two
    calls of the group are suspended in the decision function, neither of
    them aborted. *)
Lemma quietCollaborators_keeps_registry : keeps_registry quietCollaborators.
Proof. intros X c w. destruct c; repeat split. Qed.

Lemma firstDecision_lookup :
  threads (fired 2 (triggered decidingConfig)) !! 0 = Some firstDecision.
Proof.
  unfold fired, triggered, decidingConfig, spawn_thread, firstDecision.
  cbv beta zeta iota delta [world threads app].
  reflexivity.
Qed.

Lemma unheeded_abort_overlap :
  reachable scopedKey (fun l _ => l) (fun _ _ _ _ => "prompt") loadingSentinel
    "CreateMessageError" unheededConfig
  /\ omap decisionToken (inFlightDecisions "g" unheededConfig) = [2; 3]
  /\ abortedSignals (rt (world unheededConfig)) = {[ 1 ]}.
Proof.
  assert (H0 : reachable scopedKey (fun l _ => l) (fun _ _ _ _ => "prompt") loadingSentinel
                 "CreateMessageError" (mkConfig idleWorld [])).
  { apply reachable_init. split; [reflexivity|]. split; [reflexivity|]. cbn. lia. }
  pose proof (reachable_step _ _ _ _ _ _ _ H0
                (step_trigger _ _ _ _ _ "g" (mkConfig idleWorld []))) as H1.
  assert (H2 : reachable scopedKey (fun l _ => l) (fun _ _ _ _ => "prompt") loadingSentinel
                 "CreateMessageError" decidingConfig).
  { refine (reachable_step _ _ _ _ _ _ _ H1 (step_fire _ _ _ _ _ 1 "g" 3000%Z _ _)).
    apply list_elem_of_In. vm_compute. left. reflexivity. }
  pose proof (reachable_step _ _ _ _ _ _ _ H2
                (step_trigger _ _ _ _ _ "g" decidingConfig)) as H3.
  assert (H4 : reachable scopedKey (fun l _ => l) (fun _ _ _ _ => "prompt") loadingSentinel
                 "CreateMessageError" (fired 2 (triggered decidingConfig))).
  { refine (reachable_step _ _ _ _ _ _ _ H3 (step_fire _ _ _ _ _ 2 "g" 3000%Z _ _)).
    apply list_elem_of_In. vm_compute. left. reflexivity. }
  pose proof (reachable_step _ _ _ _ _ _ _ H4
                (step_resume _ _ _ _ _ quietCollaborators 0 0 firstDecision _
                   quietCollaborators_keeps_registry firstDecision_lookup)) as H5.
  pose proof (reachable_step _ _ _ _ _ _ _ H5 (step_trigger _ _ _ _ _ "g" _)) as H6.
  split.
  - refine (reachable_step _ _ _ _ _ _ _ H6 (step_fire _ _ _ _ _ 3 "g" 3000%Z _ _)).
    apply list_elem_of_In. vm_compute. left. reflexivity.
  - split; vm_compute; reflexivity.
Qed.

Lemma abortingSupervisor_keeps_registry : keeps_registry abortingSupervisor.
Proof. intros X c w. destruct c; repeat split. Qed.

(** C1 fails as stated, even when the decision function honours its
    token.  The first decision call of group [g] is superseded by a
    trigger (its token [1] is aborted) and the callback of the new timer
    runs before the rejection of the first call is delivered.  When the
    first call then rejects with its [AbortError], its [finally] block
    unregisters the token registered for the group, which is token [2] of
    the second call; the next trigger finds no token to abort, and once
    its callback has run two calls of [g] are suspended in the decision
    function, with the tokens [2] and [3], neither of them aborted. *)
Lemma late_abort_overlap :
  reachable scopedKey (fun l _ => l) (fun _ _ _ _ => "prompt") loadingSentinel
    "CreateMessageError" lateAbortConfig
  /\ map stage (threads lateAbortConfig) = [Settled; InDecision "g"; InDecision "g"]
  /\ omap decisionToken (inFlightDecisions "g" lateAbortConfig) = [2; 3]
  /\ abortedSignals (rt (world lateAbortConfig)) = {[ 1 ]}
  /\ 1 < List.length (inFlightDecisions "g" lateAbortConfig).
Proof.
  assert (H0 : reachable scopedKey (fun l _ => l) (fun _ _ _ _ => "prompt") loadingSentinel
                 "CreateMessageError" (mkConfig idleWorld [])).
  { apply reachable_init. split; [reflexivity|]. split; [reflexivity|]. cbn. lia. }
  pose proof (reachable_step _ _ _ _ _ _ _ H0
                (step_trigger _ _ _ _ _ "g" (mkConfig idleWorld []))) as H1.
  assert (H2 : reachable scopedKey (fun l _ => l) (fun _ _ _ _ => "prompt") loadingSentinel
                 "CreateMessageError" decidingConfig).
  { refine (reachable_step _ _ _ _ _ _ _ H1 (step_fire _ _ _ _ _ 1 "g" 3000%Z _ _)).
    apply list_elem_of_In. vm_compute. left. reflexivity. }
  pose proof (reachable_step _ _ _ _ _ _ _ H2
                (step_trigger _ _ _ _ _ "g" decidingConfig)) as H3.
  assert (H4 : reachable scopedKey (fun l _ => l) (fun _ _ _ _ => "prompt") loadingSentinel
                 "CreateMessageError" (fired 2 (triggered decidingConfig))).
  { refine (reachable_step _ _ _ _ _ _ _ H3 (step_fire _ _ _ _ _ 2 "g" 3000%Z _ _)).
    apply list_elem_of_In. vm_compute. left. reflexivity. }
  pose proof (reachable_step _ _ _ _ _ _ _ H4
                (step_resume _ _ _ _ _ abortingSupervisor 0 0 firstDecision _
                   abortingSupervisor_keeps_registry firstDecision_lookup)) as H5.
  pose proof (reachable_step _ _ _ _ _ _ _ H5 (step_trigger _ _ _ _ _ "g" _)) as H6.
  split.
  - refine (reachable_step _ _ _ _ _ _ _ H6 (step_fire _ _ _ _ _ 3 "g" 3000%Z _ _)).
    apply list_elem_of_In. vm_compute. left. reflexivity.
  - split; [vm_compute; reflexivity|]. split; [vm_compute; reflexivity|].
    split; [vm_compute; reflexivity|]. vm_compute. lia.
Qed.

(** ** [internal_cancelAllSupervisorDecisions] and the loading flags *)

(** C5, as stated, fails: [busyWorld] tracks group [g] with its loading
    flag set; the flag is still set after the global cancel, while the
    per-group cancel clears it. *)
Lemma cancelAll_keeps_loading_flag :
  tracked "g" busyWorld
  /\ loadingFlag "g" busyWorld = true
  /\ loadingFlag "g" (internal_cancelAllSupervisorDecisions busyWorld) = true
  /\ loadingFlag "g" (internal_cancelSupervisorDecision "g" busyWorld) = false.
Proof.
  split; [left; exists 1; reflexivity|].
  split; [reflexivity|]. split; [|apply cancel_loadingFlag].
  unfold loadingFlag. rewrite cancelAll_loading. reflexivity.
Qed.

(** C5 (amended): the global cancel clears every pending timer tracked by
    the registry, aborts every tracked token and leaves both maps of the
    registry empty; in a registry that satisfies the invariant no debounce
    callback is pending afterwards. *)
Theorem cancelAll_clears_registry w :
  let w' := internal_cancelAllSupervisorDecisions w in
  supervisorDebounceTimers (store w') = ∅
  /\ supervisorDecisionAbortControllers (store w') = ∅
  /\ (forall g t, supervisorDebounceTimers (store w) !! g = Some t -> t <> 0 ->
        forall p, p ∈ timeouts (rt w') -> fst p <> t)
  /\ (forall g c, supervisorDecisionAbortControllers (store w) !! g = Some c ->
        c ∈ abortedSignals (rt w'))
  /\ (registry_ok w -> timeouts (rt w') = []).
Proof.
  cbv zeta. split; [apply cancelAll_timers|]. split; [apply cancelAll_controllers|].
  split; [|split].
  - intros g t Ht Hnz p Hp. apply cancelAll_timeouts in Hp as [_ Hall].
    apply (Hall g t Ht). apply truthy_num_true. exact Hnz.
  - intros g c Hc. eapply cancelAll_aborted. exact Hc.
  - apply cancelAll_no_timeouts.
Qed.

Lemma busyWorld_registry_ok : registry_ok busyWorld.
Proof.
  split; [|split].
  - intros g. unfold pendingTimers. etransitivity; [apply length_filter|]. cbn. lia.
  - intros t g d Hin. cbn in Hin. apply list_elem_of_singleton in Hin.
    injection Hin as -> -> ->. cbn. split; [reflexivity|lia].
  - cbn. lia.
Qed.

Lemma cancelAll_clears_registry_witness :
  supervisorDebounceTimers (store (internal_cancelAllSupervisorDecisions busyWorld)) = ∅
  /\ (forall p, p ∈ timeouts (rt (internal_cancelAllSupervisorDecisions busyWorld)) ->
        fst p <> 1)
  /\ 1 ∈ abortedSignals (rt (internal_cancelAllSupervisorDecisions busyWorld))
  /\ timeouts (rt (internal_cancelAllSupervisorDecisions busyWorld)) = [].
Proof.
  destruct (cancelAll_clears_registry busyWorld) as (H1 & _ & H3 & H4 & H5).
  split; [exact H1|]. split; [|split].
  - apply (H3 "g" 1); [reflexivity|lia].
  - apply (H4 "g" 1). reflexivity.
  - apply H5. exact busyWorld_registry_ok.
Defined.

(** ** The guard of the supervisor decision run and [sendGroupMessage] *)

Lemma dropWhile_nil {A} (f : A -> bool) l : dropWhile f l = [] <-> forallb f l = true.
Proof.
  induction l as [|x l IH]; cbn; [tauto|].
  destruct (f x); cbn; [exact IH|]. split; discriminate.
Qed.

Lemma forallb_rev {A} (f : A -> bool) l : forallb f (rev l) = forallb f l.
Proof.
  induction l as [|x l IH]; cbn; [reflexivity|].
  rewrite forallb_app, IH. cbn. rewrite andb_true_r. apply andb_comm.
Qed.

Lemma dropWhile_head {A} (f : A -> bool) l x r : dropWhile f l = x :: r -> f x = false.
Proof.
  induction l as [|y l IH]; cbn; [discriminate|].
  destruct (f y) eqn:Hy; [exact IH|]. intros [= <- <-]. exact Hy.
Qed.

Lemma chars_nonempty s : Forall (fun ch => ch <> "") (chars s).
Proof.
  induction s as [|c s IH]; cbn; [constructor|].
  destruct (chars s) as [|[|c' r'] chs].
  - repeat constructor. discriminate.
  - constructor; [discriminate|exact IH].
  - destruct (is_continuation c').
    + inversion IH; subst. constructor; [discriminate|assumption].
    + constructor; [discriminate|exact IH].
Qed.

Lemma dropWhile_suffix {A} (f : A -> bool) l : exists p, l = p ++ dropWhile f l.
Proof.
  induction l as [|x l [p IH]]; cbn; [exists []; reflexivity|].
  destruct (f x); [exists (x :: p); cbn; congruence|exists []; reflexivity].
Qed.

Lemma concat_nonempty l : Forall (fun ch => ch <> "") l -> foldr String.append "" l = "" -> l = [].
Proof.
  destruct l as [|[|c r] l]; [reflexivity| |]; intros H; inversion H; subst.
  - congruence.
  - cbn. discriminate.
Qed.

(** [trim] leaves nothing exactly of the texts that are empty or white
    space only. *)
Lemma trim_blank_iff s : trim s = "" <-> all_whitespace s = true.
Proof.
  unfold trim, all_whitespace. cbv zeta. split.
  - intros H. apply concat_nonempty in H.
    + apply (f_equal (@rev string)) in H. rewrite rev_involutive in H. cbn in H.
      apply dropWhile_nil in H. rewrite forallb_rev in H.
      destruct (dropWhile js_whitespace (chars s)) as [|x r] eqn:Hd.
      * apply dropWhile_nil, Hd.
      * apply dropWhile_head in Hd.
        change (js_whitespace x && forallb js_whitespace r = true) in H.
        rewrite Hd in H. discriminate.
    + destruct (dropWhile_suffix js_whitespace (chars s)) as [p Hp].
      pose proof (chars_nonempty s) as Hne. rewrite Hp in Hne.
      apply Forall_app in Hne as [_ Hne].
      apply Forall_forall. intros ch Hin. 
      rewrite Forall_forall in Hne. apply Hne.
      apply list_elem_of_In in Hin. apply list_elem_of_In.
      apply in_rev in Hin.
      destruct (dropWhile_suffix js_whitespace (rev (dropWhile js_whitespace (chars s)))) as [q Hq].
      apply in_rev. rewrite Hq. apply in_or_app. right. exact Hin.
  - intros H. apply dropWhile_nil in H. rewrite H. reflexivity.
Qed.

(** [trim] on samples: white space of every kind goes at both ends;
    white space inside the text and the zero width space (U+200B), which
    is no white space, stay. *)
Lemma trim_samples :
  trim (blankMessage +:+ "a b" +:+ blankMessage) = "a b"
  /\ trim blankMessage = ""
  /\ trim (utf8 [226; 128; 139]) = utf8 [226; 128; 139]
  /\ chars ("a" +:+ utf8 [227; 128; 128] +:+ "b") = ["a"; utf8 [227; 128; 128]; "b"].
Proof.
  split; [vm_compute; reflexivity|]. split; [vm_compute; reflexivity|].
  split; vm_compute; reflexivity.
Qed.

Lemma trim_all_whitespace s : all_whitespace s = true -> trim s = "".
Proof. apply trim_blank_iff. Qed.

Lemma truthy_trim s : truthy_str (trim s) = negb (all_whitespace s).
Proof.
  destruct (all_whitespace s) eqn:H.
  - rewrite (trim_all_whitespace _ H). reflexivity.
  - destruct (trim s) eqn:Ht; [|reflexivity].
    apply trim_blank_iff in Ht. congruence.
Qed.

Lemma elem_of_snoc_ne {A} (l : list A) (x y : A) : x ∈ l ++ [y] -> x <> y -> x ∈ l.
Proof.
  intros Hin Hne. apply elem_of_app in Hin as [Hin|Hin]; [exact Hin|].
  apply list_elem_of_singleton in Hin. contradiction.
Qed.

(** Drop from a membership in a trace the events that cannot be meant. *)
Ltac trace_strip H := repeat (apply elem_of_snoc_ne in H; [|discriminate]).

Lemma last_nonempty_length {A} (l : list A) x : last l = Some x -> List.length l <> 0.
Proof. destruct l; cbn; [discriminate|lia]. Qed.

Lemma shouldAvoid_midToolCall messages m :
  last messages = Some m ->
  msgRole m = RoleTool
  \/ (msgRole m = RoleAssistant
      /\ exists tools, msgTools m = Some tools /\ tools <> []) ->
  shouldAvoidSupervisorDecision messages = true.
Proof.
  intros Hlast Hm. unfold shouldAvoidSupervisorDecision.
  destruct (Nat.eqb (List.length messages) 0); [reflexivity|].
  rewrite Hlast. destruct Hm as [Htool|(Hass & tools & Htools & Hne)].
  - destruct (isToolCallMessage m); [reflexivity|].
    rewrite bool_decide_eq_true_2 by exact Htool. reflexivity.
  - unfold isToolCallMessage. rewrite Htools, bool_decide_eq_true_2 by exact Hass.
    destruct tools; [contradiction|reflexivity].
Qed.

Section Guards.
Variable messageMapKey : string -> option string -> string.
Variable filterMessagesForAgent : list ChatMessage -> string -> list ChatMessage.
Variable buildGroupChatSystemPrompt :
  list GroupMemberInfo -> string -> string -> list ChatMessage -> string.
Variable LOADING_FLAT : string.
Variable CreateMessageError : string.

Abbreviation triggerSupervisorDecision' :=
  (internal_triggerSupervisorDecision messageMapKey filterMessagesForAgent
     buildGroupChatSystemPrompt LOADING_FLAT CreateMessageError).

(** C3: when the history of the group is empty, or its last message has
    role [tool] or is an assistant message with a non-empty tool-call
    list, the supervisor decision run returns at once: the store is
    unchanged (no token registered, loading flag as it was), no
    [AbortController] is created and no request leaves the slice, in
    particular not the decision call; at most the skip is logged. *)
Theorem supervisorDecision_guard g w :
  history messageMapKey g w = []
  \/ (exists m, last (history messageMapKey g w) = Some m
                /\ (msgRole m = RoleTool
                    \/ (msgRole m = RoleAssistant
                        /\ exists tools, msgTools m = Some tools /\ tools <> []))) ->
  let r := advance_async (triggerSupervisorDecision' g) w in
  snd r = Done (Fulfilled tt)
  /\ store (fst r) = store w
  /\ loadingFlag g (fst r) = loadingFlag g w
  /\ nextController (rt (fst r)) = nextController (rt w)
  /\ abortedSignals (rt (fst r)) = abortedSignals (rt w)
  /\ (forall X (c : Call X), ERequest c ∈ trace (rt (fst r)) -> ERequest c ∈ trace (rt w))
  /\ (forall a, EAction a ∈ trace (rt (fst r)) -> EAction a ∈ trace (rt w))
  /\ (fst r = w
      \/ fst r =
         console_log
           "Skipping supervisor decision - waiting for tool calling sequence to complete" w).
Proof.
  intros Hguard. cbv zeta. unfold internal_triggerSupervisorDecision.
  unfold history in Hguard. unfold advance_async. cbn [advance].
  destruct Hguard as [Hnil|(m & Hlast & Hm)].
  - rewrite Hnil. cbn. repeat split; auto.
  - pose proof (last_nonempty_length _ _ Hlast) as Hlen.
    apply Nat.eqb_neq in Hlen. rewrite Hlen.
    rewrite (shouldAvoid_midToolCall _ m Hlast Hm). cbn.
    repeat split; auto.
    + intros X c Hin. trace_strip Hin. exact Hin.
    + intros a Hin. trace_strip Hin. exact Hin.
Qed.

(** C9: a message that is empty or white space only (any of the
    characters that [trim] removes), with no files, makes
    [sendGroupMessage] return at once and leave the world as it was: no
    message is created, nothing is armed and the [isCreatingMessage]
    flag is never set. *)
Theorem sendGroupMessage_blank_noop params w :
  all_whitespace (sgMessage params) = true ->
  sgFiles params = None \/ sgFiles params = Some [] ->
  advance_task (sendGroupMessage params) w = (w, Done (Fulfilled tt))
  /\ forall env, run_task env (sendGroupMessage params) w = (w, Fulfilled tt).
Proof.
  intros Hws Hfiles. unfold sendGroupMessage, advance_task. cbn [advance run_task].
  rewrite (trim_all_whitespace _ Hws).
  destruct Hfiles as [-> | ->]; cbn; auto.
Qed.

(** C10: with [onlyAddUserMessage], a call that passes the guard of
    blank calls (its message keeps a character under [trim], or it
    carries a file) creates the user message, and whatever the outcome
    of the creation the call settles with the [isCreatingMessage] flag
    cleared and without arming the scheduler: no [setTimeout], the
    pending callbacks and the timer registry are those of the world in
    which the call was resumed. *)
Theorem sendGroupMessage_onlyAddUserMessage params w :
  sgOnlyAddUserMessage params = Some true ->
  truthy_str (trim (sgMessage params)) = true
  \/ (exists f fs, sgFiles params = Some (f :: fs)) ->
  let w1 :=
    emit (ERequest (CreateMessage (userMessageOf params w)))
      (store_set (set_isCreatingMessage true) "creatingGroupMessage/start"
         (internal_setActiveGroup (sgGroupId params) w)) in
  exists k,
    advance_task (sendGroupMessage params) w
    = (w1, Blocked (CreateMessage (userMessageOf params w)) k)
    /\ timeouts (rt w1) = timeouts (rt w)
    /\ forall (o : Outcome (option string)) (w2 : World),
         let r := advance_task (k o) w2 in
         snd r = Done (Fulfilled tt)
         /\ isCreatingMessage (store (fst r)) = false
         /\ timeouts (rt (fst r)) = timeouts (rt w2)
         /\ nextTimer (rt (fst r)) = nextTimer (rt w2)
         /\ supervisorDebounceTimers (store (fst r)) = supervisorDebounceTimers (store w2)
         /\ (forall t g d, ESetTimeout t g d ∈ trace (rt (fst r)) ->
                           ESetTimeout t g d ∈ trace (rt w2))
         /\ fst r =
            store_set (set_isCreatingMessage false) "creatingGroupMessage/end"
              match o with
              | Fulfilled _ =>
                  store_set (set_isCreatingMessage false) "creatingGroupMessage/onlyUser" w2
              | Rejected e => console_error "Failed to send group message:" (Some e) w2
              end.
Proof.
  intros Honly Hsend. cbv zeta.
  unfold sendGroupMessage, advance_task. cbn [advance].
  assert (Hcond : negb (truthy_str (trim (sgMessage params)))
                  && match sgFiles params with
                     | Some fs => Nat.eqb (List.length fs) 0
                     | None => true
                     end = false).
  { destruct Hsend as [-> | (f & fs & ->)]; [reflexivity|]. apply andb_false_r. }
  rewrite Hcond. cbn. eexists. split; [reflexivity|]. split; [reflexivity|].
  intros [x|e] w2; cbn.
  - rewrite Honly. cbn. repeat split; auto.
    intros t g d Hin. trace_strip Hin. exact Hin.
  - repeat split; auto.
    intros t g d Hin. trace_strip Hin. exact Hin.
Qed.
End Guards.

(** ** The supervisor decision run past its guard *)

Lemma wp_trivial (p : Task) w :
  task_wp (fun _ => True) (fun _ => True) w p.
Proof.
  unfold task_wp.
  revert w. induction p as [|e|k IH|w' k IH|X c k IH|[] k IH]; intros w.
  - apply wp_Ret. split; exact Logic.I.
  - apply wp_Throw. split; exact Logic.I.
  - apply wp_Get. apply IH.
  - apply wp_Put. apply IH.
  - apply wp_Await; [exact Logic.I|]. intros o w' _. apply IH.
Qed.

Lemma okTasks_trivial (ts : list Task) : okTasks (fun _ => True) (fun _ => True) ts.
Proof.
  apply Forall_forall. intros t _ w _. apply wp_trivial.
Qed.

Lemma shouldAvoid_false_length messages :
  shouldAvoidSupervisorDecision messages = false ->
  Nat.eqb (List.length messages) 0 = false.
Proof.
  unfold shouldAvoidSupervisorDecision.
  destruct (Nat.eqb (List.length messages) 0); [discriminate|reflexivity].
Qed.

Section DecisionRun.
Variable messageMapKey : string -> option string -> string.
Variable filterMessagesForAgent : list ChatMessage -> string -> list ChatMessage.
Variable buildGroupChatSystemPrompt :
  list GroupMemberInfo -> string -> string -> list ChatMessage -> string.
Variable LOADING_FLAT : string.
Variable CreateMessageError : string.

Abbreviation triggerSupervisorDecision'' :=
  (internal_triggerSupervisorDecision messageMapKey filterMessagesForAgent
     buildGroupChatSystemPrompt LOADING_FLAT CreateMessageError).

Lemma finally_cleanedUp g w : cleanedUp g (supervisorDecision_finally g w).
Proof.
  split.
  - exact (toggle_off_flag g w).
  - cbn. apply lookup_delete_eq.
Qed.

Lemma triggerSupervisorDecision_cleans g w :
  shouldAvoidSupervisorDecision (history messageMapKey g w) = false ->
  async_wp (fun _ => True) (fun _ => True) (fun w _ => cleanedUp g w) w (triggerSupervisorDecision'' g).
Proof.
  intros Havoid. pose proof (shouldAvoid_false_length _ Havoid) as Hlen.
  unfold history in Havoid, Hlen.
  unfold async_wp, internal_triggerSupervisorDecision.
  apply wp_Get. cbv beta zeta. rewrite Hlen, Havoid.
  unfold supervisorDecision_catch, internal_executeAgentResponses.
  wp_start; repeat wp_step;
    try exact Logic.I; try apply finally_cleanedUp; apply okTasks_trivial.
Qed.

(** C4: past the guard, every completion of the supervisor decision run
    (whatever the collaborators answer and however the batch is
    scheduled) leaves the loading flag of the group cleared and its
    token removed from the registry.  When the decision call fails with
    an [AbortError] the run logs at the informational level, runs its
    [finally] block and returns: no request (no placeholder message, no
    completion) leaves the slice, nothing is armed and no error is
    logged.  Any other failure is logged as an error and an empty
    decision list executes nothing; both end in the same [finally]. *)
Theorem supervisorDecision_cleanup g w :
  shouldAvoidSupervisorDecision (history messageMapKey g w) = false ->
  let r0 := advance_async (triggerSupervisorDecision'' g) w in
  (forall env sched o,
      snd (run_sched env sched (snd r0) (fst r0)) = Done o ->
      cleanedUp g (fst (run_sched env sched (snd r0) (fst r0))))
  /\ (currentGroupConfig (ext w) = None ->
      snd r0 = Done (Fulfilled tt) /\ cleanedUp g (fst r0))
  /\ (forall cfg, currentGroupConfig (ext w) = Some cfg ->
      exists ctx k,
        snd r0 = Blocked (MakeDecision ctx) k
        /\ ctxAbortController ctx = nextController (rt w)
        /\ supervisorDecisionAbortControllers (store (fst r0)) !! g
           = Some (nextController (rt w))
        /\ forall w2,
             (forall e, isError e = true -> errName e = "AbortError" ->
                let wa :=
                  supervisorDecision_finally g
                    (console_log ("Supervisor decision was aborted for group: " +:+ g) w2) in
                advance_async (k (Rejected e)) w2 = (wa, Done (Fulfilled tt))
                /\ cleanedUp g wa
                /\ (forall X (c : Call X),
                      ERequest c ∈ trace (rt wa) -> ERequest c ∈ trace (rt w2))
                /\ (forall m e',
                      EConsole LevelError m e' ∈ trace (rt wa) ->
                      EConsole LevelError m e' ∈ trace (rt w2))
                /\ timeouts (rt wa) = timeouts (rt w2))
             /\ (forall e, isError e && String.eqb (errName e) "AbortError" = false ->
                   advance_async (k (Rejected e)) w2
                   = (supervisorDecision_finally g
                        (console_error "Supervisor decision failed:" (Some e) w2),
                      Done (Fulfilled tt)))
             /\ advance_async (k (Fulfilled [])) w2
                = (supervisorDecision_finally g (console_log "Supervisor decisions:" w2),
                   Done (Fulfilled tt))).
Proof.
  intros Havoid r0.
  pose proof (triggerSupervisorDecision_cleans g w Havoid) as Hwp.
  pose proof (advance_async_sound (fun _ => True) (fun _ => True) (fun w _ => cleanedUp g w) _ _ Hwp)
    as [Hs0 Hp0].
  fold r0 in Hs0, Hp0.
  split; [|split].
  - intros env sched o Hdone.
    pose proof (run_sched_sound (fun _ => True) (fun _ => True) (fun w _ => cleanedUp g w)
                  env sched (snd r0) (fst r0) (fun _ _ _ _ => Logic.I) Hs0 Hp0)
      as [_ Hp].
    rewrite Hdone in Hp. exact Hp.
  - intros Hcfg. assert (Hd : snd r0 = Done (Fulfilled tt)).
    { pose proof (shouldAvoid_false_length _ Havoid) as Hlen.
      unfold history in Havoid, Hlen.
      unfold r0, internal_triggerSupervisorDecision, advance_async.
      cbn [advance]. rewrite Hlen, Havoid.
      destruct w as [s [sid ags cfgo nick] r]. cbn in Hcfg. subst cfgo. reflexivity. }
    split; [exact Hd|]. rewrite Hd in Hp0. exact Hp0.
  - intros cfg Hcfg.
    pose proof (shouldAvoid_false_length _ Havoid) as Hlen.
    unfold history in Havoid, Hlen.
    unfold r0, internal_triggerSupervisorDecision, advance_async.
    cbn [advance]. rewrite Hlen, Havoid.
    destruct w as [s [sid ags cfgo nick] r]. cbn in Hcfg. subst cfgo. cbn.
    eexists. eexists. split; [reflexivity|]. split; [reflexivity|].
    split; [apply lookup_insert_eq|].
    intros w2. split; [|split].
    + intros [ie en em] He Hn. cbn in He, Hn. subst ie en.
      split; [reflexivity|]. split; [apply finally_cleanedUp|].
      split; [|split].
      * intros X c Hin. trace_strip Hin. exact Hin.
      * intros m e' Hin. trace_strip Hin. exact Hin.
      * reflexivity.
    + intros [ie en em] He. cbn in He.
      destruct ie; cbn in He; cbn; [|reflexivity].
      unfold supervisorDecision_catch. cbn. rewrite He. reflexivity.
    + reflexivity.
Qed.
End DecisionRun.

(** ** The per-agent response task *)

Section AgentTask.
Variable messageMapKey : string -> option string -> string.
Variable filterMessagesForAgent : list ChatMessage -> string -> list ChatMessage.
Variable buildGroupChatSystemPrompt :
  list GroupMemberInfo -> string -> string -> list ChatMessage -> string.
Variable LOADING_FLAT : string.
Variable CreateMessageError : string.

Abbreviation processAgentMessage' :=
  (internal_processAgentMessage messageMapKey filterMessagesForAgent
     buildGroupChatSystemPrompt LOADING_FLAT CreateMessageError).

(** Whatever its collaborators answer, the task never rejects: every
    failure inside ends in its own [catch] block. *)
Lemma processAgentMessage_never_rejects g a t w :
  task_wp (fun _ => True) fulfilled w (processAgentMessage' g a t).
Proof.
  unfold task_wp, internal_processAgentMessage, processAgentMessage_catch.
  wp_start; repeat wp_step; try exact Logic.I; (split; [exact Logic.I|reflexivity]).
Qed.

Lemma processAgentMessage_tasks_never_reject g (ds : list SupervisorDecision) :
  okTasks (fun _ => True) fulfilled
    (map (fun decision => processAgentMessage' g (decisionId decision)
                            (decisionTarget decision)) ds).
Proof.
  apply Forall_forall. intros t Ht.
  apply list_elem_of_fmap in Ht as (d & -> & _).
  intros w _. apply processAgentMessage_never_rejects.
Qed.

(** The [catch] block: the lookup goes to [messagesMap[groupId]] and
    takes the first assistant message of the group that still shows the
    loading sentinel. *)
Lemma processAgentMessage_catch_lookup g a e w :
  advance_task (processAgentMessage_catch LOADING_FLAT CreateMessageError g a e) w =
  (match List.find (isLoadingPlaceholder LOADING_FLAT g)
           (default [] (messagesMap (store w) !! g)) with
   | Some m =>
       emit (EDispatchUpdateMessage (msgId m)
               ("Error: Failed to generate response. " +:+ errorText e)
               CreateMessageError (errorText e))
         (console_error ("Failed to process message for agent " +:+ a +:+ ":") (Some e) w)
   | None =>
       console_error ("Failed to process message for agent " +:+ a +:+ ":") (Some e) w
   end, Done (Fulfilled tt)).
Proof.
  unfold processAgentMessage_catch, advance_task. cbn.
  destruct (List.find _ _); reflexivity.
Qed.

Lemma or_undefined_truthy o : truthy_ostr o = true -> or_undefined o = o.
Proof. unfold or_undefined. intros ->. reflexivity. Qed.

End AgentTask.

(** ** The failure path of the per-agent task on sample inputs *)

(** C6, at the failing input: the task of agent [B] in group [g] creates
    its placeholder [p-B] in the scope of the group and the topic, and its
    completion call fails.  The task catches the failure, logs its cause
    and fulfils, but the lookup under the bare group id finds nothing: no
    message is updated and [p-B] keeps the loading sentinel.  When the
    history is kept under the group id alone, the lookup does not test the
    agent: the placeholder [p-A] of agent [A] is overwritten, and [p-B]
    keeps the loading sentinel. *)
Theorem processAgentMessage_failure_lookup :
  let task key :=
    internal_processAgentMessage key (fun l _ => l) (fun _ _ _ _ => "prompt")
      loadingSentinel "CreateMessageError" "g" "B" None in
  let r1 := run_task (failingCompletion scopedKey) (task scopedKey) idleWorld in
  let r2 := run_task (failingCompletion (fun g _ => g)) (task (fun g _ => g)) bareKeyWorld in
  snd r1 = Fulfilled tt
  /\ history scopedKey "g" (fst r1) = [userMessage1; placeholderOf "B" "p-B"]
  /\ dispatchedUpdates (fst r1) = []
  /\ EConsole LevelError "Failed to process message for agent B:" (Some networkDown)
     ∈ trace (rt (fst r1))
  /\ snd r2 = Fulfilled tt
  /\ history (fun g _ => g) "g" (fst r2)
     = [userMessage1; placeholderOf "A" "p-A"; placeholderOf "B" "p-B"]
  /\ dispatchedUpdates (fst r2)
     = [("p-A", "Error: Failed to generate response. network down")].
Proof.
  cbv zeta. repeat split; try (vm_compute; reflexivity).
  apply list_elem_of_In. vm_compute. tauto.
Qed.

(** ** Batches of tasks *)

Lemma spawn_all_length ts w : List.length (spawn_all ts w).2 = List.length ts.
Proof.
  revert w. induction ts as [|t ts IH]; intros w; cbn; [reflexivity|].
  destruct (advance_task t w) as [w1 s]. specialize (IH w1).
  destruct (spawn_all ts w1) as [w2 ss]. cbn in *. lia.
Qed.

Lemma resume_child_other env i j (cs : list TaskState) w :
  i <> j -> (resume_child env i cs w).2 !! j = cs !! j.
Proof.
  intros Hne. unfold resume_child. destruct (cs !! i) as [t|]; [|reflexivity].
  destruct (resume_task env t w) as [w1 t']. cbn.
  apply list_lookup_insert_ne. exact Hne.
Qed.

Lemma run_children_app env s1 s2 cs w :
  run_children env (s1 ++ s2) cs w =
  run_children env s2 (run_children env s1 cs w).2 (run_children env s1 cs w).1.
Proof.
  revert cs w. induction s1 as [|i s1 IH]; intros cs w; cbn; [reflexivity|].
  destruct (resume_child env i cs w) as [w1 cs1]. apply IH.
Qed.

(** *** Children that never reject *)

Abbreviation never_rejects := (task_state_ok (fun _ => True) fulfilled).

Lemma never_rejects_first_rejected cs :
  Forall never_rejects cs -> first_rejected cs = None.
Proof.
  induction 1 as [|s cs Hs _ IH]; cbn; [reflexivity|].
  destruct s as [[u|e]|X c k|[]]; try exact IH.
  cbn in Hs. discriminate Hs.
Qed.

Lemma never_rejects_settled cs :
  Forall never_rejects cs -> forallb is_fulfilled cs = forallb is_settled cs.
Proof.
  induction 1 as [|s cs Hs _ IH]; cbn; [reflexivity|].
  rewrite IH. destruct s as [[u|e]|X c k|[]]; try reflexivity.
  cbn in Hs. discriminate Hs.
Qed.

Lemma never_rejects_not_rejected cs :
  Forall never_rejects cs -> Forall (fun s => forall e, s <> Done (Rejected e)) cs.
Proof.
  intros H. eapply Forall_impl; [exact H|].
  intros s Hs e ->. cbn in Hs. discriminate Hs.
Qed.

Lemma never_rejects_resume_child env i cs w :
  Forall never_rejects cs -> Forall never_rejects (resume_child env i cs w).2.
Proof.
  intros Hcs.
  apply (resume_child_sound (fun _ => True) fulfilled env i cs w);
    [intros X c w' _; exact Logic.I|exact Logic.I|exact Hcs].
Qed.

Lemma never_rejects_run_children env sched cs w :
  Forall never_rejects cs -> Forall never_rejects (run_children env sched cs w).2.
Proof.
  revert cs w. induction sched as [|i r IH]; intros cs w Hcs; cbn; [exact Hcs|].
  pose proof (never_rejects_resume_child env i cs w Hcs) as H1.
  destruct (resume_child env i cs w) as [w1 cs1]. apply IH. exact H1.
Qed.

Lemma settled_resume_child env i (cs : list TaskState) w :
  forallb is_settled cs = true -> resume_child env i cs w = (w, cs).
Proof.
  intros Hall. unfold resume_child. destruct (cs !! i) as [t|] eqn:Hi; [|reflexivity].
  assert (Ht : is_settled t = true).
  { rewrite forallb_forall in Hall. apply Hall. apply list_elem_of_In.
    eapply list_elem_of_lookup_2. exact Hi. }
  destruct t as [o|X c k|[]]; try discriminate. cbn.
  rewrite list_insert_id by exact Hi. reflexivity.
Qed.

Lemma settled_run_children env sched (cs : list TaskState) w :
  forallb is_settled cs = true -> run_children env sched cs w = (w, cs).
Proof.
  intros Hall. induction sched as [|i r IH]; cbn; [reflexivity|].
  rewrite settled_resume_child by exact Hall. exact IH.
Qed.

Lemma run_sched_Done env sched o w :
  run_sched env sched (Done o) w = (w, Done o).
Proof. induction sched as [|i r IH]; cbn; [reflexivity|exact IH]. Qed.

(** A call that waits for a batch of never-rejecting children, and whose
    continuation is synchronous, follows the batch: it stays joined while
    a child is unsettled and runs its continuation once, in the world
    left by the children, when all are settled. *)
Lemma run_sched_batch env (k : Outcome unit -> Async) (f : World -> World) :
  (forall w, advance_async (k (Fulfilled tt)) w = (f w, Done (Fulfilled tt))) ->
  forall sched cs w,
    Forall never_rejects cs ->
    run_sched env sched (batch_view k cs w).2 (batch_view k cs w).1 =
    if forallb is_settled (run_children env sched cs w).2
    then (f (run_children env sched cs w).1, Done (Fulfilled tt))
    else ((run_children env sched cs w).1, Joined (run_children env sched cs w).2 k).
Proof.
  intros Hk sched. induction sched as [|i r IH]; intros cs w Hcs.
  - cbn. unfold batch_view, join_result.
    rewrite (never_rejects_first_rejected cs Hcs), (never_rejects_settled cs Hcs).
    destruct (forallb is_settled cs); [rewrite Hk|]; reflexivity.
  - unfold batch_view at 1 2, join_result.
    rewrite (never_rejects_first_rejected cs Hcs), (never_rejects_settled cs Hcs).
    destruct (forallb is_settled cs) eqn:Hall.
    + rewrite Hk. cbn [fst snd]. rewrite run_sched_Done.
      rewrite settled_run_children by exact Hall. cbn [fst snd]. rewrite Hall. reflexivity.
    + cbn [fst snd run_sched run_children resume].
      pose proof (never_rejects_resume_child env i cs w Hcs) as H1.
      destruct (resume_child env i cs w) as [w1 cs1]. cbn [fst snd] in *.
      specialize (IH cs1 w1 H1). unfold batch_view in IH.
      destruct (join_result cs1) as [o|].
      * destruct (advance_async (k o) w1) as [w2 s2]. exact IH.
      * exact IH.
Qed.

(** *** Every batch settles *)

Lemma advance_bounded n p w : bounded n p -> state_bounded n (advance_task p w).2.
Proof.
  intros H. revert w. induction H as [n|n e|n k _ IH|n w' k _ IH|n X c k Hk _]; intros w; cbn.
  - exact Logic.I.
  - exact Logic.I.
  - apply IH.
  - apply IH.
  - exists n. split; [reflexivity|exact Hk].
Qed.

Lemma resume_bounded env n s w :
  state_bounded (S n) s -> state_bounded n (resume_task env s w).2.
Proof.
  destruct s as [o|X c k|[]]; cbn; [tauto|].
  intros (m & Hm & Hk). injection Hm as <-.
  destruct (env X c w) as [w1 o]. apply advance_bounded, Hk.
Qed.

Lemma state_bounded_0 s : state_bounded 0 s -> is_settled s = true.
Proof.
  destruct s as [o|X c k|[]]; cbn; [reflexivity|].
  intros (m & Hm & _). discriminate.
Qed.

Lemma spawn_all_bounded n ts w :
  Forall (bounded n) ts -> Forall (state_bounded n) (spawn_all ts w).2.
Proof.
  intros Hts. revert w. induction Hts as [|t ts Ht _ IH]; intros w; cbn; [constructor|].
  pose proof (advance_bounded n t w Ht) as Hs.
  destruct (advance_task t w) as [w1 s]. specialize (IH w1).
  destruct (spawn_all ts w1) as [w2 ss]. cbn in *. constructor; assumption.
Qed.

Lemma run_children_shift env sched c (cs : list TaskState) w :
  run_children env (map S sched) (c :: cs) w =
  ((run_children env sched cs w).1, c :: (run_children env sched cs w).2).
Proof.
  revert cs w. induction sched as [|i r IH]; intros cs w; cbn; [reflexivity|].
  unfold resume_child. cbn. destruct (cs !! i) as [t|].
  - destruct (resume_task env t w) as [w1 t']. cbn. apply IH.
  - apply IH.
Qed.

Lemma head_settles env n c (cs : list TaskState) w :
  state_bounded n c ->
  exists w' c', run_children env (replicate n 0) (c :: cs) w = (w', c' :: cs)
                /\ is_settled c' = true.
Proof.
  revert c w. induction n as [|n IH]; intros c w Hc.
  - exists w, c. split; [reflexivity|]. apply state_bounded_0, Hc.
  - cbn. unfold resume_child. cbn.
    pose proof (resume_bounded env n c w Hc) as H1.
    destruct (resume_task env c w) as [w1 c1]. cbn in *.
    apply IH. exact H1.
Qed.

Lemma batch_settles env n (cs : list TaskState) w :
  Forall (state_bounded n) cs ->
  exists sched, forallb is_settled (run_children env sched cs w).2 = true.
Proof.
  intros Hcs. revert w. induction Hcs as [|c cs Hc _ IH]; intros w.
  - exists []. reflexivity.
  - destruct (head_settles env n c cs w Hc) as (w1 & c1 & Hrun & Hset).
    destruct (IH w1) as (sched & Hsched).
    exists (replicate n 0 ++ map S sched).
    rewrite run_children_app, Hrun. cbn [fst snd].
    rewrite run_children_shift. cbn. rewrite Hset, Hsched. reflexivity.
Qed.

(** ** The agent response executor *)

Ltac bounded_step :=
  lazymatch goal with
  | |- bounded _ Ret => apply bounded_Ret
  | |- bounded _ (Throw _) => apply bounded_Throw
  | |- bounded _ (Get _) => apply bounded_Get; intros ?
  | |- bounded _ (Put _ _) => apply bounded_Put
  | |- bounded _ (modify _ _) => unfold modify at 1
  | |- bounded _ (Await _ _) => apply bounded_Await; intros ?
  | |- bounded _ (await _ _) => unfold await at 1
  | |- bounded _ ?p => let b := blocker p in destruct b
  end;
  cbn [try_catch try_finally seq modify await].

Section Executor.
Variable messageMapKey : string -> option string -> string.
Variable filterMessagesForAgent : list ChatMessage -> string -> list ChatMessage.
Variable buildGroupChatSystemPrompt :
  list GroupMemberInfo -> string -> string -> list ChatMessage -> string.
Variable LOADING_FLAT : string.
Variable CreateMessageError : string.

Abbreviation agentTask :=
  (internal_processAgentMessage messageMapKey filterMessagesForAgent
     buildGroupChatSystemPrompt LOADING_FLAT CreateMessageError).
Abbreviation responseTasks0 :=
  (responseTasks messageMapKey filterMessagesForAgent buildGroupChatSystemPrompt
     LOADING_FLAT CreateMessageError).
Abbreviation executeAgentResponses' :=
  (internal_executeAgentResponses messageMapKey filterMessagesForAgent
     buildGroupChatSystemPrompt LOADING_FLAT CreateMessageError).

(** The task suspends at most four times: on the creation of the
    placeholder, the completion, the refresh and the tool calls. *)
Lemma processAgentMessage_bounded g a t : bounded 4 (agentTask g a t).
Proof.
  unfold internal_processAgentMessage, processAgentMessage_catch.
  wp_start. repeat bounded_step.
Qed.

Lemma executeAgentResponses_view g ds w :
  exists k,
    advance_async (executeAgentResponses' g ds) w
    = batch_view k (spawn_all (responseTasks0 g ds) w).2 (spawn_all (responseTasks0 g ds) w).1
    /\ forall w', advance_async (k (Fulfilled tt)) w' = (rearm g ds w', Done (Fulfilled tt)).
Proof.
  unfold internal_executeAgentResponses, advance_async, batch_view.
  cbn [advance try_catch]. fold (responseTasks0 g ds).
  eexists. split.
  - destruct (spawn_all (responseTasks0 g ds) w) as [w1 cs]. reflexivity.
  - intros w'. unfold rearm. destruct ds; reflexivity.
Qed.

(** C2: the executor starts one task per decision; whatever the
    collaborators answer no task rejects, a step of one task leaves the
    others as they are, and the batch can always be brought to
    completion.  While a task is unsettled the executor stays joined
    and has added nothing to the world the tasks left; once all are
    settled it has run its continuation once: the scheduler is re-armed
    exactly once when there are decisions, and not at all for an empty
    list, for which no task is started. *)
Theorem executeAgentResponses_fanout g ds env sched w :
  let spawned := spawn_all (responseTasks0 g ds) w in
  let r0 := advance_async (executeAgentResponses' g ds) w in
  let r := run_sched env sched (snd r0) (fst r0) in
  let rc := run_children env sched (snd spawned) (fst spawned) in
  List.length (snd spawned) = List.length ds
  /\ Forall (fun s => forall e, s <> Done (Rejected e)) (snd rc)
  /\ (forall i j, i <> j -> snd (resume_child env i (snd rc) (fst rc)) !! j = snd rc !! j)
  /\ (exists sched',
        forallb is_settled
          (snd (run_children env sched' (snd spawned) (fst spawned))) = true)
  /\ (forallb is_settled (snd rc) = true ->
      r = (rearm g ds (fst rc), Done (Fulfilled tt)))
  /\ (forallb is_settled (snd rc) = false ->
      exists k, r = (fst rc, Joined (snd rc) k))
  /\ (ds = [] -> r0 = (w, Done (Fulfilled tt)) /\ fst r = w).
Proof.
  cbv zeta.
  assert (Hnr : Forall never_rejects (spawn_all (responseTasks0 g ds) w).2).
  { apply (spawn_all_sound (fun _ => True) fulfilled); [exact Logic.I|].
    apply processAgentMessage_tasks_never_reject. }
  destruct (executeAgentResponses_view g ds w) as (k & Hview & Hk).
  pose proof (run_sched_batch env k (rearm g ds) Hk sched _
                (spawn_all (responseTasks0 g ds) w).1 Hnr) as Hrun.
  rewrite <- Hview in Hrun.
  split; [|split; [|split; [|split; [|split; [|split]]]]].
  - rewrite spawn_all_length. unfold responseTasks0. apply length_map.
  - apply never_rejects_not_rejected, never_rejects_run_children, Hnr.
  - intros i j Hne. apply resume_child_other, Hne.
  - apply (batch_settles env 4). apply spawn_all_bounded.
    apply Forall_forall. intros t Ht. apply list_elem_of_fmap in Ht as (d & -> & _).
    apply processAgentMessage_bounded.
  - intros Hall. rewrite Hrun, Hall. reflexivity.
  - intros Hall. rewrite Hrun, Hall. eexists. reflexivity.
  - intros ->. cbn. split; [reflexivity|]. rewrite run_sched_Done. reflexivity.
Qed.
End Executor.

(** ** The theorems at sample inputs *)

Lemma triggered_sched_reachable :
  sched_reachable scopedKey (fun l _ => l) (fun _ _ _ _ => "prompt") loadingSentinel
    "CreateMessageError"
    (mkConfig (internal_triggerSupervisorDecisionDebounced "g" idleWorld) []).
Proof.
  eapply sched_reachable_step;
    [|apply (sched_trigger _ _ _ _ _ "g" (mkConfig idleWorld []))].
  apply sched_reachable_init. split; [|reflexivity].
  split; [reflexivity|]. split; [reflexivity|]. cbn. lia.
Qed.

Lemma decidingConfig_sched_reachable :
  sched_reachable scopedKey (fun l _ => l) (fun _ _ _ _ => "prompt") loadingSentinel
    "CreateMessageError" decidingConfig.
Proof.
  refine (sched_reachable_step _ _ _ _ _ _ _ triggered_sched_reachable
            (sched_fire _ _ _ _ _ 1 "g" 3000%Z
               (mkConfig (internal_triggerSupervisorDecisionDebounced "g" idleWorld) [])
               _ _)).
  - apply list_elem_of_In. vm_compute. left. reflexivity.
  - intros s tok Hin. cbn in Hin. apply elem_of_nil in Hin. contradiction.
Qed.

Lemma trigger_single_slot_witness :
  reachable scopedKey (fun l _ => l) (fun _ _ _ _ => "prompt") loadingSentinel
    "CreateMessageError" decidingConfig
  /\ List.length (inFlightDecisions "g" decidingConfig) = 1
  /\ List.length (inFlightDecisions "g" decidingConfig) <= 1
  /\ pendingTimers "g"
       (internal_triggerSupervisorDecisionDebounced "g"
          (internal_triggerSupervisorDecisionDebounced "g" (world decidingConfig)))
     = [(3, ("g", 3000%Z))].
Proof.
  pose proof (sched_reachable_reachable _ _ _ _ _ _ decidingConfig_sched_reachable) as Hr.
  split; [exact Hr|]. split; [vm_compute; reflexivity|].
  pose proof (trigger_single_slot _ _ _ _ _ decidingConfig "g" Hr) as H.
  cbv zeta in H. destruct H as (_ & _ & Hone & _ & _ & _ & _ & _ & _ & _ & _ & H).
  split; [exact (Hone decidingConfig_sched_reachable)|].
  etransitivity; [exact H|]. vm_compute. reflexivity.
Defined.

Lemma speakingCollaborators_keeps_tokens : keeps_tokens speakingCollaborators.
Proof. intros X c w. destruct c; repeat split. Qed.

Lemma decidingConfig_lookup : threads decidingConfig !! 0 = Some firstDecision.
Proof.
  unfold fired, triggered, decidingConfig, spawn_thread, firstDecision.
  cbv beta zeta iota delta [world threads app].
  reflexivity.
Qed.

(** Decision runs of one group overlap also when the decision function
    honours its token at once: the first run of group [g] has its
    decision and awaits its agent; the group is triggered again (token
    [1] of the first run is aborted, which its agent does not observe)
    and the callback of the new timer starts a second run, suspended in
    the decision function while the first run is still awaiting. *)
Lemma awaiting_agents_overlap :
  sched_reachable scopedKey (fun l _ => l) (fun _ _ _ _ => "prompt") loadingSentinel
    "CreateMessageError" awaitingAgentsConfig
  /\ map stage (threads awaitingAgentsConfig) = [InBatch 1; InDecision "g"]
  /\ abortedSignals (rt (world awaitingAgentsConfig)) = {[ 1 ]}
  /\ List.length (inFlightDecisions "g" awaitingAgentsConfig) = 1.
Proof.
  pose proof (sched_reachable_step _ _ _ _ _ _ _ decidingConfig_sched_reachable
                (sched_resume _ _ _ _ _ speakingCollaborators 0 0 firstDecision _
                   speakingCollaborators_keeps_tokens decidingConfig_lookup)) as H1.
  pose proof (sched_reachable_step _ _ _ _ _ _ _ H1 (sched_trigger _ _ _ _ _ "g" _)) as H2.
  split.
  - refine (sched_reachable_step _ _ _ _ _ _ _ H2 (sched_fire _ _ _ _ _ 2 "g" 3000%Z _ _ _)).
    + apply list_elem_of_In. vm_compute. left. reflexivity.
    + intros s tok Hin Hd. exfalso.
      assert (Hs : s ∈ inFlightDecisions "g"
                     (triggered (answeredBy speakingCollaborators 0 firstDecision
                                   decidingConfig))).
      { unfold inFlightDecisions. apply list_elem_of_filter. split; [exact Hd|exact Hin]. }
      assert (Hnil : inFlightDecisions "g"
                       (triggered (answeredBy speakingCollaborators 0 firstDecision
                                     decidingConfig)) = [])
        by (vm_compute; reflexivity).
      rewrite Hnil in Hs. apply elem_of_nil in Hs. exact Hs.
  - split; [vm_compute; reflexivity|]. split; vm_compute; reflexivity.
Qed.

Lemma executeAgentResponses_fanout_witness :
  let env := sampleCollaborators scopedKey (Fulfilled false) [] in
  let ds := [mkDecision "A" None; mkDecision "B" (Some "A")] in
  let tasks :=
    responseTasks scopedKey (fun l _ => l) (fun _ _ _ _ => "prompt") loadingSentinel
      "CreateMessageError" "g" ds in
  let sched := [0; 1; 1; 0; 0; 1] in
  let r0 :=
    advance_async
      (internal_executeAgentResponses scopedKey (fun l _ => l) (fun _ _ _ _ => "prompt")
         loadingSentinel "CreateMessageError" "g" ds) idleWorld in
  run_sched env sched (snd r0) (fst r0)
  = (internal_triggerSupervisorDecisionDebounced "g"
       (fst (run_children env sched (snd (spawn_all tasks idleWorld))
               (fst (spawn_all tasks idleWorld)))),
     Done (Fulfilled tt)).
Proof.
  cbv zeta.
  pose proof (executeAgentResponses_fanout scopedKey (fun l _ => l)
                (fun _ _ _ _ => "prompt") loadingSentinel "CreateMessageError" "g"
                [mkDecision "A" None; mkDecision "B" (Some "A")]
                (sampleCollaborators scopedKey (Fulfilled false) [])
                [0; 1; 1; 0; 0; 1] idleWorld) as H.
  cbv zeta in H. destruct H as (_ & _ & _ & _ & H & _).
  apply H. vm_compute. reflexivity.
Defined.

Lemma supervisorDecision_guard_witness :
  snd (advance_async
         (internal_triggerSupervisorDecision scopedKey (fun l _ => l)
            (fun _ _ _ _ => "prompt") loadingSentinel "CreateMessageError" "g")
         midToolCallWorld)
  = Done (Fulfilled tt).
Proof.
  apply (supervisorDecision_guard scopedKey (fun l _ => l) (fun _ _ _ _ => "prompt")
           loadingSentinel "CreateMessageError" "g" midToolCallWorld).
  right. eexists. split; [vm_compute; reflexivity|].
  right. split; [reflexivity|]. eexists. split; [reflexivity|discriminate].
Defined.

Lemma supervisorDecision_cleanup_witness :
  let r0 :=
    advance_async
      (internal_triggerSupervisorDecision scopedKey (fun l _ => l)
         (fun _ _ _ _ => "prompt") loadingSentinel "CreateMessageError" "g") idleWorld in
  cleanedUp "g" (fst (run_sched (failingCompletion scopedKey) [0] (snd r0) (fst r0))).
Proof.
  cbv zeta.
  pose proof (supervisorDecision_cleanup scopedKey (fun l _ => l) (fun _ _ _ _ => "prompt")
                loadingSentinel "CreateMessageError" "g" idleWorld) as H.
  cbv zeta in H. destruct H as [H _]; [vm_compute; reflexivity|].
  apply (H (failingCompletion scopedKey) [0] (Fulfilled tt)).
  vm_compute. reflexivity.
Defined.


Lemma sendGroupMessage_blank_noop_witness :
  advance_task (sendGroupMessage (mkSendGroupMessageParams "g" blankMessage None None None))
    idleWorld
  = (idleWorld, Done (Fulfilled tt)).
Proof.
  apply (sendGroupMessage_blank_noop (mkSendGroupMessageParams "g" blankMessage None None None)
           idleWorld).
  - vm_compute. reflexivity.
  - left. reflexivity.
Defined.

Lemma sendGroupMessage_onlyAddUserMessage_witness :
  exists k,
    snd (advance_task
           (sendGroupMessage (mkSendGroupMessageParams "g" "hi" None (Some true) None))
           idleWorld)
    = Blocked
        (CreateMessage
           (userMessageOf (mkSendGroupMessageParams "g" "hi" None (Some true) None) idleWorld))
        k
    /\ isCreatingMessage (store (fst (advance_task (k (Fulfilled (Some "m2"))) idleWorld)))
       = false.
Proof.
  destruct (sendGroupMessage_onlyAddUserMessage
              (mkSendGroupMessageParams "g" "hi" None (Some true) None) idleWorld)
    as (k & H & _ & Hk).
  - reflexivity.
  - left. vm_compute. reflexivity.
  - exists k. split; [rewrite H; reflexivity|].
    destruct (Hk (Fulfilled (Some "m2")) idleWorld) as (_ & Hflag & _). exact Hflag.
Defined.

(** C10 fails as stated for a blank call: with [onlyAddUserMessage] set,
    a message of white space only and no files, the call settles at
    once in the world it was started in: no user message is created, and
    the [isCreatingMessage] flag, here set by a send still under way,
    is not cleared. *)
Lemma sendGroupMessage_onlyAddUserMessage_blank :
  sgOnlyAddUserMessage (mkSendGroupMessageParams "g" blankMessage None (Some true) None)
  = Some true
  /\ advance_task
       (sendGroupMessage (mkSendGroupMessageParams "g" blankMessage None (Some true) None))
       creatingWorld
     = (creatingWorld, Done (Fulfilled tt))
  /\ isCreatingMessage (store creatingWorld) = true
  /\ (forall p, ERequest (CreateMessage p) ∉ trace (rt creatingWorld)).
Proof.
  split; [reflexivity|]. split; [vm_compute; reflexivity|]. split; [reflexivity|].
  intros p Hin. inversion Hin.
Qed.

(** ** Further properties of the synchronous actions *)

(** X1: the guard looks at the last message only: it lets the decision
    run exactly when the history is not empty and its last message is
    neither a tool response nor an assistant message that calls tools. *)
Theorem shouldAvoidSupervisorDecision_false_iff messages :
  shouldAvoidSupervisorDecision messages = false
  <-> exists l m,
        messages = l ++ [m]
        /\ msgRole m <> RoleTool
        /\ (msgRole m = RoleAssistant -> msgTools m = None \/ msgTools m = Some []).
Proof.
  unfold shouldAvoidSupervisorDecision, isToolCallMessage. split.
  - destruct (Nat.eqb (List.length messages) 0); [discriminate|].
    destruct (last messages) as [m|] eqn:Hlast; [|discriminate].
    apply last_Some in Hlast as [l ->]. intros H. exists l, m. split; [reflexivity|].
    destruct (bool_decide (msgRole m = RoleAssistant)) eqn:Ha; cbn in H.
    + destruct (msgTools m) as [[|tc tools]|] eqn:Ht; cbn in H; try discriminate.
      * apply bool_decide_eq_true in Ha. split; [congruence|]. intros _. right. reflexivity.
      * apply bool_decide_eq_true in Ha. split; [congruence|]. intros _. left. reflexivity.
    + destruct (bool_decide (msgRole m = RoleTool)) eqn:Hr; [discriminate|].
      apply bool_decide_eq_false in Hr, Ha. split; [exact Hr|]. intros Hc. contradiction.
  - intros (l & m & -> & Hr & Ha).
    rewrite length_app. cbn. replace (List.length l + 1) with (S (List.length l)) by lia.
    cbn. rewrite last_snoc.
    destruct (bool_decide (msgRole m = RoleAssistant)) eqn:Hb; cbn.
    + apply bool_decide_eq_true in Hb. destruct (Ha Hb) as [-> | ->]; cbn;
        rewrite bool_decide_eq_false_2 by exact Hr; reflexivity.
    + rewrite bool_decide_eq_false_2 by exact Hr. reflexivity.
Qed.

(** X2: cancelling a group that has neither a timer nor a token in the
    registry clears no timeout and aborts nothing: all it does is log and
    switch the loading flag of the group off. *)
Theorem cancel_untracked g w :
  supervisorDebounceTimers (store w) !! g = None ->
  supervisorDecisionAbortControllers (store w) !! g = None ->
  internal_cancelSupervisorDecision g w
  = console_log ("Stopped supervisor loading state for group " +:+ g)
      (internal_toggleSupervisorLoading false (Some g)
         (console_log ("Attempting to cancel supervisor decision for group " +:+ g) w)).
Proof.
  intros Ht Hc. unfold internal_cancelSupervisorDecision. rewrite Ht, Hc. reflexivity.
Qed.

Lemma cancel_nextController g w :
  nextController (rt (internal_cancelSupervisorDecision g w)) = nextController (rt w).
Proof.
  unfold internal_cancelSupervisorDecision.
  destruct (supervisorDebounceTimers (store w) !! g) as [t|];
    [destruct (truthy_num t)|];
    destruct (supervisorDecisionAbortControllers (store w) !! g); reflexivity.
Qed.

(** X3: cancelling is idempotent on the registry and on the runtime: a
    second cancel of the same group finds nothing left to clear or to
    abort. *)
Theorem cancel_idempotent g w :
  let w1 := internal_cancelSupervisorDecision g w in
  let w2 := internal_cancelSupervisorDecision g w1 in
  supervisorDebounceTimers (store w2) = supervisorDebounceTimers (store w1)
  /\ supervisorDecisionAbortControllers (store w2)
     = supervisorDecisionAbortControllers (store w1)
  /\ timeouts (rt w2) = timeouts (rt w1)
  /\ abortedSignals (rt w2) = abortedSignals (rt w1)
  /\ nextTimer (rt w2) = nextTimer (rt w1)
  /\ nextController (rt w2) = nextController (rt w1)
  /\ supervisorDecisionAbortControllers (store w1) !! g = None.
Proof.
  intros w1 w2.
  assert (Hc : supervisorDecisionAbortControllers (store w1) !! g = None).
  { unfold w1. rewrite cancel_controllers. apply lookup_delete_eq. }
  assert (Ht : supervisorDebounceTimers (store w1) !! g = None
               \/ exists t, supervisorDebounceTimers (store w1) !! g = Some t
                            /\ truthy_num t = false).
  { unfold w1. rewrite cancel_timers.
    destruct (supervisorDebounceTimers (store w) !! g) as [t|] eqn:Hg.
    - destruct (truthy_num t) eqn:Htr.
      + left. apply lookup_delete_eq.
      + right. exists t. split; assumption.
    - left. exact Hg. }
  unfold w2. rewrite cancel_timers, cancel_controllers, cancel_timeouts, cancel_aborted,
    cancel_nextTimer, cancel_nextController, Hc.
  split; [destruct Ht as [-> | (t & -> & ->)]; reflexivity|].
  split; [apply delete_id; exact Hc|].
  split; [destruct Ht as [-> | (t & -> & ->)]; reflexivity|].
  repeat (split; [reflexivity|]). reflexivity.
Qed.

(** X4: with both registries empty [cancelAll] does nothing at all, not
    even log; hence a second [cancelAll] right after a first changes
    nothing. *)
Theorem cancelAll_idempotent w :
  (supervisorDebounceTimers (store w) = ∅ ->
   supervisorDecisionAbortControllers (store w) = ∅ ->
   internal_cancelAllSupervisorDecisions w = w)
  /\ internal_cancelAllSupervisorDecisions (internal_cancelAllSupervisorDecisions w)
     = internal_cancelAllSupervisorDecisions w.
Proof.
  assert (Hempty : forall w0,
            supervisorDebounceTimers (store w0) = ∅ ->
            supervisorDecisionAbortControllers (store w0) = ∅ ->
            internal_cancelAllSupervisorDecisions w0 = w0).
  { intros w0 Ht Hc. unfold internal_cancelAllSupervisorDecisions.
    rewrite Ht, Hc, map_to_list_empty. reflexivity. }
  split; [apply Hempty|].
  apply Hempty; [apply cancelAll_timers|apply cancelAll_controllers].
Qed.

Lemma filter_all {A} (P : A -> Prop) `{!forall x, Decision (P x)} (l : list A) :
  (forall x, x ∈ l -> P x) -> filter P l = l.
Proof.
  induction l as [|x l IH]; intros Hall; [reflexivity|].
  rewrite filter_cons_True by (apply Hall; left).
  f_equal. apply IH. intros y Hy. apply Hall. right. exact Hy.
Qed.

(** X5: a cancel right after a trigger undoes the arming: nothing is
    pending or registered for the group any more, and the pending
    callbacks are those a cancel alone would have left. *)
Theorem trigger_then_cancel g w :
  registry_ok w ->
  let w' := internal_cancelSupervisorDecision g
              (internal_triggerSupervisorDecisionDebounced g w) in
  pendingTimers g w' = []
  /\ supervisorDebounceTimers (store w') !! g = None
  /\ supervisorDecisionAbortControllers (store w') !! g = None
  /\ timeouts (rt w') = timeouts (rt (internal_cancelSupervisorDecision g w)).
Proof.
  intros Hok w'.
  pose proof (trigger_registry_ok g w Hok) as Hok1.
  pose proof Hok as (_ & _ & Hnext).
  assert (Htr : truthy_num (nextTimer (rt w)) = true) by (apply truthy_num_true; lia).
  assert (Hreg : supervisorDebounceTimers
                   (store (internal_triggerSupervisorDecisionDebounced g w)) !! g
                 = Some (nextTimer (rt w))).
  { rewrite trigger_timers. apply lookup_insert_eq. }
  split; [apply cancel_pendingTimers, Hok1|].
  split; [unfold w'; rewrite cancel_timers, Hreg, Htr; apply lookup_delete_eq|].
  split; [unfold w'; rewrite cancel_controllers; apply lookup_delete_eq|].
  unfold w'. rewrite cancel_timeouts, Hreg, Htr, trigger_timeouts, filter_app.
  rewrite filter_cons_False by (cbn; intros H; apply H; reflexivity).
  rewrite filter_nil, app_nil_r.
  set (wl := console_log ("Supervisor decision debounced triggered for group " +:+ g) w).
  assert (Hsame : timeouts (rt (internal_cancelSupervisorDecision g wl))
                  = timeouts (rt (internal_cancelSupervisorDecision g w)))
    by (rewrite !cancel_timeouts; reflexivity).
  rewrite Hsame.
  pose proof (cancel_registry_ok g w Hok) as (_ & Hreg' & _).
  rewrite cancel_nextTimer in Hreg'.
  apply filter_all. intros [t [g0 d]] Hin. cbn.
  destruct (Hreg' t g0 d Hin) as (_ & _ & Hlt). lia.
Qed.

Lemma string_app_assoc (a b c : string) : (a +:+ b) +:+ c = a +:+ (b +:+ c).
Proof.
  induction a as [|x a IH]; [reflexivity|].
  change (String x ((a +:+ b) +:+ c) = String x (a +:+ (b +:+ c))).
  rewrite IH. reflexivity.
Qed.

Lemma authorPrefix_append author content :
  authorPrefix author +:+ content
  = "<" +:+ authorTag +:+ ">" +:+ author +:+ "</" +:+ authorTag +:+ ">" +:+ content.
Proof. unfold authorPrefix. rewrite !string_app_assoc. reflexivity. Qed.

(** X6: every message of the history goes to the model with a non-empty
    author name in front of its content and is otherwise unchanged; a
    user message carries the display name of the profile ([User] when
    there is none), whatever the roster; a message of no agent is
    [Unknown]. *)
Theorem withAuthor_named nick agents msg :
  let name := or_str nick "User" in
  exists author,
    author <> ""
    /\ withAuthor (agentTitleMapOf nick agents) name msg
       = mkChatMessage (msgId msg) (msgRole msg) (authorPrefix author +:+ msgContent msg)
           (msgAgentId msg) (msgGroupId msg) (msgTargetId msg) (msgTools msg)
    /\ (msgRole msg = RoleUser -> author = name)
    /\ (msgRole msg <> RoleUser -> msgAgentId msg = None -> author = "Unknown").
Proof.
  intros name.
  assert (Hname : truthy_str name = true).
  { unfold name, or_str. destruct nick as [s|]; [|reflexivity].
    destruct (truthy_str s) eqn:Hs; [exact Hs|reflexivity]. }
  assert (Hne : forall s, truthy_str s = true -> s <> "").
  { intros s Hs ->. discriminate Hs. }
  unfold withAuthor, agentTitleMapOf.
  destruct (bool_decide (msgRole msg = RoleUser)) eqn:Hrole.
  - apply bool_decide_eq_true in Hrole.
    match goal with
    | |- context [List.find ?f (?x :: ?l)] =>
        assert (Hf : List.find f (x :: l) = Some x) by reflexivity; rewrite Hf
    end.
    cbn [memberTitle]. fold name. rewrite Hname. exists name. split; [apply Hne, Hname|].
    split; [rewrite authorPrefix_append; reflexivity|].
    split; [reflexivity|]. intros H. contradiction.
  - apply bool_decide_eq_false in Hrole.
    match goal with |- context [List.find ?f ?l] => destruct (List.find f l) as [info|] eqn:Hfind end.
    + destruct (truthy_str (memberTitle info)) eqn:Ht.
      * exists (memberTitle info). split; [apply Hne, Ht|].
        split; [rewrite authorPrefix_append; reflexivity|].
        split; [intros H; contradiction|].
        intros _ Hnone. apply find_some in Hfind as [_ Hf].
        rewrite Hnone in Hf. apply bool_decide_eq_true in Hf. discriminate Hf.
      * exists "Unknown". split; [discriminate|].
        split; [rewrite authorPrefix_append; reflexivity|].
        split; [intros H; contradiction|reflexivity].
    + exists "Unknown". split; [discriminate|].
      split; [rewrite authorPrefix_append; reflexivity|].
      split; [intros H; contradiction|reflexivity].
Qed.

(** ** Further properties of the asynchronous actions *)

(** A run to completion ends in the postcondition of the program logic. *)
Lemma run_task_sound (I : World -> Prop) (Q : World -> Outcome unit -> Prop)
    (env : Handler) (p : Task) w :
  env_keeps I env ->
  wp I (fun _ : Empty_set => True) Q w p ->
  Q (run_task env p w).1 (run_task env p w).2.
Proof.
  intros Henv Hwp.
  induction Hwp as [w HQ|w e HQ|w k _ IH|w w' k _ IH|w X c k HI _ IH|w [] k];
    cbn [run_task]; try assumption.
  specialize (Henv X c _ HI). destruct (env X c (emit (ERequest c) w)) as [w1 o].
  apply IH, Henv.
Qed.

Lemma batch_settles_within env n (cs : list TaskState) w :
  Forall (state_bounded n) cs ->
  exists sched,
    List.length sched = n * List.length cs
    /\ forallb is_settled (run_children env sched cs w).2 = true.
Proof.
  intros Hcs. revert w. induction Hcs as [|c cs Hc _ IH]; intros w.
  - exists []. split; [cbn; lia|reflexivity].
  - destruct (head_settles env n c cs w Hc) as (w1 & c1 & Hrun & Hset).
    destruct (IH w1) as (sched & Hlen & Hsched).
    exists (replicate n 0 ++ map S sched). split.
    + rewrite length_app, length_replicate, length_map, Hlen. cbn [List.length]. lia.
    + rewrite run_children_app, Hrun. cbn [fst snd].
      rewrite run_children_shift. cbn. rewrite Hset, Hsched. reflexivity.
Qed.

Section Calls.
Variable messageMapKey : string -> option string -> string.
Variable filterMessagesForAgent : list ChatMessage -> string -> list ChatMessage.
Variable buildGroupChatSystemPrompt :
  list GroupMemberInfo -> string -> string -> list ChatMessage -> string.
Variable LOADING_FLAT : string.
Variable CreateMessageError : string.

Abbreviation agentCall :=
  (internal_processAgentMessage messageMapKey filterMessagesForAgent
     buildGroupChatSystemPrompt LOADING_FLAT CreateMessageError).
Abbreviation decisionCall :=
  (internal_triggerSupervisorDecision messageMapKey filterMessagesForAgent
     buildGroupChatSystemPrompt LOADING_FLAT CreateMessageError).
Abbreviation executorCall :=
  (internal_executeAgentResponses messageMapKey filterMessagesForAgent
     buildGroupChatSystemPrompt LOADING_FLAT CreateMessageError).
Abbreviation callbackCall :=
  (timerCallback messageMapKey filterMessagesForAgent
     buildGroupChatSystemPrompt LOADING_FLAT CreateMessageError).
Abbreviation historyOf := (history messageMapKey).

Lemma history_length_false g w :
  historyOf g w <> [] -> Nat.eqb (List.length (historyOf g w)) 0 = false.
Proof.
  intros H. apply Nat.eqb_neq. destruct (historyOf g w); [contradiction|cbn; lia].
Qed.

(** X7: the per-agent task gives up before any request in three cases:
    the history of the group is empty (nothing is logged), the agent is
    not in the roster, or the agent has no provider or no model (an
    empty string counts as none); in each case the only other thing it
    does is switch the chat loading off. *)
Theorem processAgentMessage_early_exit g a tgt w :
  let done := emit (EToggleChatLoading false "processAgentMessage(end)") in
  (historyOf g w = [] ->
   advance_task (agentCall g a tgt) w = (done w, Done (Fulfilled tt)))
  /\ (historyOf g w <> [] -> findAgent a w = None ->
      advance_task (agentCall g a tgt) w
      = (done (console_error ("Agent " +:+ a +:+ " not found in group members") None w),
         Done (Fulfilled tt)))
  /\ (forall agent,
        historyOf g w <> [] -> findAgent a w = Some agent ->
        truthy_ostr (agent_provider agent) = false
        \/ truthy_ostr (agent_model agent) = false ->
        advance_task (agentCall g a tgt) w
        = (done (console_error ("No provider or model configured for agent " +:+ a) None
                   (console_log "DEBUG: Group chat agent data:" w)),
           Done (Fulfilled tt))).
Proof.
  intros done. split; [|split].
  - intros Hh. unfold history in Hh.
    unfold internal_processAgentMessage, advance_task.
    cbn [advance try_finally try_catch]. rewrite Hh. reflexivity.
  - intros Hh Hfind. apply history_length_false in Hh. unfold history in Hh.
    unfold internal_processAgentMessage, advance_task.
    cbn [advance try_finally try_catch]. rewrite Hh.
    cbn [advance try_finally try_catch]. rewrite Hfind. reflexivity.
  - intros agent Hh Hfind Hmiss. apply history_length_false in Hh. unfold history in Hh.
    unfold internal_processAgentMessage, advance_task.
    cbn [advance try_finally try_catch]. rewrite Hh.
    cbn [advance try_finally try_catch]. rewrite Hfind.
    cbn [advance try_finally try_catch modify].
    assert (Hor : negb (truthy_ostr (or_undefined (agent_provider agent)))
                  || negb (truthy_ostr (or_undefined (agent_model agent))) = true).
    { unfold or_undefined. destruct Hmiss as [Hm|Hm]; rewrite Hm; cbn.
      - reflexivity.
      - apply orb_true_r. }
    rewrite Hor. reflexivity.
Qed.

(** X8: the completion is requested with the system prompt first, then
    the history of the group as it was when the task started (filtered
    for the agent, each message under its author name), then the turn
    prompt; the roster, the names and the history are those of the
    start of the task: neither the placeholder nor anything that arrived
    while the placeholder was being created is part of the request. *)
Theorem processAgentMessage_request g a tgt w agent :
  historyOf g w <> [] ->
  findAgent a w = Some agent ->
  truthy_ostr (agent_provider agent) = true ->
  truthy_ostr (agent_model agent) = true ->
  let msgs := filterMessagesForAgent (historyOf g w) a in
  let name := or_str (nickName (ext w)) "User" in
  let members := agentTitleMapOf (nickName (ext w)) (currentGroupAgents (ext w)) in
  let pm :=
    mkCreateMessageParams RoleAssistant LOADING_FLAT None (agent_model agent)
      (agent_provider agent) (Some a) g (sessionActiveId (ext w))
      (activeTopicId (store w)) tgt in
  let fp id :=
    mkFetchParams
      ([mkChatMessage "group-system" RoleSystem
          (buildGroupChatSystemPrompt members (or_str (agent_systemRole agent) "") a msgs)
          None None None None]
       ++ map (withAuthor members name) msgs ++ [turnPrompt tgt])
      id (or_str (agent_model agent) "") (or_str (agent_provider agent) "")
      ("group-" +:+ g +:+ "-agent-" +:+ a) agent in
  exists k0,
    advance_task (agentCall g a tgt) w
    = (emit (ERequest (CreateMessage pm)) (console_log "DEBUG: Group chat agent data:" w),
       Blocked (CreateMessage pm) k0)
    /\ forall id w1, truthy_str id = true ->
         (exists k1,
            advance_task (k0 (Fulfilled (Some id))) w1
            = (emit (ERequest (FetchAIChatMessage (fp id))) w1,
               Blocked (FetchAIChatMessage (fp id)) k1))
         /\ map msgId (fpMessages (fp id))
            = "group-system" :: map msgId msgs ++ ["group-user"]
         /\ fpModel (fp id) <> "" /\ fpProvider (fp id) <> "".
Proof.
  intros Hhist Hfind Hprov Hmodel msgs name members pm fp.
  pose proof (history_length_false g w Hhist) as Hlen. unfold history in Hlen.
  unfold internal_processAgentMessage, advance_task.
  cbn [advance try_finally try_catch]. rewrite Hlen.
  cbn [advance try_finally try_catch]. rewrite Hfind.
  cbn [advance try_finally try_catch modify].
  rewrite (or_undefined_truthy _ Hprov), (or_undefined_truthy _ Hmodel), Hprov, Hmodel.
  cbn [negb orb advance try_finally try_catch await].
  eexists. split; [reflexivity|].
  intros id w1 Hid. split; [|split; [|split]].
  - cbn [advance try_finally try_catch await]. cbn [truthy_ostr]. rewrite Hid.
    cbn [advance try_finally try_catch await].
    assert (Hor : or_str (Some id) "" = id) by (cbn; rewrite Hid; reflexivity).
    rewrite Hor. eexists. reflexivity.
  - unfold fp. cbn [fpMessages]. rewrite map_app, map_app. cbn [map msgId turnPrompt app].
    f_equal. f_equal. rewrite map_map. apply map_ext. intros m. reflexivity.
  - unfold fp. cbn [fpModel]. destruct (agent_model agent) as [[|c s]|]; cbn in *;
      discriminate.
  - unfold fp. cbn [fpProvider]. destruct (agent_provider agent) as [[|c s]|]; cbn in *;
      discriminate.
Qed.

(** X9: when the placeholder is created without an id ([undefined] or
    the empty string) no completion is requested: the task refreshes
    the messages, switches the chat loading off and is done. *)
Theorem processAgentMessage_no_placeholder g a tgt w agent :
  historyOf g w <> [] ->
  findAgent a w = Some agent ->
  truthy_ostr (agent_provider agent) = true ->
  truthy_ostr (agent_model agent) = true ->
  exists pm k0,
    advance_task (agentCall g a tgt) w
    = (emit (ERequest (CreateMessage pm)) (console_log "DEBUG: Group chat agent data:" w),
       Blocked (CreateMessage pm) k0)
    /\ forall id w1, truthy_ostr id = false ->
         exists k1,
           advance_task (k0 (Fulfilled id)) w1
           = (emit (ERequest RefreshMessages) w1, Blocked RefreshMessages k1)
           /\ forall w2,
                advance_task (k1 (Fulfilled tt)) w2
                = (emit (EToggleChatLoading false "processAgentMessage(end)") w2,
                   Done (Fulfilled tt)).
Proof.
  intros Hhist Hfind Hprov Hmodel.
  pose proof (history_length_false g w Hhist) as Hlen. unfold history in Hlen.
  unfold internal_processAgentMessage, advance_task.
  cbn [advance try_finally try_catch]. rewrite Hlen.
  cbn [advance try_finally try_catch]. rewrite Hfind.
  cbn [advance try_finally try_catch modify].
  rewrite (or_undefined_truthy _ Hprov), (or_undefined_truthy _ Hmodel), Hprov, Hmodel.
  cbn [negb orb advance try_finally try_catch await].
  eexists. eexists. split; [reflexivity|].
  intros id w1 Hid. cbn [advance try_finally try_catch await]. rewrite Hid.
  cbn [advance try_finally try_catch await].
  eexists. split; [reflexivity|]. intros w2. reflexivity.
Qed.

(** X10: whatever the collaborators answer and do, a per-agent task run
    to its end is fulfilled, and the last thing it has done is switch
    the chat loading off. *)
Theorem processAgentMessage_ends_loading g a tgt env w :
  (run_task env (agentCall g a tgt) w).2 = Fulfilled tt
  /\ last (trace (rt (run_task env (agentCall g a tgt) w).1))
     = Some (EToggleChatLoading false "processAgentMessage(end)").
Proof.
  apply (run_task_sound (fun _ => True)
           (fun w o => o = Fulfilled tt
                       /\ last (trace (rt w))
                          = Some (EToggleChatLoading false "processAgentMessage(end)"))).
  - intros X c w' _. exact Logic.I.
  - unfold internal_processAgentMessage, processAgentMessage_catch.
    wp_start; repeat wp_step; try exact Logic.I;
      (split; [reflexivity|apply last_snoc]).
Qed.

(** X11: past its guard the decision run hands the decision function
    the roster, the whole history of the group in the active topic, the
    orchestrator model and provider of the group (gemini-2.5-flash and
    google when unset or empty), the display name of the user ([User]
    when unset or empty), the system prompt and a token created for
    this run, after registering the token for the group and before
    anything else leaves the slice; model, provider and user name are
    never empty, and no timer is touched. *)
Theorem supervisorDecision_context g w cfg :
  shouldAvoidSupervisorDecision (historyOf g w) = false ->
  currentGroupConfig (ext w) = Some cfg ->
  let c := nextController (rt w) in
  let ctx :=
    mkSupervisorContext (currentGroupAgents (ext w)) g (historyOf g w)
      (or_str (orchestratorModel cfg) "gemini-2.5-flash")
      (or_str (orchestratorProvider cfg) "google")
      (or_str (nickName (ext w)) "User") (systemPrompt cfg) c in
  let w1 :=
    emit (ERequest (MakeDecision ctx))
      (internal_toggleSupervisorLoading true (Some g)
         (store_set (set_controllers (insert g c)) ("setSupervisorAbortController/" +:+ g)
            (emit (ENewAbortController c) (set_nextController (S c) w)))) in
  (exists k, advance_async (decisionCall g) w = (w1, Blocked (MakeDecision ctx) k))
  /\ supervisorDecisionAbortControllers (store w1) !! g = Some c
  /\ ctxModel ctx <> "" /\ ctxProvider ctx <> "" /\ ctxUserName ctx <> ""
  /\ timeouts (rt w1) = timeouts (rt w)
  /\ supervisorDebounceTimers (store w1) = supervisorDebounceTimers (store w).
Proof.
  intros Havoid Hcfg c ctx w1.
  pose proof (shouldAvoid_false_length _ Havoid) as Hlen.
  assert (Hor : forall o d, d <> "" -> or_str o d <> "").
  { intros [[|x s]|] d Hd; cbn; try exact Hd. discriminate. }
  split; [|split; [|split; [|split; [|split; [|split]]]]].
  - unfold history in Havoid, Hlen.
    unfold internal_triggerSupervisorDecision, advance_async.
    cbn [advance]. rewrite Hlen, Havoid.
    unfold newAbortController. cbv beta zeta iota.
    cbn [advance modify try_catch try_finally].
    change (currentGroupConfig
              (ext (internal_toggleSupervisorLoading true (Some g)
                      (store_set (set_controllers (insert g (nextController (rt w))))
                         ("setSupervisorAbortController/" +:+ g)
                         (emit (ENewAbortController (nextController (rt w)))
                            (set_nextController (S (nextController (rt w))) w))))))
      with (currentGroupConfig (ext w)).
    rewrite Hcfg. cbn [advance modify try_catch try_finally await].
    eexists. reflexivity.
  - cbn. apply lookup_insert_eq.
  - apply Hor. discriminate.
  - apply Hor. discriminate.
  - apply Hor. discriminate.
  - reflexivity.
  - reflexivity.
Qed.

(** X12: a message that is not blank (or comes with files), sent
    without [onlyAddUserMessage], arms the debounced trigger of the
    group exactly when the user message was created with an id; when
    it was created without an id nothing is armed, and when its
    creation fails the error is logged and nothing is armed.  In every
    case the call is fulfilled and [isCreatingMessage] is cleared. *)
Theorem sendGroupMessage_arms params w :
  sgOnlyAddUserMessage params <> Some true ->
  truthy_str (trim (sgMessage params)) = true
  \/ (exists f fs, sgFiles params = Some (f :: fs)) ->
  let g := sgGroupId params in
  let finish := store_set (set_isCreatingMessage false) "creatingGroupMessage/end" in
  exists k,
    advance_task (sendGroupMessage params) w
    = (emit (ERequest (CreateMessage (userMessageOf params w)))
         (store_set (set_isCreatingMessage true) "creatingGroupMessage/start"
            (internal_setActiveGroup g w)),
       Blocked (CreateMessage (userMessageOf params w)) k)
    /\ forall w2,
         (forall id, truthy_ostr id = true ->
            advance_task (k (Fulfilled id)) w2
            = (finish (internal_triggerSupervisorDecisionDebounced g w2),
               Done (Fulfilled tt)))
         /\ (forall id, truthy_ostr id = false ->
               advance_task (k (Fulfilled id)) w2 = (finish w2, Done (Fulfilled tt)))
         /\ (forall e,
               advance_task (k (Rejected e)) w2
               = (finish (console_error "Failed to send group message:" (Some e) w2),
                  Done (Fulfilled tt)))
         /\ (registry_ok w2 ->
             pendingTimers g (finish (internal_triggerSupervisorDecisionDebounced g w2))
             = [(nextTimer (rt w2), (g, getDebounceThreshold (configuredSpeed w2)))]).
Proof.
  intros Honly Hmsg g finish.
  assert (Hguard : negb (truthy_str (trim (sgMessage params)))
                   && match sgFiles params with
                      | None => true
                      | Some fs => Nat.eqb (List.length fs) 0
                      end = false).
  { destruct Hmsg as [-> | (f & fs & ->)]; [reflexivity|]. apply andb_false_r. }
  assert (Hdec : bool_decide (sgOnlyAddUserMessage params = Some true) = false)
    by (apply bool_decide_eq_false; exact Honly).
  unfold sendGroupMessage, advance_task.
  cbn [advance]. rewrite Hguard.
  cbn [advance modify try_catch try_finally await].
  eexists. split; [reflexivity|]. intros w2.
  split; [|split; [|split]].
  - intros id Hid. cbn [advance modify try_catch try_finally await].
    rewrite Hdec, Hid. reflexivity.
  - intros id Hid. cbn [advance modify try_catch try_finally await].
    rewrite Hdec, Hid. reflexivity.
  - intros e. reflexivity.
  - intros Hok. apply (trigger_pendingTimers g w2 Hok).
Qed.

(** X13: none of the asynchronous actions of the slice ever rejects:
    whatever the collaborators answer and however a batch is scheduled,
    a settled call of [sendGroupMessage], of the decision run, of the
    executor or of the debounce callback is fulfilled.  In particular
    the [catch] block of the debounce callback is never entered. *)
Theorem slice_calls_never_reject env sched w o :
  (forall params,
      (run_sched env sched (advance_async (sendGroupMessage params) w).2
         (advance_async (sendGroupMessage params) w).1).2 = Done o -> o = Fulfilled tt)
  /\ (forall g,
        (run_sched env sched (advance_async (decisionCall g) w).2
           (advance_async (decisionCall g) w).1).2 = Done o -> o = Fulfilled tt)
  /\ (forall g ds,
        (run_sched env sched (advance_async (executorCall g ds) w).2
           (advance_async (executorCall g ds) w).1).2 = Done o -> o = Fulfilled tt)
  /\ (forall g,
        (run_sched env sched (advance_async (callbackCall g) w).2
           (advance_async (callbackCall g) w).1).2 = Done o -> o = Fulfilled tt).
Proof.
  assert (Hsound : forall p : Async,
            async_wp (fun _ => True) (fun _ => True) (fun _ o => o = Fulfilled tt) w p ->
            (run_sched env sched (advance_async p w).2 (advance_async p w).1).2 = Done o ->
            o = Fulfilled tt).
  { intros p Hwp Hdone.
    destruct (advance_async_sound (fun _ => True) (fun _ => True)
                (fun _ o => o = Fulfilled tt) p w Hwp) as [Hs Hp].
    destruct (run_sched_sound (fun _ => True) (fun _ => True)
                (fun _ o => o = Fulfilled tt) env sched _ _
                (fun _ _ _ _ => Logic.I) Hs Hp) as [_ Hpost].
    rewrite Hdone in Hpost. exact Hpost. }
  split; [|split; [|split]].
  - intros params. apply Hsound. unfold async_wp, sendGroupMessage.
    wp_start; repeat wp_step; try exact Logic.I; reflexivity.
  - intros g. apply Hsound.
    unfold async_wp, internal_triggerSupervisorDecision, supervisorDecision_catch,
      internal_executeAgentResponses.
    wp_start; repeat wp_step; try exact Logic.I; try reflexivity; apply okTasks_trivial.
  - intros g ds. apply Hsound. unfold async_wp, internal_executeAgentResponses.
    wp_start; repeat wp_step; try exact Logic.I; try reflexivity; apply okTasks_trivial.
  - intros g. apply Hsound.
    unfold async_wp, timerCallback, internal_triggerSupervisorDecision,
      supervisorDecision_catch, internal_executeAgentResponses.
    wp_start; repeat wp_step; try exact Logic.I; try reflexivity; apply okTasks_trivial.
Qed.

(** X18: a batch cannot hang on the slice: each per-agent task awaits
    at most four answers (placeholder, completion, refresh, tool
    calls), so whatever the collaborators answer there is a schedule of
    four answers per decision after which the executor is fulfilled,
    having re-armed the trigger when there was a decision. *)
Theorem executeAgentResponses_terminates g ds env w :
  let tasks :=
    responseTasks messageMapKey filterMessagesForAgent buildGroupChatSystemPrompt
      LOADING_FLAT CreateMessageError g ds in
  let r0 := advance_async (executorCall g ds) w in
  exists sched,
    List.length sched = 4 * List.length ds
    /\ run_sched env sched r0.2 r0.1
       = (rearm g ds (run_children env sched (spawn_all tasks w).2 (spawn_all tasks w).1).1,
          Done (Fulfilled tt)).
Proof.
  intros tasks r0.
  assert (Hnr : Forall never_rejects (spawn_all tasks w).2).
  { apply (spawn_all_sound (fun _ => True) fulfilled); [exact Logic.I|].
    apply processAgentMessage_tasks_never_reject. }
  assert (Hb : Forall (state_bounded 4) (spawn_all tasks w).2).
  { apply spawn_all_bounded. apply Forall_forall. intros t Ht.
    apply list_elem_of_fmap in Ht as (d & -> & _). apply processAgentMessage_bounded. }
  destruct (batch_settles_within env 4 _ (spawn_all tasks w).1 Hb)
    as (sched & Hlen & Hall).
  exists sched. split.
  - rewrite Hlen, spawn_all_length. unfold tasks, responseTasks. rewrite length_map.
    reflexivity.
  - destruct (executeAgentResponses_view messageMapKey filterMessagesForAgent
                buildGroupChatSystemPrompt LOADING_FLAT CreateMessageError g ds w)
      as (k & Hview & Hk).
    pose proof (run_sched_batch env k (rearm g ds) Hk sched _ (spawn_all tasks w).1 Hnr)
      as Hrun.
    fold tasks in Hview. unfold r0. rewrite Hview, Hrun, Hall. reflexivity.
Qed.

(** X20: when the debounce callback of a group runs it first takes its
    own timer out of the registry, so from its first step on the slot
    of the group holds no timer and no callback is pending for it,
    while the timers of the other groups are as they were.  When the
    guard holds (empty history or a tool-call sequence under way) the
    callback is over at once and has created and registered no token;
    otherwise, given a group config, it is suspended in the decision
    call of its group with a fresh token registered. *)
Theorem debounceCallback_start g t d w :
  registry_ok w -> (t, (g, d)) ∈ timeouts (rt w) ->
  let r := advance_async (callbackCall g) (fireTimeout t w) in
  supervisorDebounceTimers (store r.1) = delete g (supervisorDebounceTimers (store w))
  /\ pendingTimers g r.1 = []
  /\ (shouldAvoidSupervisorDecision (historyOf g w) = true ->
      r.2 = Done (Fulfilled tt)
      /\ supervisorDecisionAbortControllers (store r.1)
         = supervisorDecisionAbortControllers (store w)
      /\ nextController (rt r.1) = nextController (rt w))
  /\ (shouldAvoidSupervisorDecision (historyOf g w) = false ->
      currentGroupConfig (ext w) <> None ->
      exists ctx k,
        r.2 = Blocked (MakeDecision ctx) k
        /\ ctxGroupId ctx = g
        /\ ctxAbortController ctx = nextController (rt w)
        /\ supervisorDecisionAbortControllers (store r.1) !! g
           = Some (nextController (rt w))).
Proof.
  intros Hok Hin. cbv zeta.
  pose proof (fire_pendingTimers t g d w Hok Hin) as Hnil.
  set (wa := store_set (set_timers (delete g)) ("cleanupSupervisorTimer/" +:+ g)
               (console_log ("Debounced supervisor decision triggered for group " +:+ g)
                  (fireTimeout t w))).
  assert (Hnila : pendingTimers g wa = []) by exact Hnil.
  unfold timerCallback, internal_triggerSupervisorDecision, advance_async, history.
  cbn [advance modify try_catch try_finally]. fold wa.
  change (messagesMap (store wa)) with (messagesMap (store w)).
  change (activeTopicId (store wa)) with (activeTopicId (store w)).
  set (hist := default [] (messagesMap (store w)
                             !! messageMapKey g (activeTopicId (store w)))).
  destruct (Nat.eqb (List.length hist) 0) eqn:Hlen.
  { cbn [fst snd]. split; [reflexivity|]. split; [exact Hnila|].
    split; [intros _; repeat split|].
    intros Hav. apply shouldAvoid_false_length in Hav. congruence. }
  destruct (shouldAvoidSupervisorDecision hist) eqn:Hav.
  { cbn [advance modify fst snd]. split; [reflexivity|]. split; [exact Hnila|].
    split; [intros _; repeat split|discriminate]. }
  cbn [advance modify try_catch try_finally newAbortController].
  set (c := nextController (rt wa)).
  set (wb := internal_toggleSupervisorLoading true (Some g)
               (store_set (set_controllers (insert g c))
                  ("setSupervisorAbortController/" +:+ g)
                  (emit (ENewAbortController c) (set_nextController (S c) wa)))).
  assert (Hnilb : pendingTimers g wb = []) by exact Hnil.
  change (currentGroupConfig (ext wb)) with (currentGroupConfig (ext w)).
  destruct (currentGroupConfig (ext w)) as [cfg|].
  - cbn [advance modify try_catch try_finally await fst snd].
    split; [reflexivity|]. split; [exact Hnilb|]. split; [discriminate|].
    intros _ _. eexists. eexists. split; [reflexivity|]. split; [reflexivity|].
    split; [reflexivity|]. cbn. apply lookup_insert_eq.
  - cbn [advance modify try_catch try_finally fst snd].
    unfold supervisorDecision_catch. cbn [isError typeError errName andb String.eqb].
    split; [|split; [|split; [discriminate|intros _ Hc; contradiction]]].
    + reflexivity.
    + exact Hnilb.
Qed.
End Calls.

(** ** The registry and the runtime agree *)

Lemma handle_unique {B} (l : list (nat * B)) t x y :
  NoDup (map fst l) -> (t, x) ∈ l -> (t, y) ∈ l -> x = y.
Proof.
  induction l as [|[t0 z] l IH]; intros Hnd Hx Hy.
  - apply elem_of_nil in Hx. contradiction.
  - cbn in Hnd. apply NoDup_cons in Hnd as [Hnotin Hnd].
    apply elem_of_cons in Hx as [Hx|Hx]; apply elem_of_cons in Hy as [Hy|Hy].
    + congruence.
    + injection Hx as -> ->. exfalso. apply Hnotin.
      apply list_elem_of_fmap. exists (t0, y). split; [reflexivity|exact Hy].
    + injection Hy as -> ->. exfalso. apply Hnotin.
      apply list_elem_of_fmap. exists (t0, x). split; [reflexivity|exact Hx].
    + apply IH; assumption.
Qed.

Lemma NoDup_handles_filter {B} (P : nat * B -> Prop) `{!forall x, Decision (P x)}
    (l : list (nat * B)) :
  NoDup (map fst l) -> NoDup (map fst (filter P l)).
Proof.
  intros Hnd. eapply sublist_NoDup; [exact Hnd|].
  apply (fmap_sublist fst). apply sublist_filter.
Qed.

Lemma registry_exact_same w w' : same_registry w w' -> registry_exact w -> registry_exact w'.
Proof.
  intros Hsame (Hok & Htight & Hnd).
  split; [eapply same_registry_ok; eassumption|].
  destruct Hsame as (Ht & Hq & _). rewrite Ht, Hq. split; assumption.
Qed.

Lemma keeps_registry_exact env : keeps_registry env -> env_keeps registry_exact env.
Proof. intros H X c w Hok. eapply registry_exact_same; [apply H|exact Hok]. Qed.

Lemma registry_exact_emit e w : registry_exact w -> registry_exact (emit e w).
Proof. apply registry_exact_same. repeat split. Qed.

Lemma registry_exact_console_log m w : registry_exact w -> registry_exact (console_log m w).
Proof. apply registry_exact_same. repeat split. Qed.

Lemma registry_exact_console_error m e w :
  registry_exact w -> registry_exact (console_error m e w).
Proof. apply registry_exact_same. repeat split. Qed.

Lemma registry_exact_toggle b g w :
  registry_exact w -> registry_exact (internal_toggleSupervisorLoading b g w).
Proof. apply registry_exact_same. repeat split. Qed.

Lemma registry_exact_setActiveGroup g w :
  registry_exact w -> registry_exact (internal_setActiveGroup g w).
Proof. apply registry_exact_same. repeat split. Qed.

Lemma registry_exact_set_controllers f w :
  registry_exact w -> registry_exact (set_controllers f w).
Proof. apply registry_exact_same. repeat split. Qed.

Lemma registry_exact_set_isCreatingMessage b w :
  registry_exact w -> registry_exact (set_isCreatingMessage b w).
Proof. apply registry_exact_same. repeat split. Qed.

Lemma registry_exact_set_nextController n w :
  registry_exact w -> registry_exact (set_nextController n w).
Proof. apply registry_exact_same. repeat split. Qed.

Lemma registry_exact_store_set f l w :
  registry_exact (f w) -> registry_exact (store_set f l w).
Proof. apply registry_exact_emit. Qed.

Lemma registry_exact_cancel g w :
  registry_exact w -> registry_exact (internal_cancelSupervisorDecision g w).
Proof.
  intros (Hok & Htight & Hnd). split; [apply cancel_registry_ok, Hok|].
  rewrite cancel_timers, cancel_timeouts.
  destruct (supervisorDebounceTimers (store w) !! g) as [t|] eqn:Hg; [|split; assumption].
  destruct (truthy_num t); [|split; assumption].
  split; [|apply NoDup_handles_filter, Hnd].
  intros g' t' Hl. destruct (decide (g' = g)) as [->|Hne].
  - rewrite lookup_delete_eq in Hl. discriminate.
  - rewrite lookup_delete_ne in Hl by congruence.
    destruct (Htight g' t' Hl) as [d Hin]. exists d.
    apply list_elem_of_filter. split; [|exact Hin]. cbn. intros ->.
    destruct (Htight g t Hg) as [d0 Hin0].
    pose proof (handle_unique _ _ _ _ Hnd Hin Hin0) as Heq. congruence.
Qed.

Lemma registry_exact_trigger g w :
  registry_exact w -> registry_exact (internal_triggerSupervisorDecisionDebounced g w).
Proof.
  intros Hex. pose proof Hex as (Hok & _ & _).
  set (wl := console_log ("Supervisor decision debounced triggered for group " +:+ g) w).
  assert (Hc : registry_exact (internal_cancelSupervisorDecision g wl))
    by (apply registry_exact_cancel, registry_exact_console_log, Hex).
  destruct Hc as ((_ & Hreg & _) & Htight & Hnd).
  split; [apply trigger_registry_ok, Hok|].
  rewrite trigger_timers, trigger_timeouts. fold wl. split.
  - intros g' t' Hl. destruct (decide (g' = g)) as [->|Hne].
    + rewrite lookup_insert_eq in Hl. injection Hl as <-.
      eexists. apply elem_of_app. right. left.
    + rewrite lookup_insert_ne in Hl by congruence.
      destruct (Htight g' t' Hl) as [d Hin]. exists d. apply elem_of_app. left. exact Hin.
  - rewrite map_app. apply NoDup_app. split; [exact Hnd|]. split; [|apply NoDup_singleton].
    intros t' Hin Hin'. cbn in Hin'. apply list_elem_of_singleton in Hin'. subst t'.
    apply list_elem_of_fmap in Hin as ([t0 [g0 d0]] & Heq & Hin). cbn in Heq. subst t0.
    destruct (Hreg _ _ _ Hin) as (_ & _ & Hlt).
    rewrite cancel_nextTimer in Hlt. cbn in Hlt. lia.
Qed.

Lemma registry_exact_cancelAll w :
  registry_exact w -> registry_exact (internal_cancelAllSupervisorDecisions w).
Proof.
  intros (Hok & _ & _). split; [apply cancelAll_registry_ok, Hok|].
  rewrite cancelAll_timers, (cancelAll_no_timeouts w Hok). split.
  - intros g t Hl. rewrite lookup_empty in Hl. discriminate.
  - constructor.
Qed.

(** The debounce callback of [g] starts by unregistering its timer. *)
Lemma registry_exact_fire t g d m w :
  registry_exact w -> (t, (g, d)) ∈ timeouts (rt w) ->
  registry_exact (set_timers (delete g) (console_log m (fireTimeout t w))).
Proof.
  intros (Hok & Htight & Hnd) Hin. split; [|split].
  - apply (registry_ok_delete_timer g (console_log m (fireTimeout t w))).
    + exact (fire_pendingTimers t g d w Hok Hin).
    + apply registry_ok_console_log, fire_registry_ok, Hok.
  - intros g' t' Hl. cbn in Hl. destruct (decide (g' = g)) as [->|Hne].
    + rewrite lookup_delete_eq in Hl. discriminate.
    + rewrite lookup_delete_ne in Hl by congruence.
      destruct (Htight g' t' Hl) as [d' Hin']. exists d'. cbn.
      apply list_elem_of_filter. split; [|exact Hin']. cbn. intros ->.
      pose proof (handle_unique _ _ _ _ Hnd Hin Hin') as Heq. congruence.
  - cbn. apply NoDup_handles_filter, Hnd.
Qed.

(** Discharge [registry_exact] of a world built by the actions of the slice. *)
Ltac exact_solve :=
  lazymatch goal with
  | |- registry_exact (internal_triggerSupervisorDecisionDebounced _ _) =>
      apply registry_exact_trigger; exact_solve
  | |- registry_exact (internal_cancelSupervisorDecision _ _) =>
      apply registry_exact_cancel; exact_solve
  | |- registry_exact (internal_cancelAllSupervisorDecisions _) =>
      apply registry_exact_cancelAll; exact_solve
  | |- registry_exact (emit _ _) => apply registry_exact_emit; exact_solve
  | |- registry_exact (console_log _ _) => apply registry_exact_console_log; exact_solve
  | |- registry_exact (console_error _ _ _) =>
      apply registry_exact_console_error; exact_solve
  | |- registry_exact (internal_toggleSupervisorLoading _ _ _) =>
      apply registry_exact_toggle; exact_solve
  | |- registry_exact (internal_setActiveGroup _ _) =>
      apply registry_exact_setActiveGroup; exact_solve
  | |- registry_exact (store_set _ _ _) => apply registry_exact_store_set; exact_solve
  | |- registry_exact (set_controllers _ _) =>
      apply registry_exact_set_controllers; exact_solve
  | |- registry_exact (set_isCreatingMessage _ _) =>
      apply registry_exact_set_isCreatingMessage; exact_solve
  | |- registry_exact (set_nextController _ _) =>
      apply registry_exact_set_nextController; exact_solve
  | |- registry_exact ?w =>
      match goal with H : registry_exact w |- _ => exact H end
  | |- _ /\ True => split; [exact_solve|exact Logic.I]
  | |- _ => idtac
  end.

Section ExactInvariant.
Variable messageMapKey : string -> option string -> string.
Variable filterMessagesForAgent : list ChatMessage -> string -> list ChatMessage.
Variable buildGroupChatSystemPrompt :
  list GroupMemberInfo -> string -> string -> list ChatMessage -> string.
Variable LOADING_FLAT : string.
Variable CreateMessageError : string.

Abbreviation agentCall1 :=
  (internal_processAgentMessage messageMapKey filterMessagesForAgent
     buildGroupChatSystemPrompt LOADING_FLAT CreateMessageError).
Abbreviation executorCall1 :=
  (internal_executeAgentResponses messageMapKey filterMessagesForAgent
     buildGroupChatSystemPrompt LOADING_FLAT CreateMessageError).
Abbreviation decisionCall1 :=
  (internal_triggerSupervisorDecision messageMapKey filterMessagesForAgent
     buildGroupChatSystemPrompt LOADING_FLAT CreateMessageError).
Abbreviation callbackCall1 :=
  (timerCallback messageMapKey filterMessagesForAgent
     buildGroupChatSystemPrompt LOADING_FLAT CreateMessageError).
Abbreviation stepOf :=
  (step messageMapKey filterMessagesForAgent buildGroupChatSystemPrompt
     LOADING_FLAT CreateMessageError).
Abbreviation runFrom :=
  (run_from messageMapKey filterMessagesForAgent buildGroupChatSystemPrompt
     LOADING_FLAT CreateMessageError).
Abbreviation reachableOf :=
  (reachable messageMapKey filterMessagesForAgent buildGroupChatSystemPrompt
     LOADING_FLAT CreateMessageError).
Abbreviation schedReachableOf :=
  (sched_reachable messageMapKey filterMessagesForAgent buildGroupChatSystemPrompt
     LOADING_FLAT CreateMessageError).

Lemma processAgentMessage_exact g a t w :
  registry_exact w -> task_wp registry_exact (fun _ => True) w (agentCall1 g a t).
Proof.
  intros Hok. unfold task_wp, internal_processAgentMessage, processAgentMessage_catch.
  wp_start; repeat wp_step; exact_solve.
Qed.

Lemma processAgentMessage_tasks_exact g (ds : list SupervisorDecision) :
  okTasks registry_exact (fun _ => True)
    (map (fun decision => agentCall1 g (decisionId decision) (decisionTarget decision)) ds).
Proof.
  unfold okTasks. apply Forall_forall. intros t Ht.
  apply list_elem_of_fmap in Ht as (d & -> & _).
  intros w Hok. apply processAgentMessage_exact, Hok.
Qed.

Lemma executeAgentResponses_exact g ds w :
  registry_exact w ->
  async_wp registry_exact (fun _ => True) (fun w _ => registry_exact w) w
    (executorCall1 g ds).
Proof.
  intros Hok. unfold async_wp, internal_executeAgentResponses.
  wp_start; repeat wp_step; exact_solve; apply processAgentMessage_tasks_exact.
Qed.

Lemma triggerSupervisorDecision_exact g w :
  registry_exact w ->
  async_wp registry_exact (fun _ => True) (fun w _ => registry_exact w) w
    (decisionCall1 g).
Proof.
  intros Hok. unfold async_wp, internal_triggerSupervisorDecision,
    supervisorDecision_catch, supervisorDecision_finally,
    internal_executeAgentResponses.
  wp_start; repeat wp_step; exact_solve; apply processAgentMessage_tasks_exact.
Qed.

Lemma debounceCallback_exact t g d w :
  registry_exact w -> (t, (g, d)) ∈ timeouts (rt w) ->
  async_wp registry_exact (fun _ => True) (fun w _ => registry_exact w)
    (fireTimeout t w) (callbackCall1 g).
Proof.
  intros Hok Hin. unfold async_wp, timerCallback.
  pose proof (registry_exact_fire t g d
                ("Debounced supervisor decision triggered for group " +:+ g) w Hok Hin)
    as Hok1.
  unfold internal_triggerSupervisorDecision,
    supervisorDecision_catch, supervisorDecision_finally,
    internal_executeAgentResponses.
  wp_start; repeat wp_step; exact_solve; apply processAgentMessage_tasks_exact.
Qed.

Lemma sendGroupMessage_exact params w :
  registry_exact w ->
  async_wp registry_exact (fun _ => True) (fun w _ => registry_exact w) w
    (sendGroupMessage params).
Proof.
  intros Hok. unfold async_wp, sendGroupMessage.
  wp_start; repeat wp_step; exact_solve.
Qed.

Lemma spawn_thread_exact p c :
  config_exact c ->
  async_wp registry_exact (fun _ => True) (fun w _ => registry_exact w) (world c) p ->
  config_exact (spawn_thread p c).
Proof.
  intros [Hw Hths] Hp. unfold spawn_thread, config_exact. cbn.
  pose proof (advance_async_sound registry_exact (fun _ => True)
                (fun w _ => registry_exact w) p (world c) Hp) as [Hs Hpost].
  split.
  - destruct (advance_async p (world c)).2; exact Hpost.
  - apply Forall_app. split; [exact Hths|]. constructor; [exact Hs|constructor].
Qed.

Lemma step_config_exact c c' : stepOf c c' -> config_exact c -> config_exact c'.
Proof.
  intros Hstep Hc. pose proof Hc as [Hw Hths].
  destruct Hstep as [params c|g c|g c|c|g c|g ds c|t g d c Hin|env i j s c Henv Hi|w' c Hsame].
  - apply spawn_thread_exact; [exact Hc|]. apply sendGroupMessage_exact, Hw.
  - split; [apply registry_exact_trigger, Hw|exact Hths].
  - split; [apply registry_exact_cancel, Hw|exact Hths].
  - split; [apply registry_exact_cancelAll, Hw|exact Hths].
  - apply spawn_thread_exact; [exact Hc|]. apply triggerSupervisorDecision_exact, Hw.
  - apply spawn_thread_exact; [exact Hc|]. apply executeAgentResponses_exact, Hw.
  - unfold spawn_thread. cbn [world threads].
    pose proof (advance_async_sound registry_exact (fun _ => True)
                  (fun w _ => registry_exact w) _ _
                  (debounceCallback_exact t g d (world c) Hw Hin)) as [Hs Hpost].
    split; cbn [world threads].
    + destruct (advance_async (callbackCall1 g) (fireTimeout t (world c))).2; exact Hpost.
    + apply Forall_app. split; [exact Hths|]. constructor; [exact Hs|constructor].
  - assert (Hs : async_state_ok registry_exact (fun _ => True)
                   (fun w _ => registry_exact w) s).
    { rewrite Forall_forall in Hths. apply Hths.
      eapply list_elem_of_lookup_2. exact Hi. }
    assert (Hp : post registry_exact (fun w _ => registry_exact w) (world c) s)
      by (destruct s; exact Hw).
    pose proof (resume_sound registry_exact (fun _ => True) (fun w _ => registry_exact w)
                  env j s (world c) (keeps_registry_exact env Henv) Hs Hp) as [Hs' Hp'].
    split; cbn.
    + destruct (resume env j s (world c)).2; exact Hp'.
    + apply Forall_insert; assumption.
  - split; [eapply registry_exact_same; eassumption|exact Hths].
Qed.

Lemma fresh_config_exact c : fresh c -> config_exact c.
Proof.
  intros ((Hths & Hq & Hn) & Ht & _). split.
  - split; [|split].
    + split; [|split]; [| |exact Hn].
      * intros g. unfold pendingTimers. rewrite Hq. cbn. lia.
      * intros t g d Hin. rewrite Hq in Hin. exfalso. exact (not_elem_of_nil _ Hin).
    + intros g t Hl. rewrite Ht, lookup_empty in Hl. discriminate.
    + rewrite Hq. constructor.
  - rewrite Hths. constructor.
Qed.

Lemma run_from_exact c0 c : config_exact c0 -> runFrom c0 c -> config_exact c.
Proof.
  intros H0. induction 1 as [|c c' _ IH Hstep]; [exact H0|].
  eapply step_config_exact; eassumption.
Qed.

Lemma run_from_reachable c0 c : initial c0 -> runFrom c0 c -> reachableOf c.
Proof.
  intros H0. induction 1 as [|c c' _ IH Hstep]; [apply reachable_init, H0|].
  eapply reachable_step; eassumption.
Qed.

(** X14: in a session started with empty registries the timer map is,
    at every moment, exactly the set of the debounce callbacks that are
    still to run: a group has a handle in the map if and only if a
    callback of that group is pending under that handle, and no two
    pending callbacks share a handle.  In particular the map never
    keeps the handle of a callback that has run, and no pending
    callback is out of reach of a cancel. *)
Theorem registry_matches_pending c0 c :
  fresh c0 -> runFrom c0 c ->
  (forall g t,
      supervisorDebounceTimers (store (world c)) !! g = Some t
      <-> exists d, (t, (g, d)) ∈ timeouts (rt (world c)))
  /\ NoDup (map fst (timeouts (rt (world c)))).
Proof.
  intros Hfresh Hrun.
  destruct (run_from_exact c0 c (fresh_config_exact c0 Hfresh) Hrun)
    as [((_ & Hreg & _) & Htight & Hnd) _].
  split; [|exact Hnd]. intros g t. split; [apply Htight|].
  intros [d Hin]. apply (Hreg t g d Hin).
Qed.

Lemma cancel_other_group g g' w :
  registry_exact w -> g <> g' ->
  pendingTimers g' (internal_cancelSupervisorDecision g w) = pendingTimers g' w
  /\ supervisorDebounceTimers (store (internal_cancelSupervisorDecision g w)) !! g'
     = supervisorDebounceTimers (store w) !! g'
  /\ supervisorDecisionAbortControllers (store (internal_cancelSupervisorDecision g w)) !! g'
     = supervisorDecisionAbortControllers (store w) !! g'.
Proof.
  intros (Hok & Htight & Hnd) Hne.
  unfold pendingTimers. rewrite cancel_timers, cancel_timeouts, cancel_controllers.
  rewrite (lookup_delete_ne _ g g') by exact Hne.
  destruct (supervisorDebounceTimers (store w) !! g) as [t|] eqn:Hg;
    [|repeat split].
  destruct (truthy_num t); [|repeat split].
  rewrite (lookup_delete_ne _ g g') by exact Hne.
  split; [|split; reflexivity].
  rewrite filter_comm. apply filter_all. intros [t' [g0 d']] Hin. cbn. intros ->.
  apply list_elem_of_filter in Hin as [Hg0 Hin]. cbn in Hg0. subst g0.
  destruct (Htight g t Hg) as [d0 Hin0].
  pose proof (handle_unique _ _ _ _ Hnd Hin Hin0) as Heq. congruence.
Qed.

Lemma trigger_other_group g g' w :
  registry_exact w -> g <> g' ->
  pendingTimers g' (internal_triggerSupervisorDecisionDebounced g w) = pendingTimers g' w
  /\ supervisorDebounceTimers (store (internal_triggerSupervisorDecisionDebounced g w)) !! g'
     = supervisorDebounceTimers (store w) !! g'
  /\ supervisorDecisionAbortControllers
       (store (internal_triggerSupervisorDecisionDebounced g w)) !! g'
     = supervisorDecisionAbortControllers (store w) !! g'.
Proof.
  intros Hex Hne.
  set (wl := console_log ("Supervisor decision debounced triggered for group " +:+ g) w).
  assert (Hl : registry_exact wl) by (apply registry_exact_console_log, Hex).
  destruct (cancel_other_group g g' wl Hl Hne) as (Hp & Ht & _).
  split; [|split].
  - unfold pendingTimers. rewrite trigger_timeouts. fold wl. rewrite filter_app.
    rewrite filter_cons_False by (cbn; congruence).
    rewrite filter_nil, app_nil_r. exact Hp.
  - rewrite trigger_timers. fold wl. rewrite lookup_insert_ne by exact Hne. exact Ht.
  - rewrite trigger_controllers. apply lookup_delete_ne. exact Hne.
Qed.

(** X15: in a session started with empty registries the groups do not
    interfere: a trigger or a cancel for one group leaves the pending
    callback, the registered timer and the registered token of every
    other group as they are. *)
Theorem groups_do_not_interfere c0 c g g' :
  fresh c0 -> runFrom c0 c -> g <> g' ->
  let w := world c in
  let wt := internal_triggerSupervisorDecisionDebounced g w in
  let wc := internal_cancelSupervisorDecision g w in
  pendingTimers g' wt = pendingTimers g' w
  /\ supervisorDebounceTimers (store wt) !! g' = supervisorDebounceTimers (store w) !! g'
  /\ supervisorDecisionAbortControllers (store wt) !! g'
     = supervisorDecisionAbortControllers (store w) !! g'
  /\ pendingTimers g' wc = pendingTimers g' w
  /\ supervisorDebounceTimers (store wc) !! g' = supervisorDebounceTimers (store w) !! g'
  /\ supervisorDecisionAbortControllers (store wc) !! g'
     = supervisorDecisionAbortControllers (store w) !! g'.
Proof.
  intros Hfresh Hrun Hne w wt wc.
  destruct (run_from_exact c0 c (fresh_config_exact c0 Hfresh) Hrun) as [Hex _].
  destruct (trigger_other_group g g' w Hex Hne) as (H1 & H2 & H3).
  destruct (cancel_other_group g g' w Hex Hne) as (H4 & H5 & H6).
  repeat split; assumption.
Qed.

(** X16: in every reachable configuration a cancel reaches what it is
    meant to stop: after [cancel] of a group no debounce callback of
    that group is left to run, and after [cancelAll] none of any
    group. *)
Theorem cancel_stops_pending c g :
  reachableOf c ->
  pendingTimers g (internal_cancelSupervisorDecision g (world c)) = []
  /\ timeouts (rt (internal_cancelAllSupervisorDecisions (world c))) = [].
Proof.
  intros Hreach.
  destruct (reachable_config_ok _ _ _ _ _ c Hreach) as [Hok _].
  split; [apply cancel_pendingTimers, Hok|apply cancelAll_no_timeouts, Hok].
Qed.

(** X17: when the decision function honours its token (the scheduled
    system), the slot of a group holds a pending timer or a registered
    token, never both; a call suspended in the decision function holds
    the token registered for its group unless its token has been
    aborted; so while a decision call that has not been aborted is in
    flight for a group, no debounce callback is pending for it. *)
Theorem scheduled_slot_exclusive c :
  schedReachableOf c ->
  (forall g, pendingTimers g (world c) <> [] ->
             supervisorDecisionAbortControllers (store (world c)) !! g = None)
  /\ (forall g s tok,
        s ∈ threads c -> decidingFor g s -> decisionToken s = Some tok ->
        supervisorDecisionAbortControllers (store (world c)) !! g = Some tok
        \/ tok ∈ abortedSignals (rt (world c)))
  /\ (forall g s tok,
        s ∈ threads c -> decidingFor g s -> decisionToken s = Some tok ->
        tok ∉ abortedSignals (rt (world c)) ->
        pendingTimers g (world c) = []).
Proof.
  intros Hs.
  destruct (sched_reachable_inv _ _ _ _ _ c Hs) as ((_ & Hk) & _ & _ & Htr).
  assert (Htracked : forall g s tok,
            s ∈ threads c -> decidingFor g s -> decisionToken s = Some tok ->
            supervisorDecisionAbortControllers (store (world c)) !! g = Some tok
            \/ tok ∈ abortedSignals (rt (world c))).
  { intros g s tok Hin Hd Htok. apply list_elem_of_lookup_1 in Hin as [i Hi].
    eapply Htr; eassumption. }
  split; [exact Hk|]. split; [exact Htracked|].
  intros g s tok Hin Hd Htok Hlive.
  destruct (Htracked g s tok Hin Hd Htok) as [Hreg|Hab]; [|contradiction].
  destruct (pendingTimers g (world c)) as [|p l] eqn:Hp; [reflexivity|].
  rewrite Hk in Hreg; [discriminate|]. rewrite Hp. discriminate.
Qed.
End ExactInvariant.

(** ** [cancelAll] and the per-group cancel *)

Lemma clearAllTimers_timeouts_eq m w :
  timeouts (rt (clearAllTimers m w))
  = filter (fun p => Forall (fun kv : string * nat => truthy_num kv.2 = true -> p.1 <> kv.2)
                       (map_to_list m))
      (timeouts (rt w)).
Proof.
  unfold clearAllTimers. induction (map_to_list m) as [|kv l IH].
  - cbn [foldr]. symmetry. apply filter_all. intros p _. constructor.
  - cbn [foldr]. destruct (truthy_num kv.2) eqn:Htr.
    + cbn [clearTimeout emit set_timeouts rt timeouts]. rewrite IH, list_filter_filter.
      apply list_filter_iff. intros p. rewrite Forall_cons. tauto.
    + rewrite IH. apply list_filter_iff. intros p. rewrite Forall_cons.
      split; [intros H; split; [intros Hc; rewrite Htr in Hc; discriminate|exact H]|tauto].
Qed.

Lemma cancelAll_timeouts_eq w :
  timeouts (rt (internal_cancelAllSupervisorDecisions w))
  = filter (fun p => Forall (fun kv : string * nat => truthy_num kv.2 = true -> p.1 <> kv.2)
                       (map_to_list (supervisorDebounceTimers (store w))))
      (timeouts (rt w)).
Proof.
  unfold internal_cancelAllSupervisorDecisions.
  destruct (_ || _) eqn:Hguard.
  - cbn [emit set_controllers set_timers rt timeouts].
    destruct (abortAllControllers_frame (supervisorDecisionAbortControllers (store w))
                (clearAllTimers (supervisorDebounceTimers (store w))
                   (console_log
                      "Cancelling all pending supervisor decisions for session change/cleanup"
                      w))) as (_ & _ & -> & _).
    rewrite clearAllTimers_timeouts_eq. reflexivity.
  - apply cancelAll_guard in Hguard as [-> _]. rewrite map_to_list_empty.
    symmetry. apply filter_all. intros p _. constructor.
Qed.

Lemma cancelAll_aborted_iff w c :
  c ∈ abortedSignals (rt (internal_cancelAllSupervisorDecisions w))
  <-> c ∈ abortedSignals (rt w)
      \/ exists g, supervisorDecisionAbortControllers (store w) !! g = Some c.
Proof.
  unfold internal_cancelAllSupervisorDecisions.
  destruct (_ || _) eqn:Hguard.
  - cbn [emit set_controllers set_timers rt abortedSignals].
    rewrite abortAllControllers_aborted.
    destruct (clearAllTimers_frame (supervisorDebounceTimers (store w))
                (console_log
                   "Cancelling all pending supervisor decisions for session change/cleanup" w))
      as (_ & _ & _ & -> & _).
    reflexivity.
  - apply cancelAll_guard in Hguard as [_ ->]. split; [tauto|].
    intros [H|[g Hg]]; [exact H|]. rewrite lookup_empty in Hg. discriminate.
Qed.

Lemma cancelAll_nextController w :
  nextController (rt (internal_cancelAllSupervisorDecisions w)) = nextController (rt w).
Proof.
  unfold internal_cancelAllSupervisorDecisions.
  destruct (_ || _); [|reflexivity].
  cbn [emit set_controllers set_timers rt nextController].
  destruct (abortAllControllers_frame (supervisorDecisionAbortControllers (store w))
              (clearAllTimers (supervisorDebounceTimers (store w))
                 (console_log
                    "Cancelling all pending supervisor decisions for session change/cleanup"
                    w))) as (_ & _ & _ & _ & ->).
  destruct (clearAllTimers_frame (supervisorDebounceTimers (store w))
              (console_log
                 "Cancelling all pending supervisor decisions for session change/cleanup" w))
    as (_ & _ & _ & _ & ->).
  reflexivity.
Qed.

Section CancelEach.
Variable w : World.
Hypothesis handles_truthy :
  forall g t, supervisorDebounceTimers (store w) !! g = Some t -> t <> 0.

Lemma cancelEach_timers gs :
  supervisorDebounceTimers (store (cancelEach gs w))
  = foldr delete (supervisorDebounceTimers (store w)) gs.
Proof.
  induction gs as [|g gs IH]; [reflexivity|].
  cbn [cancelEach foldr]. fold (cancelEach gs w). rewrite cancel_timers, IH.
  destruct (foldr delete (supervisorDebounceTimers (store w)) gs !! g) as [t|] eqn:Hg.
  - apply lookup_foldr_delete_Some in Hg as [_ Hg].
    assert (Htr : truthy_num t = true) by (apply truthy_num_true; eauto).
    rewrite Htr. reflexivity.
  - symmetry. apply delete_id, Hg.
Qed.

Lemma cancelEach_controllers gs :
  supervisorDecisionAbortControllers (store (cancelEach gs w))
  = foldr delete (supervisorDecisionAbortControllers (store w)) gs.
Proof.
  induction gs as [|g gs IH]; [reflexivity|].
  cbn [cancelEach foldr]. fold (cancelEach gs w). rewrite cancel_controllers, IH.
  reflexivity.
Qed.

Lemma cancelEach_timeouts gs :
  timeouts (rt (cancelEach gs w))
  = filter (fun p => Forall (fun g => supervisorDebounceTimers (store w) !! g <> Some p.1) gs)
      (timeouts (rt w)).
Proof.
  induction gs as [|g gs IH].
  - symmetry. apply filter_all. intros p _. constructor.
  - cbn [cancelEach foldr]. fold (cancelEach gs w).
    rewrite cancel_timeouts, cancelEach_timers.
    destruct (foldr delete (supervisorDebounceTimers (store w)) gs !! g) as [t|] eqn:Hg.
    + apply lookup_foldr_delete_Some in Hg as [_ Hg].
      assert (Htr : truthy_num t = true) by (apply truthy_num_true; eauto).
      rewrite Htr, IH, list_filter_filter. apply list_filter_iff. intros p.
      rewrite Forall_cons, Hg. split.
      * intros [Hne Hall]. split; [congruence|exact Hall].
      * intros [Hne Hall]. split; [congruence|exact Hall].
    + rewrite IH. apply list_filter_iff. intros p. rewrite Forall_cons.
      split; [|tauto]. intros Hall. split; [|exact Hall].
      destruct (decide (g ∈ gs)) as [Hin|Hnin].
      * rewrite Forall_forall in Hall. apply Hall, Hin.
      * rewrite lookup_foldr_delete_not_elem_of in Hg by exact Hnin.
        rewrite Hg. discriminate.
Qed.

Lemma cancelEach_aborted gs c :
  c ∈ abortedSignals (rt (cancelEach gs w))
  <-> c ∈ abortedSignals (rt w)
      \/ exists g, g ∈ gs /\ supervisorDecisionAbortControllers (store w) !! g = Some c.
Proof.
  induction gs as [|g gs IH].
  - split; [tauto|]. intros [H|(g & Hg & _)]; [exact H|].
    apply elem_of_nil in Hg. contradiction.
  - cbn [cancelEach foldr]. fold (cancelEach gs w).
    rewrite cancel_aborted, cancelEach_controllers.
    destruct (foldr delete (supervisorDecisionAbortControllers (store w)) gs !! g)
      as [c0|] eqn:Hg.
    + apply lookup_foldr_delete_Some in Hg as [_ Hg].
      rewrite elem_of_union, elem_of_singleton, IH. split.
      * intros [->|[H|(g' & Hin & Hc)]]; [right; exists g; split; [left|exact Hg]|tauto|].
        right. exists g'. split; [right; exact Hin|exact Hc].
      * intros [H|(g' & Hin & Hc)]; [tauto|].
        apply elem_of_cons in Hin as [->|Hin]; [left; congruence|].
        right. right. exists g'. split; assumption.
    + rewrite IH. split.
      * intros [H|(g' & Hin & Hc)]; [tauto|].
        right. exists g'. split; [right; exact Hin|exact Hc].
      * intros [H|(g' & Hin & Hc)]; [tauto|].
        apply elem_of_cons in Hin as [->|Hin]; [|right; exists g'; split; assumption].
        destruct (decide (g ∈ gs)) as [Hg'|Hnin];
          [right; exists g; split; assumption|].
        rewrite lookup_foldr_delete_not_elem_of in Hg by exact Hnin. congruence.
Qed.

Lemma cancelEach_counters gs :
  nextTimer (rt (cancelEach gs w)) = nextTimer (rt w)
  /\ nextController (rt (cancelEach gs w)) = nextController (rt w).
Proof.
  induction gs as [|g gs [IH1 IH2]]; [split; reflexivity|].
  cbn [cancelEach foldr]. fold (cancelEach gs w).
  rewrite cancel_nextTimer, cancel_nextController. split; assumption.
Qed.

(** X19: on the timers, the tokens and the runtime [cancelAll] is the
    per-group cancel of every tracked group, taken in any order: the
    same registry, the same callbacks left pending, the same signals
    aborted (the registered handles being truthy, as those of
    [setTimeout] are).  What the bulk reset leaves out is the loading
    flags and the logging. *)
Theorem cancelAll_as_cancel_each gs :
  (forall g, g ∈ gs <-> tracked g w) ->
  let w1 := internal_cancelAllSupervisorDecisions w in
  let w2 := cancelEach gs w in
  supervisorDebounceTimers (store w1) = supervisorDebounceTimers (store w2)
  /\ supervisorDecisionAbortControllers (store w1)
     = supervisorDecisionAbortControllers (store w2)
  /\ timeouts (rt w1) = timeouts (rt w2)
  /\ abortedSignals (rt w1) = abortedSignals (rt w2)
  /\ nextTimer (rt w1) = nextTimer (rt w2)
  /\ nextController (rt w1) = nextController (rt w2).
Proof.
  intros Hgs w1 w2.
  assert (Ht : forall g t, supervisorDebounceTimers (store w) !! g = Some t -> g ∈ gs).
  { intros g t Hl. apply Hgs. left. rewrite Hl. eexists. reflexivity. }
  assert (Hc : forall g c, supervisorDecisionAbortControllers (store w) !! g = Some c ->
                           g ∈ gs).
  { intros g c Hl. apply Hgs. right. rewrite Hl. eexists. reflexivity. }
  destruct (cancelEach_counters gs) as [Hn1 Hn2].
  split; [|split; [|split; [|split; [|split]]]].
  - unfold w1, w2. rewrite cancelAll_timers, cancelEach_timers. symmetry.
    apply map_empty. intros g.
    destruct (foldr delete (supervisorDebounceTimers (store w)) gs !! g) as [t|] eqn:Hg;
      [|reflexivity].
    apply lookup_foldr_delete_Some in Hg as [Hnin Hg]. exfalso. eauto.
  - unfold w1, w2. rewrite cancelAll_controllers, cancelEach_controllers. symmetry.
    apply map_empty. intros g.
    destruct (foldr delete (supervisorDecisionAbortControllers (store w)) gs !! g)
      as [c|] eqn:Hg; [|reflexivity].
    apply lookup_foldr_delete_Some in Hg as [Hnin Hg]. exfalso. eauto.
  - unfold w1, w2. rewrite cancelAll_timeouts_eq, cancelEach_timeouts.
    apply list_filter_iff. intros p. rewrite !Forall_forall. split.
    + intros Hall g _ Hl.
      apply elem_of_map_to_list in Hl. specialize (Hall _ Hl). cbn in Hall.
      apply Hall; [|reflexivity].
      apply truthy_num_true. apply elem_of_map_to_list in Hl. eauto.
    + intros Hall [g t] Hl _. cbn. intros Heq. apply elem_of_map_to_list in Hl.
      apply (Hall g); [eauto|]. rewrite Heq. exact Hl.
  - unfold w1, w2. apply set_eq. intros c.
    rewrite cancelAll_aborted_iff, cancelEach_aborted. split.
    + intros [H|[g Hg]]; [tauto|]. right. exists g. split; [eauto|exact Hg].
    + intros [H|(g & _ & Hg)]; [tauto|]. right. exists g. exact Hg.
  - unfold w1, w2. rewrite cancelAll_nextTimer, Hn1. reflexivity.
  - unfold w1, w2. rewrite cancelAll_nextController, Hn2. reflexivity.
Qed.
End CancelEach.

(** ** The further theorems at sample inputs *)

Lemma cancel_untracked_witness :
  internal_cancelSupervisorDecision "h" busyWorld
  = console_log "Stopped supervisor loading state for group h"
      (internal_toggleSupervisorLoading false (Some "h")
         (console_log "Attempting to cancel supervisor decision for group h" busyWorld)).
Proof. apply (cancel_untracked "h" busyWorld); reflexivity. Defined.

Lemma trigger_then_cancel_witness :
  timeouts (rt (internal_cancelSupervisorDecision "g"
                  (internal_triggerSupervisorDecisionDebounced "g" busyWorld)))
  = timeouts (rt (internal_cancelSupervisorDecision "g" busyWorld)).
Proof.
  destruct (trigger_then_cancel "g" busyWorld busyWorld_registry_ok) as (_ & _ & _ & H).
  exact H.
Defined.

Lemma processAgentMessage_request_witness :
  exists k0,
    (advance_task
       (internal_processAgentMessage scopedKey (fun l _ => l) (fun _ _ _ _ => "prompt")
          loadingSentinel "CreateMessageError" "g" "A" None) idleWorld).2
    = Blocked
        (CreateMessage
           (mkCreateMessageParams RoleAssistant loadingSentinel None (Some "gpt-4o")
              (Some "openai") (Some "A") "g" "session-1" None None)) k0.
Proof.
  destruct (processAgentMessage_request scopedKey (fun l _ => l)
              (fun _ _ _ _ => "prompt") loadingSentinel "CreateMessageError"
              "g" "A" None idleWorld
              (mkAgent (Some "A") (Some "Alice") (Some "openai") (Some "gpt-4o") None))
    as (k0 & H & _).
  - vm_compute. discriminate.
  - reflexivity.
  - reflexivity.
  - reflexivity.
  - exists k0. rewrite H. reflexivity.
Defined.

Lemma processAgentMessage_no_placeholder_witness :
  exists pm k0,
    (advance_task
       (internal_processAgentMessage scopedKey (fun l _ => l) (fun _ _ _ _ => "prompt")
          loadingSentinel "CreateMessageError" "g" "A" None) idleWorld).2
    = Blocked (CreateMessage pm) k0
    /\ exists k1,
         advance_task (k0 (Fulfilled None)) idleWorld
         = (emit (ERequest RefreshMessages) idleWorld, Blocked RefreshMessages k1).
Proof.
  destruct (processAgentMessage_no_placeholder scopedKey (fun l _ => l)
              (fun _ _ _ _ => "prompt") loadingSentinel "CreateMessageError"
              "g" "A" None idleWorld
              (mkAgent (Some "A") (Some "Alice") (Some "openai") (Some "gpt-4o") None))
    as (pm & k0 & H & Hk).
  - vm_compute. discriminate.
  - reflexivity.
  - reflexivity.
  - reflexivity.
  - exists pm, k0. split; [rewrite H; reflexivity|].
    destruct (Hk None idleWorld eq_refl) as (k1 & H1 & _). exists k1. exact H1.
Defined.

Lemma supervisorDecision_context_witness :
  exists ctx k,
    (advance_async
       (internal_triggerSupervisorDecision scopedKey (fun l _ => l)
          (fun _ _ _ _ => "prompt") loadingSentinel "CreateMessageError" "g") idleWorld).2
    = Blocked (MakeDecision ctx) k
    /\ ctxMessages ctx = [userMessage1]
    /\ ctxModel ctx = "gemini-2.5-flash" /\ ctxProvider ctx = "google"
    /\ ctxUserName ctx = "User" /\ ctxAbortController ctx = 1.
Proof.
  destruct (supervisorDecision_context scopedKey (fun l _ => l)
              (fun _ _ _ _ => "prompt") loadingSentinel "CreateMessageError"
              "g" idleWorld (mkGroupConfig None None None (Some "fast")))
    as ((k & H) & _).
  - vm_compute. reflexivity.
  - reflexivity.
  - eexists. exists k. split; [rewrite H; reflexivity|]. repeat split.
Defined.

Lemma sendGroupMessage_arms_witness :
  exists k,
    (advance_task (sendGroupMessage (mkSendGroupMessageParams "g" "hi" None None None))
       idleWorld).2
    = Blocked
        (CreateMessage
           (userMessageOf (mkSendGroupMessageParams "g" "hi" None None None) idleWorld)) k
    /\ pendingTimers "g" (advance_task (k (Fulfilled (Some "m2"))) idleWorld).1
       = [(1, ("g", 3000%Z))].
Proof.
  destruct (sendGroupMessage_arms (mkSendGroupMessageParams "g" "hi" None None None)
              idleWorld) as (k & H & Hk).
  - discriminate.
  - left. reflexivity.
  - exists k. split; [rewrite H; reflexivity|].
    destruct (Hk idleWorld) as (Hid & _ & _ & Hp). rewrite (Hid (Some "m2") eq_refl).
    apply Hp. split; [|split]; [intros g; cbn; lia| |cbn; lia].
    intros t g d Hin. cbn in Hin. apply elem_of_nil in Hin. contradiction.
Defined.

Lemma idle_fresh : fresh (mkConfig idleWorld []).
Proof.
  split; [|split; reflexivity]. split; [reflexivity|]. split; [reflexivity|]. cbn. lia.
Qed.

Lemma triggered_run_from :
  run_from scopedKey (fun l _ => l) (fun _ _ _ _ => "prompt") loadingSentinel
    "CreateMessageError" (mkConfig idleWorld []) (triggered (mkConfig idleWorld [])).
Proof.
  eapply run_step; [apply run_here|].
  apply (step_trigger _ _ _ _ _ "g" (mkConfig idleWorld [])).
Qed.

Lemma registry_matches_pending_witness :
  supervisorDebounceTimers (store (world (triggered (mkConfig idleWorld [])))) !! "g" = Some 1
  <-> exists d, (1, ("g", d)) ∈ timeouts (rt (world (triggered (mkConfig idleWorld [])))).
Proof.
  destruct (registry_matches_pending scopedKey (fun l _ => l) (fun _ _ _ _ => "prompt")
              loadingSentinel "CreateMessageError" (mkConfig idleWorld [])
              (triggered (mkConfig idleWorld [])) idle_fresh triggered_run_from) as [H _].
  apply (H "g" 1).
Defined.

Lemma groups_do_not_interfere_witness :
  pendingTimers "g"
    (internal_triggerSupervisorDecisionDebounced "h"
       (world (triggered (mkConfig idleWorld []))))
  = pendingTimers "g" (world (triggered (mkConfig idleWorld []))).
Proof.
  assert (Hne : "h" <> "g") by discriminate.
  destruct (groups_do_not_interfere scopedKey (fun l _ => l) (fun _ _ _ _ => "prompt")
              loadingSentinel "CreateMessageError" (mkConfig idleWorld [])
              (triggered (mkConfig idleWorld [])) "h" "g" idle_fresh triggered_run_from Hne)
    as (H & _).
  exact H.
Defined.

Lemma cancel_stops_pending_witness :
  pendingTimers "g"
    (internal_cancelSupervisorDecision "g" (world (triggered (mkConfig idleWorld [])))) = []
  /\ timeouts (rt (internal_cancelAllSupervisorDecisions
                     (world (triggered (mkConfig idleWorld []))))) = [].
Proof.
  apply (cancel_stops_pending scopedKey (fun l _ => l) (fun _ _ _ _ => "prompt")
           loadingSentinel "CreateMessageError" (triggered (mkConfig idleWorld [])) "g").
  apply (run_from_reachable _ _ _ _ _ (mkConfig idleWorld [])); [|exact triggered_run_from].
  destruct idle_fresh as [H _]. exact H.
Defined.

Lemma scheduled_slot_exclusive_witness :
  pendingTimers "g" (world decidingConfig) = [].
Proof.
  destruct (scheduled_slot_exclusive scopedKey (fun l _ => l) (fun _ _ _ _ => "prompt")
              loadingSentinel "CreateMessageError" decidingConfig
              decidingConfig_sched_reachable) as (_ & _ & H).
  apply (H "g" firstDecision 1).
  - unfold decidingConfig, fired, triggered, spawn_thread, firstDecision, sampleCallback.
    cbv beta zeta iota delta [world threads app]. left.
  - vm_compute. reflexivity.
  - vm_compute. reflexivity.
  - assert (Ha : abortedSignals (rt (world decidingConfig)) = ∅) by (vm_compute; reflexivity).
    rewrite Ha. apply not_elem_of_empty.
Defined.

Lemma busyWorld_tracked g : g ∈ ["g"] <-> tracked g busyWorld.
Proof.
  unfold tracked. cbn. split.
  - intros Hg. apply list_elem_of_singleton in Hg. subst g. left. eexists. reflexivity.
  - intros [[t Ht]|[c Hc]]; apply list_elem_of_singleton.
    + apply lookup_singleton_Some in Ht as [<- _]. reflexivity.
    + apply lookup_singleton_Some in Hc as [<- _]. reflexivity.
Qed.

Lemma cancelAll_as_cancel_each_witness :
  timeouts (rt (internal_cancelAllSupervisorDecisions busyWorld))
  = timeouts (rt (cancelEach ["g"] busyWorld))
  /\ abortedSignals (rt (internal_cancelAllSupervisorDecisions busyWorld))
     = abortedSignals (rt (cancelEach ["g"] busyWorld)).
Proof.
  assert (Htruthy : forall g t,
            supervisorDebounceTimers (store busyWorld) !! g = Some t -> t <> 0).
  { intros g t Ht. cbn in Ht. apply lookup_singleton_Some in Ht as [_ <-]. discriminate. }
  destruct (cancelAll_as_cancel_each busyWorld Htruthy ["g"] busyWorld_tracked)
    as (_ & _ & H1 & H2 & _).
  split; assumption.
Defined.

Lemma idleWorld_registry_ok : registry_ok idleWorld.
Proof.
  split; [|split]; [intros g; cbn; lia| |cbn; lia].
  intros t g d Hin. cbn in Hin. apply elem_of_nil in Hin. contradiction.
Qed.

Lemma debounceCallback_start_witness :
  pendingTimers "g"
    (advance_async
       (timerCallback scopedKey (fun l _ => l) (fun _ _ _ _ => "prompt") loadingSentinel
          "CreateMessageError" "g")
       (fireTimeout 1 (internal_triggerSupervisorDecisionDebounced "g" idleWorld))).1
  = [].
Proof.
  destruct (debounceCallback_start scopedKey (fun l _ => l) (fun _ _ _ _ => "prompt")
              loadingSentinel "CreateMessageError" "g" 1 3000%Z
              (internal_triggerSupervisorDecisionDebounced "g" idleWorld))
    as (_ & H & _).
  - apply trigger_registry_ok, idleWorld_registry_ok.
  - apply list_elem_of_In. vm_compute. left. reflexivity.
  - exact H.
Defined.
